(** * proxy-node: the SOCKS5 client, the core supervisor, the metered relay
      and the speed harness, embedded from the Go sources.

    Layout: the definitions come first, one module per Go package
    ([GoBytes], [Strconv], [Net], [Strings] and [IO] model the parts of the Go
    standard library the program calls; [Proxy], [Core] and [Main] embed
    src/internal/proxy/socks5.go, the core runner and the command), then the
    lemmas and the theorems. *)

From Stdlib Require Import List ZArith Lia Bool String Ascii.
From Stdlib Require Import Strings.Byte.
Import ListNotations.
Local Open Scope Z_scope.

(* ====================================================================== *)
(** ** Bytes, Go strings, results *)
(* ====================================================================== *)

Module GoBytes.

(** A Go [string] and a Go [[]byte] are both sequences of bytes. *)
Definition gostring := list byte.

Definition str (s : string) : gostring := list_byte_of_string s.

(** The numeric value of a byte, 0..255. *)
Definition u8 (b : byte) : Z := Z.of_N (Byte.to_N b).

(** Go's conversion [byte(z)]: the low eight bits. *)
Definition byte_of_Z (z : Z) : byte :=
  match Byte.of_N (Z.to_N (z mod 256)) with
  | Some b => b
  | None => x00
  end.

(** Go's conversion [uint16(z)]. *)
Definition uint16 (z : Z) : Z := z mod 65536.

(** Go's [len]. *)
Definition len {A : Type} (l : list A) : Z := Z.of_nat (List.length l).

(** The slice expression [s[i:j]] and the open forms [s[i:]] and [s[:j]]. *)
Definition slice (s : gostring) (i j : Z) : gostring :=
  firstn (Z.to_nat (j - i)) (skipn (Z.to_nat i) s).
Definition slice_from (s : gostring) (i : Z) : gostring := skipn (Z.to_nat i) s.
Definition slice_to (s : gostring) (j : Z) : gostring := firstn (Z.to_nat j) s.

(** The index expression [s[i]] (only used where the source has checked
    the bound). *)
Definition at_ (s : gostring) (i : Z) : byte := nth (Z.to_nat i) s x00.

(** [bytealg.IndexByteString]: first index of [c], or -1. *)
Fixpoint IndexByte_from (s : gostring) (c : byte) (i : Z) : Z :=
  match s with
  | [] => -1
  | x :: r => if Byte.eqb x c then i else IndexByte_from r c (i + 1)
  end.
Definition IndexByte (s : gostring) (c : byte) : Z := IndexByte_from s c 0.

(** [bytealg.LastIndexByteString]: last index of [c], or -1. *)
Fixpoint LastIndexByte_from (s : gostring) (c : byte) (i found : Z) : Z :=
  match s with
  | [] => found
  | x :: r => LastIndexByte_from r c (i + 1) (if Byte.eqb x c then i else found)
  end.
Definition LastIndexByte (s : gostring) (c : byte) : Z :=
  LastIndexByte_from s c 0 (-1).

(** Fallible operations return a value or an error. *)
Inductive result (E A : Type) : Type :=
| Ok (a : A)
| Err (e : E).
Arguments Ok {E A} a.
Arguments Err {E A} e.

Definition is_ok {E A : Type} (r : result E A) : bool :=
  match r with Ok _ => true | Err _ => false end.

End GoBytes.
Export GoBytes.

(* ====================================================================== *)
(** ** strconv.Atoi *)
(* ====================================================================== *)

Module Strconv.

Inductive NumError := ErrSyntax | ErrRange.

Definition isDigit (c : byte) : bool := (48 <=? u8 c) && (u8 c <=? 57).

(** The digit loop: [n = n*10 + int(ch - '0')], a syntax error on any
    other byte. *)
Fixpoint digits (s : gostring) (n : Z) : option Z :=
  match s with
  | [] => Some n
  | ch :: r => if isDigit ch then digits r (n * 10 + (u8 ch - 48)) else None
  end.

Definition maxInt : Z := 2 ^ 63 - 1.
Definition minInt : Z := - 2 ^ 63.

(** [strconv.Atoi] on a 64-bit platform: an optional sign, then one or more
    decimal digits; a value outside the range of [int] is a range error
    (the fast path for short inputs and [ParseInt(s, 10, 0)] agree on this). *)
Definition Atoi (s : gostring) : result NumError Z :=
  match s with
  | [] => Err ErrSyntax
  | c :: r =>
      let neg := Byte.eqb c "-"%byte in
      let ds := if neg || Byte.eqb c "+"%byte then r else s in
      match ds with
      | [] => Err ErrSyntax
      | _ :: _ =>
          match digits ds 0 with
          | None => Err ErrSyntax
          | Some v =>
              let n := if neg then - v else v in
              if (minInt <=? n) && (n <=? maxInt) then Ok n else Err ErrRange
          end
      end
  end.

End Strconv.

(* ====================================================================== *)
(** ** net.SplitHostPort, net.ParseIP, IP.To4, IP.To16 *)
(* ====================================================================== *)

Module Net.

(** The messages of [*net.AddrError]. *)
Inductive AddrError :=
| missingPort
| tooManyColons
| missingBracket
| unexpectedOpen
| unexpectedClose.

(** [net.SplitHostPort]. *)
Definition SplitHostPort (hostport : gostring)
  : result AddrError (gostring * gostring) :=
  let i := LastIndexByte hostport ":"%byte in
  if i <? 0 then Err missingPort
  else
    let bracket := Byte.eqb (at_ hostport 0) "["%byte in
    let parsed : result AddrError (gostring * Z * Z) :=
      if bracket then
        let end_ := IndexByte hostport "]"%byte in
        if end_ <? 0 then Err missingBracket
        else if end_ + 1 =? len hostport then Err missingPort
        else if end_ + 1 =? i then Ok (slice hostport 1 end_, 1, end_ + 1)
        else if Byte.eqb (at_ hostport (end_ + 1)) ":"%byte then Err tooManyColons
        else Err missingPort
      else
        let host := slice_to hostport i in
        if 0 <=? IndexByte host ":"%byte then Err tooManyColons
        else Ok (host, 0, 0) in
    match parsed with
    | Err e => Err e
    | Ok (host, j, k) =>
        if 0 <=? IndexByte (slice_from hostport j) "["%byte then Err unexpectedOpen
        else if 0 <=? IndexByte (slice_from hostport k) "]"%byte then Err unexpectedClose
        else Ok (host, slice_from hostport (i + 1))
    end.

(** An [net.IP] value: [ParseIP] returns the 16-byte form, [To4] the
    4-byte form. *)
Definition IP := list byte.

(** The dotted-decimal parser: four fields of decimal digits, each at most
    255 and without a leading zero.  [prev] is [s[i-1]], [fields] the octets
    stored so far ([pos] is their number). *)
Fixpoint parseIPv4Fields (s : gostring) (prev : option byte)
    (val digLen : Z) (fields : list byte) : option (list byte) :=
  match s with
  | [] => if len fields <? 3 then None else Some (fields ++ [byte_of_Z val])
  | c :: r =>
      if Strconv.isDigit c then
        if (digLen =? 1) && (val =? 0) then None
        else
          let val' := val * 10 + (u8 c - 48) in
          if val' >? 255 then None
          else parseIPv4Fields r (Some c) val' (digLen + 1) fields
      else if Byte.eqb c "."%byte then
        match prev, r with
        | None, _ => None                      (* i == 0 *)
        | _, [] => None                        (* i == len(s)-1 *)
        | Some p, _ :: _ =>
            if Byte.eqb p "."%byte then None   (* s[i-1] == '.' *)
            else if len fields =? 3 then None  (* a fifth field *)
            else parseIPv4Fields r (Some c) 0 0 (fields ++ [byte_of_Z val])
        end
      else None
  end.

Definition parseIPv4 (s : gostring) : option (list byte) :=
  parseIPv4Fields s None 0 0 [].

Definition hexVal (c : byte) : option Z :=
  let v := u8 c in
  if (48 <=? v) && (v <=? 57) then Some (v - 48)
  else if (97 <=? v) && (v <=? 102) then Some (v - 97 + 10)
  else if (65 <=? v) && (v <=? 70) then Some (v - 65 + 10)
  else None.

(** One group of hexadecimal digits: the accumulated value, the number of
    digits and the rest of the string; [None] on a fifth digit or a value
    above 0xffff. *)
Fixpoint hexGroup (s : gostring) (off acc : Z) : option (Z * Z * gostring) :=
  match s with
  | [] => Some (acc, off, [])
  | c :: r =>
      match hexVal c with
      | None => Some (acc, off, s)
      | Some d =>
          let acc' := (Z.shiftl acc 4) mod 2 ^ 32 + d in
          if off >? 3 then None
          else if acc' >? 65535 then None
          else hexGroup r (off + 1) acc'
      end
  end.

(** The loop [for i < 16] of the IPv6 parser; [ip] holds the [i] bytes
    stored so far.  It returns the bytes, the ellipsis position and the
    unparsed rest.  Each turn stores at least two bytes, so eight turns are
    enough. *)
Fixpoint parseIPv6Loop (turns : nat) (s : gostring) (ip : list byte)
    (ellipsis : Z) : option (list byte * Z * gostring) :=
  match turns with
  | O => Some (ip, ellipsis, s)
  | S turns' =>
      let i := len ip in
      match hexGroup s 0 0 with
      | None => None
      | Some (acc, off, rest) =>
          if off =? 0 then None
          else
            match rest with
            | c :: _ =>
                if Byte.eqb c "."%byte then
                  if (ellipsis <? 0) && negb (i =? 12) then None
                  else if i + 4 >? 16 then None
                  else
                    match parseIPv4 s with
                    | None => None
                    | Some ip4 => Some (ip ++ ip4, ellipsis, [])
                    end
                else
                  let ip' := ip ++ [byte_of_Z (Z.shiftr acc 8); byte_of_Z acc] in
                  if negb (Byte.eqb c ":"%byte) then None
                  else
                    match rest with
                    | [_] => None
                    | _ :: (c2 :: r2) as s1 =>
                        if Byte.eqb c2 ":"%byte then
                          if 0 <=? ellipsis then None
                          else
                            match r2 with
                            | [] => Some (ip', len ip', [])
                            | _ :: _ => parseIPv6Loop turns' r2 ip' (len ip')
                            end
                        else parseIPv6Loop turns' s1 ip' ellipsis
                    | [] => None
                    end
            | [] =>
                Some (ip ++ [byte_of_Z (Z.shiftr acc 8); byte_of_Z acc], ellipsis, [])
            end
      end
  end.

(** The IPv6 parser of net/netip: the 16 bytes and the zone. *)
Definition parseIPv6 (input : gostring) : option (list byte * gostring) :=
  let i := IndexByte input "%"%byte in
  let split : option (gostring * gostring) :=
    if i =? -1 then Some (input, [])
    else
      match slice_from input (i + 1) with
      | [] => None
      | zone => Some (slice_to input i, zone)
      end in
  match split with
  | None => None
  | Some (s, zone) =>
      let lead :=
        match s with
        | c0 :: c1 :: r =>
            if Byte.eqb c0 ":"%byte && Byte.eqb c1 ":"%byte then Some r else None
        | _ => None
        end in
      match lead with
      | Some [] => Some (repeat x00 16, zone)
      | _ =>
          let s0 := match lead with Some r => r | None => s end in
          let e0 := match lead with Some _ => 0 | None => -1 end in
          match parseIPv6Loop 8 s0 [] e0 with
          | None => None
          | Some (ip, ellipsis, rest) =>
              match rest with
              | _ :: _ => None
              | [] =>
                  let i := len ip in
                  if i <? 16 then
                    if ellipsis <? 0 then None
                    else
                      Some (slice_to ip ellipsis
                              ++ repeat x00 (Z.to_nat (16 - i))
                              ++ slice_from ip ellipsis, zone)
                  else if 0 <=? ellipsis then None
                  else Some (ip, zone)
              end
          end
      end
  end.

Definition v4InV6Prefix : list byte :=
  repeat x00 10 ++ [xff; xff].

(** [netip.ParseAddr] followed by [As16], as [net.ParseIP] uses them: the
    first of '.', ':' and '%' in the string selects the parser. *)
Fixpoint parseAddrScan (whole s : gostring) : option (list byte * gostring) :=
  match s with
  | [] => None
  | c :: r =>
      if Byte.eqb c "."%byte then
        match parseIPv4 whole with
        | Some ip4 => Some (v4InV6Prefix ++ ip4, [])
        | None => None
        end
      else if Byte.eqb c ":"%byte then parseIPv6 whole
      else if Byte.eqb c "%"%byte then None
      else parseAddrScan whole r
  end.

(** [net.ParseIP]: [None] is Go's nil; an address with a zone is refused. *)
Definition ParseIP (s : gostring) : option IP :=
  match parseAddrScan s s with
  | Some (ip, []) => Some ip
  | _ => None
  end.

Definition isZeros (p : list byte) : bool := forallb (Byte.eqb x00) p.

(** [IP.To4]. *)
Definition To4 (ip : IP) : option IP :=
  if len ip =? 4 then Some ip
  else if (len ip =? 16) && isZeros (slice ip 0 10)
          && Byte.eqb (at_ ip 10) xff && Byte.eqb (at_ ip 11) xff
       then Some (slice ip 12 16)
       else None.

(** [IP.To16]. *)
Definition To16 (ip : IP) : option IP :=
  if len ip =? 4 then Some (v4InV6Prefix ++ ip)
  else if len ip =? 16 then Some ip
  else None.

End Net.

(* ====================================================================== *)
(** ** unicode/utf8 decoding, unicode.IsSpace, strings.TrimSpace *)
(* ====================================================================== *)

Module Strings.

Definition RuneError : Z := 65533.
Definition RuneSelf : Z := 128.

(** Continuation bytes are 0x80..0xBF. *)
Definition locb : Z := 128.
Definition hicb : Z := 191.

(** The table [first] of unicode/utf8 with its accept ranges: for a leading
    byte, the length of the sequence and the range the second byte must lie
    in; [None] for a byte that cannot start a multi-byte sequence. *)
Definition leading (b0 : Z) : option (Z * Z * Z) :=
  if (194 <=? b0) && (b0 <=? 223) then Some (2, locb, hicb)
  else if b0 =? 224 then Some (3, 160, hicb)
  else if (225 <=? b0) && (b0 <=? 236) then Some (3, locb, hicb)
  else if b0 =? 237 then Some (3, locb, 159)
  else if (238 <=? b0) && (b0 <=? 239) then Some (3, locb, hicb)
  else if b0 =? 240 then Some (4, 144, hicb)
  else if (241 <=? b0) && (b0 <=? 243) then Some (4, locb, hicb)
  else if b0 =? 244 then Some (4, locb, 143)
  else None.

Definition isCont (b : Z) : bool := (locb <=? b) && (b <=? hicb).

(** [utf8.DecodeRuneInString]: the rune and its width in bytes. *)
Definition DecodeRuneInString (s : gostring) : Z * Z :=
  match s with
  | [] => (RuneError, 0)
  | c0 :: r =>
      let s0 := u8 c0 in
      if s0 <? RuneSelf then (s0, 1)
      else
        match leading s0 with
        | None => (RuneError, 1)
        | Some (sz, lo, hi) =>
            if len s <? sz then (RuneError, 1)
            else
              let s1 := u8 (at_ s 1) in
              if (s1 <? lo) || (hi <? s1) then (RuneError, 1)
              else if sz <=? 2 then
                (Z.lor (Z.shiftl (Z.land s0 31) 6) (Z.land s1 63), 2)
              else
                let s2 := u8 (at_ s 2) in
                if negb (isCont s2) then (RuneError, 1)
                else if sz <=? 3 then
                  (Z.lor (Z.lor (Z.shiftl (Z.land s0 15) 12)
                                (Z.shiftl (Z.land s1 63) 6))
                         (Z.land s2 63), 3)
                else
                  let s3 := u8 (at_ s 3) in
                  if negb (isCont s3) then (RuneError, 1)
                  else
                    (Z.lor (Z.lor (Z.lor (Z.shiftl (Z.land s0 7) 18)
                                         (Z.shiftl (Z.land s1 63) 12))
                                  (Z.shiftl (Z.land s2 63) 6))
                           (Z.land s3 63), 4)
        end
  end.

(** [utf8.RuneStart]. *)
Definition RuneStart (b : byte) : bool := negb (Z.land (u8 b) 192 =? 128).

(** The backward scan of [DecodeLastRuneInString]: from [start] down to
    [lim], stop at the first byte that can start a rune. *)
Fixpoint scanBack (n : nat) (s : gostring) (start lim : Z) : Z :=
  match n with
  | O => start
  | S n' =>
      if start <? lim then start
      else if RuneStart (at_ s start) then start
      else scanBack n' s (start - 1) lim
  end.

(** [utf8.DecodeLastRuneInString]. *)
Definition DecodeLastRuneInString (s : gostring) : Z * Z :=
  let end_ := len s in
  if end_ =? 0 then (RuneError, 0)
  else
    let r := u8 (at_ s (end_ - 1)) in
    if r <? RuneSelf then (r, 1)
    else
      let lim := Z.max 0 (end_ - 4) in
      let start := Z.max 0 (scanBack 4 s (end_ - 2) lim) in
      let '(r, size) := DecodeRuneInString (slice s start end_) in
      if negb (start + size =? end_) then (RuneError, 1) else (r, size).

(** [unicode.IsSpace]: the Latin-1 spaces and the White_Space property. *)
Definition IsSpace (r : Z) : bool :=
  if r <=? 255 then
    ((9 <=? r) && (r <=? 13)) || (r =? 32) || (r =? 133) || (r =? 160)
  else
    (r =? 5760) || ((8192 <=? r) && (r <=? 8202)) || (r =? 8232)
    || (r =? 8233) || (r =? 8239) || (r =? 8287) || (r =? 12288).

(** [asciiSpace] of package strings. *)
Definition asciiSpace (c : byte) : bool :=
  let v := u8 c in ((9 <=? v) && (v <=? 13)) || (v =? 32).

(** [indexFunc(s, IsSpace, false)] inside [TrimLeftFunc]: drop the leading
    runes that are spaces.  A rune has at least one byte, so [length s]
    turns are enough. *)
Fixpoint trimLeftSpace (turns : nat) (s : gostring) : gostring :=
  match turns with
  | O => s
  | S turns' =>
      match s with
      | [] => []
      | _ :: _ =>
          let '(r, size) := DecodeRuneInString s in
          if IsSpace r then trimLeftSpace turns' (slice_from s size) else s
      end
  end.

Definition TrimLeftSpace (s : gostring) : gostring :=
  trimLeftSpace (List.length s) s.

(** [lastIndexFunc(s, IsSpace, false)] inside [TrimRightFunc]: the prefix
    that ends with the last rune that is not a space. *)
Fixpoint trimRightSpace (turns : nat) (s : gostring) : gostring :=
  match turns with
  | O => s
  | S turns' =>
      match s with
      | [] => []
      | _ :: _ =>
          let '(r, size) := DecodeLastRuneInString s in
          if IsSpace r then trimRightSpace turns' (slice_to s (len s - size))
          else s
      end
  end.

Definition TrimRightSpace (s : gostring) : gostring :=
  trimRightSpace (List.length s) s.

(** The second loop of [TrimSpace], from the end: ASCII spaces are cut one
    byte at a time; at a byte above 0x7f the rune-aware [TrimRightFunc]
    takes over. *)
Fixpoint trimSpaceStop (rev_s : list byte) : gostring :=
  match rev_s with
  | [] => []
  | c :: r =>
      if RuneSelf <=? u8 c then TrimRightSpace (rev rev_s)
      else if asciiSpace c then trimSpaceStop r
      else rev rev_s
  end.

(** [strings.TrimSpace]: the first loop, from the start; at a byte above
    0x7f [TrimFunc(s[start:], unicode.IsSpace)] takes over. *)
Fixpoint TrimSpace (s : gostring) : gostring :=
  match s with
  | [] => []
  | c :: r =>
      if RuneSelf <=? u8 c then TrimRightSpace (TrimLeftSpace s)
      else if asciiSpace c then TrimSpace r
      else trimSpaceStop (rev s)
  end.

(** An ASCII byte that is not white space: [TrimSpace] never removes
    one. *)
Definition solid (c : byte) : bool := (u8 c <? RuneSelf) && negb (asciiSpace c).

(** A run of bytes without a solid one. *)
Definition soft (l : list byte) : Prop := Forall (fun b => solid b = false) l.

(** *** strings.HasSuffix, TrimSuffix, ToLower, Split, Join *)

(** The comparison [a == b] of two strings. *)
Definition equal (a b : gostring) : bool :=
  if list_eq_dec Byte.byte_eq_dec a b then true else false.

(** [strings.HasSuffix]: [len(s) >= len(suffix) &&
    s[len(s)-len(suffix):] == suffix]. *)
Definition HasSuffix (s suffix : gostring) : bool :=
  (len suffix <=? len s) && equal (slice_from s (len s - len suffix)) suffix.

(** [strings.TrimSuffix]. *)
Definition TrimSuffix (s suffix : gostring) : gostring :=
  if HasSuffix s suffix then slice_to s (len s - len suffix) else s.

Definition isUpperASCII (c : byte) : bool := (65 <=? u8 c) && (u8 c <=? 90).

(** [c += 'a' - 'A'] on an upper-case letter. *)
Definition lowerByte (c : byte) : byte :=
  if isUpperASCII c then byte_of_Z (u8 c + 32) else c.

Section Unicode.

(** [strings.Map(unicode.ToLower, s)], which [strings.ToLower] falls back to
    on a string with a byte above 0x7f, is taken as it is. *)
Variable MapToLower : gostring -> gostring.

(** [strings.ToLower]: a string of ASCII bytes is returned as it is when it
    has no upper-case letter, and with its upper-case letters replaced
    otherwise. *)
Definition ToLower (s : gostring) : gostring :=
  if forallb (fun c => u8 c <? RuneSelf) s then
    if existsb isUpperASCII s then map lowerByte s else s
  else MapToLower s.

End Unicode.

(** [strings.Split(s, sep)] for a separator of one byte (the program splits
    at commas): the pieces between the separators, one more than there are
    separators.  [cur] is the piece being read. *)
Fixpoint splitAt (sep : byte) (s cur : gostring) : list gostring :=
  match s with
  | [] => [cur]
  | c :: r =>
      if Byte.eqb c sep then cur :: splitAt sep r []
      else splitAt sep r (cur ++ [c])
  end.

Definition Split (s : gostring) (sep : byte) : list gostring :=
  splitAt sep s [].

(** [strings.Join]. *)
Fixpoint Join (elems : list gostring) (sep : gostring) : gostring :=
  match elems with
  | [] => []
  | [e] => e
  | e :: r => e ++ sep ++ Join r sep
  end.

End Strings.

(* ====================================================================== *)
(** ** io: errors, byte streams, the Reader and Writer interfaces,
       io.LimitedReader, io.Copy, io.CopyN, bufio.Reader *)
(* ====================================================================== *)

Module IO.

(** The error values the program can meet on a stream. *)
Inductive ioerr :=
| EOF
| ErrNoProgress
| ErrShortWrite
| ErrClosed
| OpError (msg : string).

Definition is_EOF (e : ioerr) : bool :=
  match e with EOF => true | _ => false end.

(** What the peer of a stream does, in order: it delivers a non-empty chunk
    of bytes, or the read fails.  When the script is exhausted the peer has
    closed its side and every read returns [io.EOF]. *)
Inductive event :=
| Data (b : byte) (bs : list byte)
| Fail (e : ioerr).

Definition stream := list event.

(** One [Read(p)] with [len(p) = n] on a stream: at most [n] bytes of the
    chunk at the head; what does not fit stays for the next read. *)
Definition stream_Read (s : stream) (n : nat)
  : (list byte * option ioerr) * stream :=
  match s with
  | [] => (([], Some EOF), [])
  | Fail e :: r => (([], Some e), r)
  | Data b bs :: r =>
      match skipn n (b :: bs) with
      | [] => ((b :: bs, None), r)
      | b' :: bs' => ((firstn n (b :: bs), None), Data b' bs' :: r)
      end
  end.

(** The bytes a stream delivers before its first failure, whatever the
    chunks, and the error that ends them. *)
Fixpoint avail (s : stream) : list byte :=
  match s with
  | [] => []
  | Data b bs :: r => (b :: bs) ++ avail r
  | Fail _ :: _ => []
  end.

Fixpoint ending (s : stream) : ioerr :=
  match s with
  | [] => EOF
  | Data _ _ :: r => ending r
  | Fail e :: _ => e
  end.

(** All the bytes of the script, failures apart. *)
Fixpoint payload (s : stream) : list byte :=
  match s with
  | [] => []
  | Data b bs :: r => (b :: bs) ++ payload r
  | Fail _ :: r => payload r
  end.

(** The interface [interface{ Read([]byte) (int, error) }]: [Read r n] is
    a call with a buffer of length [n]; it returns the bytes stored, the
    error and the reader afterwards.  [bound r] is a number of calls after
    which the reader has certainly returned an error; the loops that read
    until an error use it to terminate. *)
Class Reader (R : Type) := {
  Read : R -> nat -> (list byte * option ioerr) * R;
  bound : R -> nat
}.

Fixpoint stream_bound (s : stream) : nat :=
  match s with
  | [] => 1
  | Data b bs :: r => S (List.length bs) + stream_bound r
  | Fail _ :: r => S (stream_bound r)
  end.

#[global] Instance stream_Reader : Reader stream :=
  {| Read := stream_Read; bound := stream_bound |}.

(** How a reader looks to the code that reads it to the end or until it
    has enough: [pending] are the bytes it will deliver before it fails,
    [failure] the error that follows them, [good] the condition under which
    this holds, and [reads r r'] what any number of reads leaves
    unchanged. *)
Class StreamView (R : Type) := {
  good : R -> Prop;
  pending : R -> list byte;
  failure : R -> ioerr;
  reads : R -> R -> Prop
}.

#[global] Instance stream_View : StreamView stream :=
  {| good := fun _ => True; pending := avail; failure := ending;
     reads := fun _ _ => True |}.

(** The interface [io.Writer]: the number of bytes accepted and the error. *)
Class Writer (W : Type) := {
  Write : W -> list byte -> (nat * option ioerr) * W
}.

(** [io.Discard]. *)
Inductive discard := Discard.

#[global] Instance discard_Writer : Writer discard :=
  {| Write := fun w p => ((List.length p, None), w) |}.

(** [io.LimitedReader]. *)
Record LimitedReader (R : Type) := { LR : R; LN : Z }.
Arguments LR {R} _.
Arguments LN {R} _.

Definition LimitedReader_Read {R : Type} `{Reader R}
    (l : LimitedReader R) (n : nat)
  : (list byte * option ioerr) * LimitedReader R :=
  if LN l <=? 0 then (([], Some EOF), l)
  else
    let n' := if Z.of_nat n >? LN l then Z.to_nat (LN l) else n in
    let '((bs, err), r') := Read (LR l) n' in
    ((bs, err), {| LR := r'; LN := LN l - len bs |}).

#[global] Instance LimitedReader_Reader {R : Type} `{Reader R}
  : Reader (LimitedReader R) :=
  {| Read := LimitedReader_Read; bound := fun l => S (bound (LR l)) |}.

#[global] Instance LimitedReader_View {R : Type} `{StreamView R}
  : StreamView (LimitedReader R) :=
  {| good := fun l => good (LR l);
     pending := fun l => firstn (Z.to_nat (LN l)) (pending (LR l));
     failure := fun l =>
       if LN l <=? len (pending (LR l)) then EOF else failure (LR l);
     reads := fun l l' => reads (LR l) (LR l') |}.

(** [io.LimitReader]. *)
Definition LimitReader {R : Type} (r : R) (n : Z) : LimitedReader R :=
  {| LR := r; LN := n |}.

Definition blackHoleSize : nat := Z.to_nat 8192.
Definition copyBufSize : nat := Z.to_nat 32768.

(** The loop of [discard.ReadFrom], which [io.Copy(io.Discard, src)] runs:
    read into a buffer of 8192 bytes until a read returns an error; a final
    [io.EOF] is not an error. *)
Fixpoint discardReadFrom {R : Type} `{Reader R} (turns : nat) (r : R) (n : Z)
  : (Z * option ioerr) * R :=
  match turns with
  | O => ((n, None), r)
  | S turns' =>
      let '((bs, err), r') := Read r blackHoleSize in
      let n' := n + len bs in
      match err with
      | Some e => ((n', if is_EOF e then None else Some e), r')
      | None => discardReadFrom turns' r' n'
      end
  end.

(** [io.Copy(io.Discard, src)]. *)
Definition CopyDiscard {R : Type} `{Reader R} (src : R)
  : (Z * option ioerr) * R :=
  discardReadFrom (bound src) src 0.

(** [io.CopyN(io.Discard, src, n)]. *)
Definition CopyNDiscard {R : Type} `{Reader R} (src : R) (n : Z)
  : (Z * option ioerr) * R :=
  let '((written, err), l) := CopyDiscard (LimitReader src n) in
  if written =? n then ((n, None), LR l)
  else if (written <? n) && (match err with None => true | _ => false end)
       then ((written, Some EOF), LR l)
       else ((written, err), LR l).

(** The loop of [io.Copy(dst, src)] for a destination that is not
    [io.Discard]: read up to 32 KiB, write what was read, count what was
    written, stop at the first error; a final [io.EOF] of the source is not
    an error. *)
Fixpoint copyBuffer {W R : Type} `{Writer W} `{Reader R}
    (turns : nat) (dst : W) (src : R) (written : Z)
  : (Z * option ioerr) * (W * R) :=
  match turns with
  | O => ((written, None), (dst, src))
  | S turns' =>
      let '((bs, er), src') := Read src copyBufSize in
      let nr := List.length bs in
      let '(stop, (written', dst')) :=
        if (0 <? nr)%nat then
          let '((nw, ew), dst') := Write dst bs in
          let '(nw, ew) :=
            if (nr <? nw)%nat
            then (O, match ew with None => Some (OpError "invalid write result") | _ => ew end)
            else (nw, ew) in
          let written' := written + Z.of_nat nw in
          match ew with
          | Some e => (Some (Some e), (written', dst'))
          | None =>
              if negb (nr =? nw)%nat
              then (Some (Some ErrShortWrite), (written', dst'))
              else (None, (written', dst'))
          end
        else (None, (written, dst)) in
      match stop with
      | Some err => ((written', err), (dst', src'))
      | None =>
          match er with
          | Some e => ((written', if is_EOF e then None else Some e), (dst', src'))
          | None => copyBuffer turns' dst' src' written'
          end
      end
  end.

Definition Copy {W R : Type} `{Writer W} `{Reader R} (dst : W) (src : R)
  : (Z * option ioerr) * (W * R) :=
  copyBuffer (bound src) dst src 0.

(** A reader keeps to its view: a read on pending bytes returns some of
    them, at least one and no more than asked; a read on nothing returns
    the failure. *)
Class StreamLaws (R : Type) `{Reader R} `{StreamView R} : Prop := {
  reads_refl : forall r : R, reads r r;
  reads_trans : forall a b c : R, reads a b -> reads b c -> reads a c;
  Read_some : forall (r : R) (n : nat),
    good r -> (0 < n)%nat -> pending r <> [] ->
    exists k r',
      Read r n = ((firstn k (pending r), None), r')
      /\ (0 < k <= n)%nat /\ (k <= List.length (pending r))%nat
      /\ pending r' = skipn k (pending r) /\ failure r' = failure r
      /\ good r' /\ reads r r' /\ (bound r' + k <= bound r)%nat;
  Read_none : forall (r : R) (n : nat),
    good r -> (0 < n)%nat -> pending r = [] ->
    exists r', Read r n = (([], Some (failure r)), r') /\ reads r r';
  bound_pos : forall r : R, (0 < bound r)%nat
}.

End IO.

(* ---------------------------------------------------------------------- *)

Module Bufio.
Import IO.

Definition defaultBufSize : nat := 4096.
Definition maxConsecutiveEmptyReads : nat := 100.

(** A [bufio.Reader]: the wrapped reader, the unread part [buf[r:w]] of its
    buffer and the error kept for the next call. *)
Record Reader_ (R : Type) := {
  rd : R;
  buf : list byte;
  err : option ioerr
}.
Arguments rd {R} _.
Arguments buf {R} _.
Arguments err {R} _.

(** [bufio.NewReader]. *)
Definition NewReader {R : Type} (r : R) : Reader_ R :=
  {| rd := r; buf := []; err := None |}.

Section WithReader.
Context {R : Type} `{Reader R}.

(** [b.readErr()]: return the kept error and forget it. *)
Definition readErr (b : Reader_ R) : option ioerr * Reader_ R :=
  (err b, {| rd := rd b; buf := buf b; err := None |}).

(** The method [Read] of [bufio.Reader]. *)
Definition Read_ (b : Reader_ R) (n : nat)
  : (list byte * option ioerr) * Reader_ R :=
  if (n =? 0)%nat then
    match buf b with
    | _ :: _ => (([], None), b)
    | [] => let '(e, b') := readErr b in (([], e), b')
    end
  else
    match buf b with
    | [] =>
        match err b with
        | Some _ => let '(e, b') := readErr b in (([], e), b')
        | None =>
            if (defaultBufSize <=? n)%nat then
              (* a large read goes straight to the wrapped reader *)
              let '((bs, e), r') := Read (rd b) n in
              ((bs, e), {| rd := r'; buf := []; err := None |})
            else
              (* one read into the whole buffer *)
              let '((bs, e), r') := Read (rd b) defaultBufSize in
              match bs with
              | [] => (([], e), {| rd := r'; buf := []; err := None |})
              | _ :: _ =>
                  ((firstn n bs, None),
                   {| rd := r'; buf := skipn n bs; err := e |})
              end
        end
    | _ :: _ =>
        ((firstn n (buf b), None),
         {| rd := rd b; buf := skipn n (buf b); err := err b |})
    end.

(** [b.fill()], called on an empty buffer: read until some bytes or an
    error arrive, at most [maxConsecutiveEmptyReads] times. *)
Fixpoint fill_loop (i : nat) (r : R) : Reader_ R :=
  match i with
  | O => {| rd := r; buf := []; err := Some ErrNoProgress |}
  | S i' =>
      let '((bs, e), r') := Read r defaultBufSize in
      match e, bs with
      | Some _, _ => {| rd := r'; buf := bs; err := e |}
      | None, _ :: _ => {| rd := r'; buf := bs; err := None |}
      | None, [] => fill_loop i' r'
      end
  end.

Definition fill (b : Reader_ R) : Reader_ R :=
  fill_loop maxConsecutiveEmptyReads (rd b).

(** The method [ReadByte] of [bufio.Reader]: [for b.r == b.w { if b.err != nil { return 0,
    b.readErr() }; b.fill() }].  After one [fill] the buffer holds a byte or
    an error is kept, so the loop body runs at most twice. *)
Fixpoint ReadByte_loop (turns : nat) (b : Reader_ R)
  : result ioerr byte * Reader_ R :=
  match buf b with
  | c :: rest => (Ok c, {| rd := rd b; buf := rest; err := err b |})
  | [] =>
      match err b with
      | Some e => (Err e, snd (readErr b))
      | None =>
          match turns with
          | O => (Err ErrNoProgress, b)
          | S turns' => ReadByte_loop turns' (fill b)
          end
      end
  end.

Definition ReadByte (b : Reader_ R) : result ioerr byte * Reader_ R :=
  ReadByte_loop 2 b.

End WithReader.

#[global] Instance Reader_Reader {R : Type} `{Reader R} : Reader (Reader_ R) :=
  {| Read := Read_;
     bound := fun b => S (List.length (buf b) + bound (rd b)) |}.

#[global] Instance Reader_View {R : Type} `{StreamView R}
  : StreamView (Reader_ R) :=
  {| good := fun b => good (rd b) /\ err b = None;
     pending := fun b => buf b ++ pending (rd b);
     failure := fun b => failure (rd b);
     reads := fun b b' => reads (rd b) (rd b') |}.

End Bufio.

(* ====================================================================== *)
(** ** net.Conn over TCP *)
(* ====================================================================== *)

Module TCP.
Import IO.

(** A TCP connection as the program sees it: what the peer will deliver
    ([inbound]), the outcome of the coming [Write] calls ([wscript], [None]
    for success; success when exhausted), the payload of every [Write] call
    so far in order ([writes]), whether [Close] was called, whether the
    write side was shut down with [CloseWrite], and the deadline in force. *)
Record Conn := {
  inbound : stream;
  wscript : list (option ioerr);
  writes : list gostring;
  closed : bool;
  wclosed : bool;
  deadline : option Z
}.

Definition Conn_Read (c : Conn) (n : nat)
  : (list byte * option ioerr) * Conn :=
  if closed c then (([], Some ErrClosed), c)
  else
    let '(res, s') := stream_Read (inbound c) n in
    (res, {| inbound := s'; wscript := wscript c; writes := writes c;
             closed := closed c; wclosed := wclosed c;
             deadline := deadline c |}).

Definition Conn_Write (c : Conn) (p : list byte)
  : (nat * option ioerr) * Conn :=
  if closed c || wclosed c then ((O, Some ErrClosed), c)
  else
    let '(e, script') :=
      match wscript c with
      | [] => (None, [])
      | e :: r => (e, r)
      end in
    ((match e with None => List.length p | Some _ => O end, e),
     {| inbound := inbound c; wscript := script'; writes := writes c ++ [p];
        closed := closed c; wclosed := wclosed c; deadline := deadline c |}).

#[global] Instance Conn_Reader : Reader Conn :=
  {| Read := Conn_Read; bound := fun c => stream_bound (inbound c) |}.

#[global] Instance Conn_Writer : Writer Conn :=
  {| Write := Conn_Write |}.

Definition Close (c : Conn) : Conn :=
  {| inbound := inbound c; wscript := wscript c; writes := writes c;
     closed := true; wclosed := wclosed c; deadline := deadline c |}.

Definition CloseWrite (c : Conn) : Conn :=
  {| inbound := inbound c; wscript := wscript c; writes := writes c;
     closed := closed c; wclosed := true; deadline := deadline c |}.

Definition SetDeadline (c : Conn) (d : option Z) : Conn :=
  {| inbound := inbound c; wscript := wscript c; writes := writes c;
     closed := closed c; wclosed := wclosed c; deadline := d |}.

(** Two states of a connection that differ at most in what is left to
    read. *)
Definition same_but_inbound (c c' : Conn) : Prop :=
  wscript c' = wscript c /\ writes c' = writes c /\ closed c' = closed c
  /\ wclosed c' = wclosed c /\ deadline c' = deadline c.

#[global] Instance Conn_View : StreamView Conn :=
  {| good := fun c => closed c = false;
     pending := fun c => avail (inbound c);
     failure := fun c => ending (inbound c);
     reads := same_but_inbound |}.

(** A connection that was just established. *)
Definition fresh (s : stream) (ws : list (option ioerr)) : Conn :=
  {| inbound := s; wscript := ws; writes := []; closed := false;
     wclosed := false; deadline := None |}.

(** A connection on which a handshake can proceed: open, and the next
    write will succeed. *)
Definition ready (c : Conn) : Prop :=
  closed c = false /\ wclosed c = false /\ hd None (wscript c) = None.

(** A connection that takes every write. *)
Definition accepting (c : Conn) : Prop :=
  closed c = false /\ wclosed c = false
  /\ Forall (fun e => e = None) (wscript c).

(** The network: what dialing an address yields. *)
Definition Dialer := gostring -> result ioerr Conn.

End TCP.

(* ====================================================================== *)
(** ** src/internal/proxy/socks5.go *)
(* ====================================================================== *)

Module Proxy.
Import IO TCP.

(** The loop of [readFull]: read into [b[n:]] until [b] is full or a read
    returns an error.  [need] is [len(b) - n] and [got] is [b[:n]].  A read
    of a TCP connection, or of a [bufio.Reader] on one, that returns no
    error stores at least one byte, so [len(b)] turns are enough (lemma
    [readFull_stream]). *)
Fixpoint readFull_loop {R : Type} `{Reader R}
    (turns : nat) (r : R) (need : nat) (got : list byte)
  : (list byte * option ioerr) * R :=
  match turns with
  | O => ((got, None), r)
  | S turns' =>
      if (need =? 0)%nat then ((got, None), r)
      else
        let '((bs, err), r') := Read r need in
        match err with
        | Some e => ((got ++ bs, Some e), r')
        | None => readFull_loop turns' r' (need - List.length bs) (got ++ bs)
        end
  end.

(** [readFull(r, b)] with [len(b) = n]: the bytes stored in [b] and the
    error. *)
Definition readFull {R : Type} `{Reader R} (r : R) (n : nat)
  : (list byte * option ioerr) * R :=
  readFull_loop n r n [].

(** The errors [DialSocks5] returns, one constructor per return site. *)
Inductive DialError :=
| ErrDial (e : ioerr)
| ErrGreetingWrite (e : ioerr)
| ErrGreetingRead (e : ioerr)
| ErrNegotiation
| ErrTargetParse (e : Net.AddrError)
| ErrPortInvalid
| ErrHostInvalid
| ErrConnectWrite (e : ioerr)
| ErrConnectRead (e : ioerr)
| ErrVersion
| ErrConnectFailed (code : byte)
| ErrDomainLenRead (e : ioerr)
| ErrUnknownAtyp
| ErrTailRead (e : ioerr).

(** The format string of each return site. *)
Definition format (e : DialError) : string :=
  match e with
  | ErrDial _ => "dial socks server: %w"
  | ErrGreetingWrite _ => "socks greeting write: %w"
  | ErrGreetingRead _ => "socks greeting read: %w"
  | ErrNegotiation => "socks auth negotiation failed"
  | ErrTargetParse _ => "target addr parse: %w"
  | ErrPortInvalid => "target port is invalid"
  | ErrHostInvalid => "target host is invalid"
  | ErrConnectWrite _ => "socks connect write: %w"
  | ErrConnectRead _ => "socks connect read: %w"
  | ErrVersion => "invalid socks version in reply"
  | ErrConnectFailed _ => "socks connect failed, code=0x%x"
  | ErrDomainLenRead _ => "socks reply domain len read: %w"
  | ErrUnknownAtyp => "socks reply had unknown address type"
  | ErrTailRead _ => "socks reply tail read: %w"
  end%string.

(** The verb [%x] on a byte: lower-case hexadecimal, no padding. *)
Definition hexDigit (d : Z) : ascii :=
  if d <? 10 then ascii_of_N (Z.to_N (48 + d)) else ascii_of_N (Z.to_N (87 + d)).

Definition fmt_x (b : byte) : string :=
  let v := u8 b in
  if v <? 16 then String (hexDigit v) EmptyString
  else String (hexDigit (v / 16)) (String (hexDigit (v mod 16)) EmptyString).

(** The message of an error with its verbs filled in; [%w] stands for the
    message of the wrapped error of the library. *)
Definition render (e : DialError) : string :=
  match e with
  | ErrConnectFailed code => "socks connect failed, code=0x" ++ fmt_x code
  | _ => format e
  end%string.

(** The stages of the handshake a failure belongs to. *)
Inductive Stage :=
| StageDial
| StageNegotiation
| StageAddress
| StageIO
| StageVersion
| StageStatus
| StageAddrType.

Definition stage (e : DialError) : Stage :=
  match e with
  | ErrDial _ => StageDial
  | ErrNegotiation => StageNegotiation
  | ErrTargetParse _ | ErrPortInvalid | ErrHostInvalid => StageAddress
  | ErrGreetingWrite _ | ErrGreetingRead _ | ErrConnectWrite _
  | ErrConnectRead _ | ErrDomainLenRead _ | ErrTailRead _ => StageIO
  | ErrVersion => StageVersion
  | ErrConnectFailed _ => StageStatus
  | ErrUnknownAtyp => StageAddrType
  end.

(** The handshake threads the connection and may fail: a state and error
    monad; the state is the connection, and later the [bufio.Reader] that
    wraps it. *)
Definition M (S A : Type) : Type := S -> result DialError A * S.

Definition ret {S A : Type} (a : A) : M S A := fun s => (Ok a, s).

Definition bind {S A B : Type} (m : M S A) (k : A -> M S B) : M S B :=
  fun s =>
    match m s with
    | (Ok a, s') => k a s'
    | (Err e, s') => (Err e, s')
    end.

Notation "x <- m ;; k" := (bind m (fun x => k))
  (at level 61, m at next level, right associativity).

(** The state holds the connection. *)
Class OwnsConn (S : Type) := {
  theConn : S -> Conn;
  onConn : (Conn -> Conn) -> S -> S
}.

#[global] Instance Conn_OwnsConn : OwnsConn Conn :=
  {| theConn := fun c => c; onConn := fun f c => f c |}.

#[global] Instance Reader_OwnsConn : OwnsConn (Bufio.Reader_ Conn) :=
  {| theConn := fun b => Bufio.rd b;
     onConn := fun f b =>
       {| Bufio.rd := f (Bufio.rd b); Bufio.buf := Bufio.buf b;
          Bufio.err := Bufio.err b |} |}.

(** A computation that returns an error only with the connection closed,
    and one that leaves the record of writes as it is. *)
Definition closes_on_error {S A : Type} `{OwnsConn S} (m : M S A) : Prop :=
  forall s e s', m s = (Err e, s') -> closed (theConn s') = true.

Definition keeps_writes {S A : Type} `{OwnsConn S} (m : M S A) : Prop :=
  forall s r s', m s = (r, s') -> writes (theConn s') = writes (theConn s).

(** [_ = conn.Close(); return nil, e]. *)
Definition abort {S : Type} `{OwnsConn S} {A : Type} (e : DialError) : M S A :=
  fun s => (Err e, onConn Close s).

(** [if _, err := conn.Write(p); err != nil { close; return wrap(err) }]. *)
Definition writeOrAbort (p : gostring) (wrap : ioerr -> DialError)
  : M Conn unit :=
  fun c =>
    let '((_, e), c') := Write c p in
    match e with
    | Some e => abort (wrap e) c'
    | None => (Ok tt, c')
    end.

(** [if _, err := readFull(r, b); err != nil { close; return wrap(err) }]. *)
Definition readFullOrAbort {S : Type} `{Reader S} `{OwnsConn S}
    (n : nat) (wrap : ioerr -> DialError) : M S (list byte) :=
  fun s =>
    let '((bs, e), s') := readFull s n in
    match e with
    | Some e => abort (wrap e) s'
    | None => (Ok bs, s')
    end.

(** [l, err := br.ReadByte(); if err != nil { close; return wrap(err) }]. *)
Definition readByteOrAbort (wrap : ioerr -> DialError)
  : M (Bufio.Reader_ Conn) byte :=
  fun b =>
    match Bufio.ReadByte b with
    | (Ok l, b') => (Ok l, b')
    | (Err e, b') => abort (wrap e) b'
    end.

(** [binary.BigEndian.PutUint16]. *)
Definition PutUint16 (v : Z) : list byte :=
  [byte_of_Z (Z.shiftr v 8); byte_of_Z v].

(** Lines 26-39: the greeting and the method selection. *)
Definition greeting : M Conn unit :=
  _ <- writeOrAbort [x05; x01; x00] ErrGreetingWrite ;;
  resp <- readFullOrAbort 2 ErrGreetingRead ;;
  if negb (Byte.eqb (at_ resp 0) x05) || negb (Byte.eqb (at_ resp 1) x00)
  then abort ErrNegotiation
  else ret tt.

(** Lines 52-69: the address part of the request, chosen by the switch on
    the parsed host. *)
Definition address (host : gostring) : M Conn (list byte) :=
  let ip := Net.ParseIP host in
  match match ip with Some i => Net.To4 i | None => None end with
  | Some v4 => ret (x01 :: v4)
  | None =>
      match match ip with Some i => Net.To16 i | None => None end with
      | Some v6 => ret (x04 :: v6)
      | None =>
          let host := Strings.TrimSpace host in
          if (len host =? 0) || (len host >? 255) then abort ErrHostInvalid
          else ret ([x03; byte_of_Z (len host)] ++ host)
      end
  end.

(** Lines 41-77: parse the target, build the CONNECT request, send it. *)
Definition connect (targetAddr : gostring) : M Conn unit :=
  match Net.SplitHostPort targetAddr with
  | Err e => abort (ErrTargetParse e)
  | Ok (host, portStr) =>
      match Strconv.Atoi portStr with
      | Err _ => abort ErrPortInvalid
      | Ok port =>
          if (port <? 1) || (port >? 65535) then abort ErrPortInvalid
          else
            addr <- address host ;;
            let req := [x05; x01; x00] ++ addr ++ PutUint16 (uint16 port) in
            writeOrAbort req ErrConnectWrite
      end
  end.

(** Lines 85-115: the checks on the reply header and the discarding of the
    bound address and port. *)
Definition checkReply (head : list byte) : M (Bufio.Reader_ Conn) unit :=
  if negb (Byte.eqb (at_ head 0) x05) then abort ErrVersion
  else if negb (Byte.eqb (at_ head 1) x00)
  then abort (ErrConnectFailed (at_ head 1))
  else
    skip <-
      (if Byte.eqb (at_ head 3) x01 then ret 4
       else if Byte.eqb (at_ head 3) x04 then ret 16
       else if Byte.eqb (at_ head 3) x03 then
         l <- readByteOrAbort ErrDomainLenRead ;; ret (u8 l)
       else abort ErrUnknownAtyp) ;;
    _ <- readFullOrAbort (Z.to_nat (skip + 2)) ErrTailRead ;;
    ret tt.

(** Lines 79-115: the reply, read through the [bufio.Reader]. *)
Definition reply : M (Bufio.Reader_ Conn) unit :=
  head <- readFullOrAbort 4 ErrConnectRead ;;
  checkReply head.

(** What a call leaves behind: the error or success, the connection (none
    when the dial failed; on success it is the connection returned to the
    caller), and the bytes the [bufio.Reader] still held when the call
    returned, which go away with it. *)
Record Outcome := {
  res : result DialError unit;
  conn : option Conn;
  leftover : list byte
}.

(** The payloads the call handed to [conn.Write], in order. *)
Definition sent (o : Outcome) : list gostring :=
  match conn o with
  | Some c => writes c
  | None => []
  end.

(** Whether the connection, if there is one, was closed. *)
Definition conn_closed (o : Outcome) : bool :=
  match conn o with
  | Some c => closed c
  | None => true
  end.

(** The bytes of the proxy that nobody has consumed when the call returns:
    those left in the [bufio.Reader] and those still to be read from the
    connection. *)
Definition unread (o : Outcome) : list byte :=
  leftover o ++
  match conn o with
  | Some c => avail (inbound c)
  | None => []
  end.

(** [DialSocks5(ctx, socksAddr, targetAddr, timeout)]. *)
Definition DialSocks5 (dial : Dialer) (socksAddr targetAddr : gostring)
    (timeout : Z) : Outcome :=
  match dial socksAddr with
  | Err e => {| res := Err (ErrDial e); conn := None; leftover := [] |}
  | Ok c0 =>
      let c1 := if timeout >? 0 then SetDeadline c0 (Some timeout) else c0 in
      match (_ <- greeting ;; connect targetAddr) c1 with
      | (Err e, c) => {| res := Err e; conn := Some c; leftover := [] |}
      | (Ok _, c) =>
          match reply (Bufio.NewReader c) with
          | (Err e, br) =>
              {| res := Err e; conn := Some (Bufio.rd br);
                 leftover := Bufio.buf br |}
          | (Ok _, br) =>
              let c' := if timeout >? 0
                        then SetDeadline (Bufio.rd br) None
                        else Bufio.rd br in
              {| res := Ok tt; conn := Some c'; leftover := Bufio.buf br |}
          end
      end
  end.

End Proxy.

(* ====================================================================== *)
(** ** The core runner: package core (src/internal/core/core.go and the
       later revision kept in src/cmd/health-node/main.go, lines 364-500) *)
(* ====================================================================== *)

Module Core.
Import IO.

(** A value of type [any] as the configuration uses it; a [map[string]any]
    is a list of bindings with one binding per key. *)
#[warnings="-register-all"]
Inductive any :=
| AString (s : gostring)
| AInt (n : Z)
| ABool (b : bool)
| AMap (m : list (string * any))
| ASlice (l : list any).

Definition gomap := list (string * any).

(** [m[k]] and [m[k] = v]. *)
Fixpoint map_get (m : gomap) (k : string) : option any :=
  match m with
  | [] => None
  | (k', v) :: r => if String.eqb k' k then Some v else map_get r k
  end.

Definition map_set (m : gomap) (k : string) (v : any) : gomap :=
  (k, v) :: filter (fun kv => negb (String.eqb (fst kv) k)) m.

(** A path below a value: [get_in v [k1; k2]] is [v[k1][k2]]. *)
Fixpoint get_in (v : any) (path : list string) : option any :=
  match path with
  | [] => Some v
  | k :: rest =>
      match v with
      | AMap m =>
          match map_get m k with
          | Some v' => get_in v' rest
          | None => None
          end
      | _ => None
      end
  end.

Record Runner := {
  CorePath : gostring;
  Port : Z;
  Timeout : Z;
  InboundProtocol : gostring;
  LogLevel : gostring
}.

(** [exec.Cmd], as far as [Start] fills it. *)
Record Cmd := {
  Path : gostring;
  Args : list gostring;
  Stdout : gostring;
  Stderr : gostring
}.

Record Started := {
  cmd : Cmd;
  ConfigPath : gostring;
  LogPath : gostring;
  AccessLogPath : gostring
}.

Inductive StartError :=
| ErrCorePathRequired
| ErrPortRequired
| ErrInboundProtocol (p : gostring)
| ErrMarshal (e : ioerr)
| ErrTempDir (e : ioerr)
| ErrWriteConfig (e : ioerr)
| ErrCreateLog (e : ioerr)
| ErrStartCore (e : ioerr).

Definition gostring_eqb (a b : gostring) : bool :=
  if list_eq_dec Byte.byte_eq_dec a b then true else false.

(** The file system: what [os.ReadFile] returns for a path. *)
Definition FS := gostring -> result ioerr (list byte).

Definition fs_put (fs : FS) (path : gostring) (content : list byte) : FS :=
  fun p => if gostring_eqb p path then Ok content else fs p.

(** What the operating system answers to the calls of one [Start]:
    [os.MkdirTemp] (the new directory), [os.WriteFile], [os.Create] and
    [cmd.Start] ([None] for success). *)
Record OS := {
  mkdirTemp : result ioerr gostring;
  writeFile : option ioerr;
  create : option ioerr;
  startProcess : option ioerr
}.

(** [filepath.Join(dir, name)] for a clean directory and a plain name. *)
Definition Join (dir name : gostring) : gostring := dir ++ str "/" ++ name.

(** [filepath.Base] on a Unix path. *)
Fixpoint dropTrailingSlashes (rev_p : list byte) : list byte :=
  match rev_p with
  | c :: r => if Byte.eqb c "/"%byte then dropTrailingSlashes r else rev_p
  | [] => []
  end.

Definition Base (path : gostring) : gostring :=
  match path with
  | [] => str "."
  | _ :: _ =>
      let p := rev (dropTrailingSlashes (rev path)) in
      let p := slice_from p (LastIndexByte p "/"%byte + 1) in
      match p with
      | [] => str "/"
      | _ :: _ => p
      end
  end.

(** [strings.Contains]. *)
Fixpoint hasPrefix (s prefix : gostring) : bool :=
  match prefix, s with
  | [], _ => true
  | _ :: _, [] => false
  | p :: ps, c :: cs => Byte.eqb p c && hasPrefix cs ps
  end.

Fixpoint Contains (s substr : gostring) : bool :=
  hasPrefix s substr ||
  match s with
  | [] => false
  | _ :: r => Contains r substr
  end.

Section Start.

(** Two functions of the standard library are taken as they are:
    [json.MarshalIndent(v, "", "  ")] and [strings.ToLower]. *)
Variable MarshalIndent : any -> result ioerr (list byte).
Variable ToLower : gostring -> gostring.

Definition coreArgs (corePath configPath : gostring) : list gostring :=
  let base := ToLower (Base corePath) in
  if Contains base (str "xray") then [str "run"; str "-c"; configPath]
  else [str "-config"; configPath].

(** The configuration as it stands when [json.MarshalIndent] is called
    (lines 411-429). *)
Definition config (port : Z) (inboundProtocol logLevel : gostring)
    (outbound : any) : gomap :=
  let inbound : gomap :=
    [("listen", AString (str "127.0.0.1"));
     ("port", AInt port);
     ("protocol", AString inboundProtocol)]%string in
  let inbound :=
    if gostring_eqb inboundProtocol (str "socks")
    then map_set inbound "settings" (AMap [("udp", ABool false)]%string)
    else inbound in
  [("log", AMap [("loglevel", AString logLevel)]);
   ("inbounds", ASlice [AMap inbound]);
   ("outbounds",
     ASlice [outbound;
             AMap [("tag", AString (str "direct"));
                   ("protocol", AString (str "freedom"))]])]%string.

(** What [Start] leaves behind besides its result: the file system, and the
    map [cfg] as it is when the function returns. *)
Record Effects := {
  fs : FS;
  cfg : option gomap
}.

(** [Runner.Start] (the later revision, lines 392-470 of
    src/cmd/health-node/main.go). *)
Definition Start (r : Runner) (outbound : any) (os : OS) (fs0 : FS)
  : result StartError Started * Effects :=
  let none := {| fs := fs0; cfg := None |} in
  if gostring_eqb (CorePath r) [] then (Err ErrCorePathRequired, none)
  else if Port r =? 0 then (Err ErrPortRequired, none)
  else
    let inboundProtocol := Strings.TrimSpace (InboundProtocol r) in
    let inboundProtocol :=
      if gostring_eqb inboundProtocol [] then str "socks" else inboundProtocol in
    if negb (gostring_eqb inboundProtocol (str "socks"))
       && negb (gostring_eqb inboundProtocol (str "http"))
    then (Err (ErrInboundProtocol inboundProtocol), none)
    else
      let logLevel := Strings.TrimSpace (LogLevel r) in
      let logLevel :=
        if gostring_eqb logLevel [] then str "warning" else logLevel in
      let cfg0 := config (Port r) inboundProtocol logLevel outbound in
      match MarshalIndent (AMap cfg0) with
      | Err e => (Err (ErrMarshal e), {| fs := fs0; cfg := Some cfg0 |})
      | Ok body =>
          match mkdirTemp os with
          | Err e => (Err (ErrTempDir e), {| fs := fs0; cfg := Some cfg0 |})
          | Ok dir =>
              let configPath := Join dir (str "config.json") in
              let logPath := Join dir (str "core.log") in
              let accessLogPath := Join dir (str "access.log") in
              let cfg1 :=
                map_set cfg0 "log"
                  (AMap [("loglevel", AString logLevel);
                         ("access", AString accessLogPath);
                         ("error", AString logPath)]%string) in
              match writeFile os with
              | Some e =>
                  (Err (ErrWriteConfig e), {| fs := fs0; cfg := Some cfg1 |})
              | None =>
                  let fs1 := fs_put fs0 configPath body in
                  match create os with
                  | Some e =>
                      (Err (ErrCreateLog e), {| fs := fs1; cfg := Some cfg1 |})
                  | None =>
                      let fs2 := fs_put fs1 logPath [] in
                      let args := coreArgs (CorePath r) configPath in
                      let c := {| Path := CorePath r; Args := args;
                                  Stdout := logPath; Stderr := logPath |} in
                      match startProcess os with
                      | Some e =>
                          (Err (ErrStartCore e),
                           {| fs := fs2; cfg := Some cfg1 |})
                      | None =>
                          (Ok {| cmd := c; ConfigPath := configPath;
                                 LogPath := logPath;
                                 AccessLogPath := accessLogPath |},
                           {| fs := fs2; cfg := Some cfg1 |})
                      end
                  end
              end
          end
      end.

(** [Runner.Start] of src/internal/core/core.go (the earlier revision):
    a socks inbound, log level "warning", no access log. *)
Definition Start_core_go (r : Runner) (outbound : any) (os : OS) (fs0 : FS)
  : result StartError Started * Effects :=
  let none := {| fs := fs0; cfg := None |} in
  if gostring_eqb (CorePath r) [] then (Err ErrCorePathRequired, none)
  else if Port r =? 0 then (Err ErrPortRequired, none)
  else
    let cfg0 := config (Port r) (str "socks") (str "warning") outbound in
    let eff fs' := {| fs := fs'; cfg := Some cfg0 |} in
    match MarshalIndent (AMap cfg0) with
    | Err e => (Err (ErrMarshal e), eff fs0)
    | Ok body =>
        match mkdirTemp os with
        | Err e => (Err (ErrTempDir e), eff fs0)
        | Ok dir =>
            let configPath := Join dir (str "config.json") in
            let logPath := Join dir (str "core.log") in
            match writeFile os with
            | Some e => (Err (ErrWriteConfig e), eff fs0)
            | None =>
                let fs1 := fs_put fs0 configPath body in
                match create os with
                | Some e => (Err (ErrCreateLog e), eff fs1)
                | None =>
                    let fs2 := fs_put fs1 logPath [] in
                    let args := coreArgs (CorePath r) configPath in
                    let c := {| Path := CorePath r; Args := args;
                                Stdout := logPath; Stderr := logPath |} in
                    match startProcess os with
                    | Some e => (Err (ErrStartCore e), eff fs2)
                    | None =>
                        (Ok {| cmd := c; ConfigPath := configPath;
                               LogPath := logPath; AccessLogPath := [] |},
                         eff fs2)
                    end
                end
            end
        end
    end.

End Start.

(** [(s *Started) ReadLogTail()]; [None] is the nil handle.  The two
    revisions have the same text. *)
Definition ReadLogTail (s : option Started) (fs : FS) : gostring :=
  match s with
  | None => []
  | Some s =>
      if gostring_eqb (LogPath s) [] then []
      else
        match fs (LogPath s) with
        | Err _ => []
        | Ok b =>
            if len b >? 4000 then slice_from b (len b - 4000) else b
        end
  end.

End Core.

(* ====================================================================== *)
(** ** The command: package main (src/unnamed/part_000 and
       src/cmd/health-node/main.go) *)
(* ====================================================================== *)

Module Main.
Import IO TCP.

(** *** The speed harness *)

(** An [http.Response] as [speedHTTP] uses it: the status code, the body
    (a stream) and whether [Body.Close] was called. *)
Record Response := {
  StatusCode : Z;
  Body : stream;
  bodyClosed : bool
}.

(** What the HTTP layer answers to one request: the error of
    [http.NewRequestWithContext], the result of [client.Do], and the value
    of [time.Since(start)] when the function returns. *)
Record HTTP := {
  newRequest : option ioerr;
  roundTrip : result ioerr Response;
  since : Z
}.

Inductive SpeedError :=
| ErrNewRequest (e : ioerr)
| ErrDo (e : ioerr)
| ErrStatus (code : Z)
| ErrBody (e : ioerr).

Definition closeBody (r : Response) (b : stream) : Response :=
  {| StatusCode := StatusCode r; Body := b; bodyClosed := true |}.

(** [speedHTTP(ctx, socksAddr, rawURL, maxBytes, timeout)]: the bytes read
    and the elapsed time, or an error; and the response as it is left
    ([None] when there was none). *)
Definition speedHTTP (http : HTTP) (maxBytes : Z)
  : result SpeedError (Z * Z) * option Response :=
  match newRequest http with
  | Some e => (Err (ErrNewRequest e), None)
  | None =>
      match roundTrip http with
      | Err e => (Err (ErrDo e), None)
      | Ok resp =>
          if StatusCode resp >=? 400
          then (Err (ErrStatus (StatusCode resp)),
                Some (closeBody resp (Body resp)))
          else if maxBytes >? 0 then
            let '((n, err), body) := CopyNDiscard (Body resp) maxBytes in
            match err with
            | Some e =>
                if negb (is_EOF e)
                then (Err (ErrBody e), Some (closeBody resp body))
                else (Ok (n, since http), Some (closeBody resp body))
            | None => (Ok (n, since http), Some (closeBody resp body))
            end
          else
            let '((n, err), body) := CopyDiscard (Body resp) in
            match err with
            | Some e => (Err (ErrBody e), Some (closeBody resp body))
            | None => (Ok (n, since http), Some (closeBody resp body))
            end
      end
  end.

(** *** The traffic meter and the relay *)

(** [atomic.Uint64]: a value in [0, 2^64); [Add] wraps around. *)
Definition Uint64_Add (x delta : Z) : Z := (x + delta) mod 2 ^ 64.

(** Go's conversion [uint64(n)] of an [int64]. *)
Definition uint64 (n : Z) : Z := n mod 2 ^ 64.

Record trafficMeter := {
  upTotal : Z;
  downTotal : Z
}.

Definition newTrafficMeter : trafficMeter := {| upTotal := 0; downTotal := 0 |}.

(** The two goroutines of [relayConn]. *)
Inductive direction := Uplink | Downlink.

(** Where a goroutine stands: before [io.Copy]; after it, with the count
    [n] it returned; after the counter update, before [CloseWrite]; done. *)
Inductive pc :=
| AtCopy
| AtAdd (n : Z)
| AtCloseWrite
| AtDone.

(** One relayed connection after the dial succeeded: the two sockets and
    the two goroutines. *)
Record relay := {
  client : Conn;
  target : Conn;
  up : pc;
  down : pc
}.

(** [if n > 0 { meter.upTotal.Add(uint64(n)) }] and its twin. *)
Definition account (d : direction) (n : Z) (m : trafficMeter) : trafficMeter :=
  if n >? 0 then
    match d with
    | Uplink =>
        {| upTotal := Uint64_Add (upTotal m) (uint64 n);
           downTotal := downTotal m |}
    | Downlink =>
        {| upTotal := upTotal m;
           downTotal := Uint64_Add (downTotal m) (uint64 n) |}
    end
  else m.

(** One step of one goroutine of a relayed connection.  The goroutines
    share the meter only; [io.Copy(target, client)] reads the client's
    inbound side and writes the target, [io.Copy(client, target)] the
    reverse, so taking each copy as one step loses no interleaving that
    the meter can see. *)
Definition step_goroutine (d : direction) (m : trafficMeter) (r : relay)
  : option (trafficMeter * relay) :=
  match d with
  | Uplink =>
      match up r with
      | AtCopy =>
          let '((n, _), (t', c')) := Copy (target r) (client r) in
          Some (m, {| client := c'; target := t'; up := AtAdd n; down := down r |})
      | AtAdd n =>
          Some (account Uplink n m,
                {| client := client r; target := target r;
                   up := AtCloseWrite; down := down r |})
      | AtCloseWrite =>
          Some (m, {| client := client r; target := CloseWrite (target r);
                      up := AtDone; down := down r |})
      | AtDone => None
      end
  | Downlink =>
      match down r with
      | AtCopy =>
          let '((n, _), (c', t')) := Copy (client r) (target r) in
          Some (m, {| client := c'; target := t'; up := up r; down := AtAdd n |})
      | AtAdd n =>
          Some (account Downlink n m,
                {| client := client r; target := target r;
                   up := up r; down := AtCloseWrite |})
      | AtCloseWrite =>
          Some (m, {| client := CloseWrite (client r); target := target r;
                      up := up r; down := AtDone |})
      | AtDone => None
      end
  end.

(** [relayConn] when the dial of the target succeeded: both goroutines at
    their start. *)
Definition relayConn_start (c t : Conn) : relay :=
  {| client := c; target := t; up := AtCopy; down := AtCopy |}.

(** [wg.Wait()] returns when both goroutines are done; the deferred calls
    then close both sockets. *)
Definition finished (r : relay) : bool :=
  match up r, down r with
  | AtDone, AtDone => true
  | _, _ => false
  end.

(** A relay session: the shared meter and the connections being relayed,
    in the order they were accepted. *)
Record session := {
  meter : trafficMeter;
  relays : list relay
}.

(** What the next step of goroutine [d] adds to the counters, uplink and
    downlink: the count it holds, when it stands at the update and the
    count is positive. *)
Definition adds (d : direction) (r : relay) : Z * Z :=
  match d, (match d with Uplink => up r | Downlink => down r end) with
  | Uplink, AtAdd n => if n >? 0 then (n, 0) else (0, 0)
  | Downlink, AtAdd n => if n >? 0 then (0, n) else (0, 0)
  | _, _ => (0, 0)
  end.

(** The steps of a session, each with what it adds to the counters: the
    accept loop takes a connection and [relayConn] dials the target (a
    failed dial relays nothing and changes nothing here), or one goroutine
    of one relayed connection moves. *)
Inductive step : session -> Z * Z -> session -> Prop :=
| step_accept (s : session) (c t : Conn) :
    step s (0, 0)
      {| meter := meter s; relays := relays s ++ [relayConn_start c t] |}
| step_move (s : session) (pre post : list relay) (r r' : relay)
    (d : direction) (m' : trafficMeter) :
    relays s = pre ++ r :: post ->
    step_goroutine d (meter s) r = Some (m', r') ->
    step s (adds d r) {| meter := m'; relays := pre ++ r' :: post |}.

(** Any number of steps, with the sum of what they add. *)
Inductive steps : session -> Z * Z -> session -> Prop :=
| steps_refl (s : session) : steps s (0, 0) s
| steps_cons (s s' s'' : session) (u d u' d' : Z) :
    step s (u, d) s' -> steps s' (u', d') s'' ->
    steps s (u + u', d + d') s''.

(** The counters hold 64-bit values. *)
Definition in_range (m : trafficMeter) : Prop :=
  0 <= upTotal m < 2 ^ 64 /\ 0 <= downTotal m < 2 ^ 64.

(** A schedule runs the goroutines of one relayed connection in the given
    order; a goroutine that is done is skipped. *)
Fixpoint run (sched : list direction) (m : trafficMeter) (r : relay)
  : trafficMeter * relay :=
  match sched with
  | [] => (m, r)
  | d :: rest =>
      match step_goroutine d m r with
      | Some (m', r') => run rest m' r'
      | None => run rest m r
      end
  end.

(** Where goroutine [d] of a relayed connection stands. *)
Definition pcOf (d : direction) (r : relay) : pc :=
  match d with
  | Uplink => up r
  | Downlink => down r
  end.

(** What holds of the uplink goroutine, the meter and the two sockets at
    every point of a relayed connection that started with the meter [m0]
    and [nu] bytes pending from the client; and the same for the downlink
    goroutine and the [nd] bytes pending from the target. *)
Definition up_inv (m0 : trafficMeter) (nu : Z) (m : trafficMeter) (r : relay)
  : Prop :=
  match up r with
  | AtCopy =>
      upTotal m = upTotal m0 /\ closed (client r) = false
      /\ len (avail (inbound (client r))) = nu /\ accepting (target r)
  | AtAdd n => n = nu /\ upTotal m = upTotal m0
  | AtCloseWrite | AtDone => upTotal m = (upTotal m0 + nu) mod 2 ^ 64
  end.

Definition down_inv (m0 : trafficMeter) (nd : Z) (m : trafficMeter) (r : relay)
  : Prop :=
  match down r with
  | AtCopy =>
      downTotal m = downTotal m0 /\ closed (target r) = false
      /\ len (avail (inbound (target r))) = nd /\ accepting (client r)
  | AtAdd n => n = nd /\ downTotal m = downTotal m0
  | AtCloseWrite | AtDone => downTotal m = (downTotal m0 + nd) mod 2 ^ 64
  end.

(** *** The probe *)

(** [probeHTTP(ctx, socksAddr, rawURL, timeout)]: the elapsed time, the
    status code and the number of bytes read, or an error; and the response
    as it is left. *)
Definition probeHTTP (http : HTTP)
  : result SpeedError (Z * Z * Z) * option Response :=
  match newRequest http with
  | Some e => (Err (ErrNewRequest e), None)
  | None =>
      match roundTrip http with
      | Err e => (Err (ErrDo e), None)
      | Ok resp =>
          let '((n, _), body) := CopyNDiscard (Body resp) 2048 in
          (Ok (since http, StatusCode resp, n), Some (closeBody resp body))
      end
  end.

(** *** The report of the traffic meter *)

(** [strconv.FormatUint(n, 10)], the verb [%d]: the decimal digits, most
    significant first; a 64-bit value has at most twenty. *)
Definition digitByte (d : Z) : byte := byte_of_Z (48 + d).

Fixpoint decimal_loop (fuel : nat) (n : Z) (acc : gostring) : gostring :=
  match fuel with
  | O => acc
  | S fuel' =>
      let acc' := digitByte (n mod 10) :: acc in
      if n <? 10 then acc' else decimal_loop fuel' (n / 10) acc'
  end.

Definition FormatUint (n : Z) : gostring := decimal_loop 20 n [].

(** The conversion [float64(n)] of a [uint64]: the value is kept when it
    fits the 53 bits of the significand, and rounded to the nearest value
    that does, ties to the even one, otherwise.  The result is the value of
    the float, an integer. *)
Definition float64_of_uint64 (n : Z) : Z :=
  if n <? 2 ^ 53 then n
  else
    let e := Z.log2 n - 52 in
    let q := n / 2 ^ e in
    let r := n mod 2 ^ e in
    let half := 2 ^ (e - 1) in
    (if (r >? half) || ((r =? half) && Z.odd q) then q + 1 else q) * 2 ^ e.

(** Rounding [num/den] to an integer, ties to even. *)
Definition roundHalfEven (num den : Z) : Z :=
  let q := num / den in
  let r := num mod den in
  if (2 * r >? den) || ((2 * r =? den) && Z.odd q) then q + 1 else q.

(** The verb [%.2f] on the value [num/den >= 0]: the value rounded to
    hundredths, ties to even, with two digits after the point.
    [hundredths] is the number of hundredths shown. *)
Definition hundredths (num den : Z) : Z := roundHalfEven (num * 100) den.

Definition fixed2 (c : Z) : gostring :=
  FormatUint (c / 100) ++ str "." ++ [digitByte (c / 10 mod 10); digitByte (c mod 10)].

Definition KB : Z := 1024.
Definition MB : Z := 1024 * KB.
Definition GB : Z := 1024 * MB.

(** [humanBytes(n)]; the division of a float by a power of two is exact. *)
Definition humanBytes (n : Z) : gostring :=
  if n >=? GB then fixed2 (hundredths (float64_of_uint64 n) GB) ++ str "GB"
  else if n >=? MB then fixed2 (hundredths (float64_of_uint64 n) MB) ++ str "MB"
  else if n >=? KB then fixed2 (hundredths (float64_of_uint64 n) KB) ++ str "KB"
  else FormatUint n ++ str "B".

(** The subtraction of two [uint64]. *)
Definition Uint64_Sub (x y : Z) : Z := (x - y) mod 2 ^ 64.

(** The sum of a list of numbers. *)
Definition sumZ (l : list Z) : Z := fold_right Z.add 0 l.

(** One line of the report: the four values the [Printf] shows, each
    through [humanBytes]. *)
Record report := {
  upRate : Z;
  downRate : Z;
  totalUp : Z;
  totalDown : Z
}.

(** The loop of [(m *trafficMeter) run]: [loads] are the values of the two
    counters that [Load] returns at the ticks before [stop] is closed, in
    order; [prevUp] and [prevDown] are the values of the tick before. *)
Fixpoint meter_loop (loads : list (Z * Z)) (prevUp prevDown : Z)
  : list report :=
  match loads with
  | [] => []
  | (up, down) :: rest =>
      {| upRate := Uint64_Sub up prevUp; downRate := Uint64_Sub down prevDown;
         totalUp := up; totalDown := down |}
      :: meter_loop rest up down
  end.

Definition meter_run (loads : list (Z * Z)) : list report :=
  meter_loop loads 0 0.

(** *** The relay of one connection *)

(** [relayConn(client, targetAddr, meter)] under a schedule of its two
    goroutines: the meter, the client connection and the target connection
    (none when the dial failed) when the function returns; [None] when the
    schedule ends before both goroutines are done, so that [wg.Wait] has
    not returned.  The deferred calls close both connections. *)
Definition relayConn (dial : Dialer) (c : Conn) (targetAddr : gostring)
    (m : trafficMeter) (sched : list direction)
  : option (trafficMeter * Conn * option Conn) :=
  match dial targetAddr with
  | Err _ => Some (m, Close c, None)
  | Ok t =>
      let '(m', r) := run sched m (relayConn_start c t) in
      if finished r then Some (m', Close (client r), Some (Close (target r)))
      else None
  end.

(** The bytes a connection was given to send, in one sequence. *)
Definition written (c : Conn) : list byte := List.concat (writes c).

(** What holds of the uplink goroutine and the two sockets at every point
    of a relayed connection that started with the client [c0] and the
    target [t0], as to the bytes that have passed; and the same for the
    downlink goroutine. *)
Definition up_flow (c0 t0 : Conn) (r : relay) : Prop :=
  match up r with
  | AtCopy =>
      closed (client r) = false
      /\ avail (inbound (client r)) = avail (inbound c0)
      /\ accepting (target r) /\ written (target r) = written t0
  | AtAdd _ | AtCloseWrite =>
      written (target r) = written t0 ++ avail (inbound c0)
  | AtDone =>
      written (target r) = written t0 ++ avail (inbound c0)
      /\ wclosed (target r) = true
  end.

Definition down_flow (c0 t0 : Conn) (r : relay) : Prop :=
  match down r with
  | AtCopy =>
      closed (target r) = false
      /\ avail (inbound (target r)) = avail (inbound t0)
      /\ accepting (client r) /\ written (client r) = written c0
  | AtAdd _ | AtCloseWrite =>
      written (client r) = written c0 ++ avail (inbound t0)
  | AtDone =>
      written (client r) = written c0 ++ avail (inbound t0)
      /\ wclosed (client r) = true
  end.

(** *** The search for the core binary *)

(** [os.FileInfo] as [isExecutableFile] reads it. *)
Record FileInfo := {
  IsDir : bool;
  Mode : Z
}.

(** [FileMode.Perm]: the permission bits, [m & 0o777]. *)
Definition Perm (m : Z) : Z := Z.land m 511.

(** What the system answers to [resolveCorePath]: [os.Executable],
    [os.Stat] and [exec.LookPath]. *)
Record Host := {
  Executable : result ioerr gostring;
  Stat : gostring -> result ioerr FileInfo;
  LookPath : gostring -> result ioerr gostring
}.

(** [isExecutableFile(path)]: a file that is no directory and has one of
    the execute bits [0o111]. *)
Definition isExecutableFile (h : Host) (path : gostring) : bool :=
  match Stat h path with
  | Err _ => false
  | Ok info =>
      if IsDir info then false
      else negb (Z.land (Perm (Mode info)) 73 =? 0)
  end.

Inductive ResolveError := ErrCoreNotFound.

Section Resolve.

(** [filepath.Dir] and [filepath.Join] are taken as they are. *)
Variable filepath_Dir : gostring -> gostring.
Variable filepath_Join : list gostring -> gostring.

(** The places next to the program, in the order they are tried. *)
Definition candidates (exeDir : gostring) : list gostring :=
  [filepath_Join [exeDir; str "xray"];
   filepath_Join [exeDir; str "v2ray"];
   filepath_Join [exeDir; str "core"; str "xray"];
   filepath_Join [exeDir; str "core"; str "v2ray"]].

(** The places searched next to the program, none when the program cannot
    tell where it is. *)
Definition nearby (h : Host) : list gostring :=
  match Executable h with
  | Ok exePath => candidates (filepath_Dir exePath)
  | Err _ => []
  end.

(** [for _, c := range candidates { if isExecutableFile(c) { return c } }]. *)
Fixpoint firstExecutable (h : Host) (cs : list gostring) : option gostring :=
  match cs with
  | [] => None
  | c :: r => if isExecutableFile h c then Some c else firstExecutable h r
  end.

(** [for _, name := range names { if p, err := exec.LookPath(name);
    err == nil { return p } }]. *)
Fixpoint firstInPath (h : Host) (names : list gostring) : option gostring :=
  match names with
  | [] => None
  | name :: r =>
      match LookPath h name with
      | Ok p => Some p
      | Err _ => firstInPath h r
      end
  end.

(** [resolveCorePath(flagPath)]. *)
Definition resolveCorePath (h : Host) (flagPath : gostring)
  : result ResolveError gostring :=
  match Strings.TrimSpace flagPath with
  | _ :: _ => Ok flagPath
  | [] =>
      let found :=
        match Executable h with
        | Ok exePath => firstExecutable h (candidates (filepath_Dir exePath))
        | Err _ => None
        end in
      match found with
      | Some c => Ok c
      | None =>
          match firstInPath h [str "xray"; str "v2ray"] with
          | Some p => Ok p
          | None => Err ErrCoreNotFound
          end
      end
  end.

End Resolve.

(** *** The set-up of the proxy command *)

(** [randomPort()]: [20000 + r.Intn(20000)], for the value [draw] that
    [Intn] returns. *)
Definition randomPort (draw : Z) : Z := 20000 + draw.

(** The flags of [runProxy] after [fs.Parse]. *)
Record ProxyFlags := {
  uri : gostring;
  corePath : gostring;
  inbound_ : gostring;
  localPort : Z;
  printRequests : bool;
  noTraffic : bool;
  timeout_ : Z
}.

Inductive ProxyError (E : Type) :=
| ErrUriRequired
| ErrInboundFlag
| ErrLocalPortRange
| ErrResolve (e : ResolveError)
| ErrFromURI (e : E)
| ErrOutbound (e : E).
Arguments ErrUriRequired {E}.
Arguments ErrInboundFlag {E}.
Arguments ErrLocalPortRange {E}.
Arguments ErrResolve {E} e.
Arguments ErrFromURI {E} e.
Arguments ErrOutbound {E} e.

(** What [runProxy] has settled when it calls [Start]: the runner, the
    outbound, the port the program listens on, and whether the relay with
    the traffic meter stands between that port and the core. *)
Record ProxyPlan := {
  runner : Core.Runner;
  outbound : Core.any;
  listenPort : Z;
  showTraffic : bool
}.

Section RunProxy.

(** The Unicode part of [strings.ToLower]; the provider, with its errors;
    and the result of [resolveCorePath] on the flag. *)
Variable MapToLower : gostring -> gostring.
Variables (P E : Type).
Variable FromURI : gostring -> result E P.
Variable Outbound : P -> result E Core.any.
Variable resolve : gostring -> result ResolveError gostring.

(** [runProxy(args, defaultInbound)], lines 264-316: from the parsed flags
    to the runner that is started.  [draw1] and [draw2] are the values of
    [Intn] in the two calls of [randomPort]. *)
Definition runProxy_plan (f : ProxyFlags) (draw1 draw2 : Z)
  : result (ProxyError E) ProxyPlan :=
  match uri f with
  | [] => Err ErrUriRequired
  | _ :: _ =>
      let inbound := Strings.ToLower MapToLower (Strings.TrimSpace (inbound_ f)) in
      if negb (Core.gostring_eqb inbound (str "socks"))
         && negb (Core.gostring_eqb inbound (str "http"))
      then Err ErrInboundFlag
      else
        let localPort :=
          if localPort f =? 0
          then (if Core.gostring_eqb inbound (str "http") then 8080 else 1080)
          else localPort f in
        if (localPort <=? 0) || (localPort >? 65535) then Err ErrLocalPortRange
        else
          match resolve (corePath f) with
          | Err e => Err (ErrResolve e)
          | Ok resolvedCore =>
              match FromURI (uri f) with
              | Err e => Err (ErrFromURI e)
              | Ok prov =>
                  let showTraffic := negb (noTraffic f) in
                  match Outbound prov with
                  | Err e => Err (ErrOutbound e)
                  | Ok outbound =>
                      let corePort :=
                        if showTraffic then
                          let corePort := randomPort draw1 in
                          if corePort =? localPort then randomPort draw2
                          else corePort
                        else localPort in
                      let logLevel :=
                        if printRequests f then str "info" else str "warning" in
                      Ok {| runner :=
                              {| Core.CorePath := resolvedCore;
                                 Core.Port := corePort;
                                 Core.Timeout := timeout_ f;
                                 Core.InboundProtocol := inbound;
                                 Core.LogLevel := logLevel |};
                            outbound := outbound;
                            listenPort := localPort;
                            showTraffic := showTraffic |}
                  end
              end
          end
  end.

End RunProxy.

End Main.

(* ====================================================================== *)
(** ** package provider (src/unnamed/part_001): the helpers of the
       outbound builders *)
(* ====================================================================== *)

Module Provider.

(** [firstNonEmpty(vs...)]. *)
Fixpoint firstNonEmpty (vs : list gostring) : gostring :=
  match vs with
  | [] => []
  | v :: r =>
      match v with
      | [] => firstNonEmpty r
      | _ :: _ => v
      end
  end.

(** [p != ""]. *)
Definition nonEmpty (p : gostring) : bool :=
  match p with
  | [] => false
  | _ :: _ => true
  end.

(** The loop of [splitCSV]: trim each part, keep those that are not
    empty. *)
Fixpoint splitCSV_loop (parts out : list gostring) : list gostring :=
  match parts with
  | [] => out
  | p :: r =>
      let p := Strings.TrimSpace p in
      match p with
      | [] => splitCSV_loop r out
      | _ :: _ => splitCSV_loop r (out ++ [p])
      end
  end.

(** [splitCSV(v)]; [None] is the nil slice. *)
Definition splitCSV (v : gostring) : option (list gostring) :=
  match Strings.TrimSpace v with
  | [] => None
  | _ :: _ =>
      let parts := Strings.Split v ","%byte in
      match splitCSV_loop parts [] with
      | [] => None
      | out => Some out
      end
  end.

End Provider.

(* ====================================================================== *)
(** ** package installer (src/unnamed/part_002): the choice of the release
       asset and of the binary inside the archive *)
(* ====================================================================== *)

Module Installer.
Import IO Core.

Record asset := {
  Name : gostring;
  URL : gostring
}.

(** [tokensForOS] and [tokensForArch]. *)
Definition tokensForOS (goos : gostring) : list gostring :=
  if gostring_eqb goos (str "linux") then [str "linux"]
  else if gostring_eqb goos (str "darwin")
  then [str "darwin"; str "macos"; str "osx"]
  else if gostring_eqb goos (str "windows") then [str "windows"; str "win"]
  else [goos].

Definition tokensForArch (goarch : gostring) : list gostring :=
  if gostring_eqb goarch (str "amd64")
  then [str "amd64"; str "x86_64"; str "64"]
  else if gostring_eqb goarch (str "386") then [str "386"; str "i386"; str "32"]
  else if gostring_eqb goarch (str "arm64") then [str "arm64"; str "aarch64"]
  else if gostring_eqb goarch (str "arm")
  then [str "armv7"; str "armv6"; str "arm"]
  else [goarch].

(** [isArchive]. *)
Definition isArchive (name : gostring) : bool :=
  Strings.HasSuffix name (str ".zip")
  || Strings.HasSuffix name (str ".tar.gz")
  || Strings.HasSuffix name (str ".tgz").

(** [containsAny]. *)
Fixpoint containsAny (v : gostring) (tokens : list gostring) : bool :=
  match tokens with
  | [] => false
  | t :: r => if Contains v t then true else containsAny v r
  end.

(** The error of [chooseAsset], with the values its message shows. *)
Inductive ChooseError :=
| ErrNoMatchingAsset (goos goarch names : gostring).

(** What can go wrong in [extractFromZip]. *)
Inductive ExtractError :=
| ErrExtractMember (e : ioerr)
| ErrNoCoreBinary.

(** A member of a zip archive: its name, whether it is a directory, and
    what extracting it will yield ([extractZipFile], [None] for success). *)
Record member := {
  mName : gostring;
  mIsDir : bool;
  mExtract : option ioerr
}.

Section WithLibrary.

(** The Unicode part of [strings.ToLower] and [filepath.Join] are taken as
    they are. *)
Variable MapToLower : gostring -> gostring.
Variable filepath_Join : gostring -> gostring -> gostring.

Definition ToLower : gostring -> gostring := Strings.ToLower MapToLower.

(** The first loop of [chooseAsset]: the assets whose lower-case name is
    an archive and names the system and the architecture. *)
Definition isCandidate (osTokens archTokens : list gostring) (a : asset)
  : bool :=
  let name := ToLower (Name a) in
  isArchive name && containsAny name osTokens && containsAny name archTokens.

(** An asset whose lower-case name ends in ".zip". *)
Definition isZip (a : asset) : bool :=
  Strings.HasSuffix (ToLower (Name a)) (str ".zip").

(** The second loop: the first candidate that is a zip archive. *)
Fixpoint firstZip (candidates : list asset) : option asset :=
  match candidates with
  | [] => None
  | c :: r => if isZip c then Some c else firstZip r
  end.

(** [chooseAsset(assets, goos, goarch)]. *)
Definition chooseAsset (assets : list asset) (goos goarch : gostring)
  : result ChooseError asset :=
  let osTokens := tokensForOS goos in
  let archTokens := tokensForArch goarch in
  let candidates := filter (isCandidate osTokens archTokens) assets in
  match candidates with
  | [] =>
      Err (ErrNoMatchingAsset goos goarch
             (Strings.Join (map Name assets) (str ", ")))
  | c0 :: _ =>
      match firstZip candidates with
      | Some c => Ok c
      | None => Ok c0
      end
  end.

(** [expectedBinaryName(repo)]. *)
Definition expectedBinaryName (repo : gostring) : gostring :=
  let v := ToLower repo in
  if Contains v (str "v2ray") then str "v2ray" else str "xray".

(** [isLikelyCoreBinary(base, preferredName)]. *)
Definition isLikelyCoreBinary (base preferredName : gostring) : bool :=
  let base := Strings.TrimSuffix (ToLower base) (str ".exe") in
  let preferred := ToLower preferredName in
  if gostring_eqb base preferred then true
  else if gostring_eqb base (str "xray") || gostring_eqb base (str "v2ray")
  then true
  else false.

(** [isExecutableName(base)]. *)
Definition isExecutableName (base : gostring) : bool :=
  let base := ToLower base in
  if Strings.HasSuffix base (str ".dat") || Strings.HasSuffix base (str ".json")
     || Strings.HasSuffix base (str ".txt")
  then false
  else if Contains base (str "geoip") || Contains base (str "geosite")
  then false
  else true.

(** The loop of [extractFromZip] over the members of the archive:
    [fallback] is the destination of the first member with the name of an
    executable, [""] when there was none yet; [written] are the
    destinations extracted so far. *)
Fixpoint extractFromZip_loop (files : list member)
    (workDir preferredName fallback : gostring) (written : list gostring)
  : result ExtractError gostring * list gostring :=
  match files with
  | [] =>
      match fallback with
      | [] => (Err ErrNoCoreBinary, written)
      | _ :: _ => (Ok fallback, written)
      end
  | f :: rest =>
      if mIsDir f
      then extractFromZip_loop rest workDir preferredName fallback written
      else
        let base := ToLower (Base (mName f)) in
        if gostring_eqb base []
        then extractFromZip_loop rest workDir preferredName fallback written
        else if isLikelyCoreBinary base preferredName then
          let dst := filepath_Join workDir (Base (mName f)) in
          match mExtract f with
          | Some e => (Err (ErrExtractMember e), written)
          | None => (Ok dst, written ++ [dst])
          end
        else if gostring_eqb fallback [] && isExecutableName base then
          let dst := filepath_Join workDir (Base (mName f)) in
          match mExtract f with
          | Some e => (Err (ErrExtractMember e), written)
          | None =>
              extractFromZip_loop rest workDir preferredName dst
                (written ++ [dst])
          end
        else extractFromZip_loop rest workDir preferredName fallback written
  end.

(** [extractFromZip(path, workDir, preferredName)] once the archive is
    open, on its members in order. *)
Definition extractFromZip (files : list member)
    (workDir preferredName : gostring)
  : result ExtractError gostring * list gostring :=
  extractFromZip_loop files workDir preferredName [] [].

(** The parts of one turn of the loop: the lower-case base name of a
    member and its destination; the test that makes a member the result,
    and the test that makes it the fallback, both on a member that is no
    directory and has a name; and the extraction of the member that is the
    result. *)
Definition memberBase (f : member) : gostring := ToLower (Base (mName f)).

Definition memberDst (workDir : gostring) (f : member) : gostring :=
  filepath_Join workDir (Base (mName f)).

Definition coreMember (preferredName : gostring) (f : member) : bool :=
  negb (mIsDir f) && negb (gostring_eqb (memberBase f) [])
  && isLikelyCoreBinary (memberBase f) preferredName.

Definition fallbackMember (f : member) : bool :=
  negb (mIsDir f) && negb (gostring_eqb (memberBase f) [])
  && isExecutableName (memberBase f).

Definition extractMember (workDir : gostring) (f : member)
    (written : list gostring)
  : result ExtractError gostring * list gostring :=
  match mExtract f with
  | Some e => (Err (ErrExtractMember e), written)
  | None => (Ok (memberDst workDir f), written ++ [memberDst workDir f])
  end.

End WithLibrary.

End Installer.

(* ====================================================================== *)
(** ** The wire format of the specification *)
(* ====================================================================== *)

Module Spec.

(** The address part of a CONNECT request (section 4.1, step 3) as the
    code produces it, by the three cases of its switch.  A host that
    [net.ParseIP] accepts and whose address has a 4-byte form gives type 1
    and these four bytes: that is a dotted-decimal IPv4 literal, and also an
    IPv6 literal of an IPv4-mapped address (::ffff:1.2.3.4).  A host that
    [net.ParseIP] accepts and whose address has no 4-byte form gives type 4
    and its sixteen bytes.  Any other host is a domain name and gives type
    3, one length byte and the bytes of the name, the name being the host
    without the white space around it, of 1 to 255 bytes. *)
Inductive addr_encoding : gostring -> list byte -> Prop :=
| enc_ipv4 (host : gostring) (ip v4 : Net.IP) :
    Net.ParseIP host = Some ip -> Net.To4 ip = Some v4 ->
    addr_encoding host (x01 :: v4)
| enc_ipv6 (host : gostring) (ip v6 : Net.IP) :
    Net.ParseIP host = Some ip -> Net.To4 ip = None -> Net.To16 ip = Some v6 ->
    addr_encoding host (x04 :: v6)
| enc_domain (host : gostring) :
    Net.ParseIP host = None ->
    1 <= len (Strings.TrimSpace host) <= 255 ->
    addr_encoding host
      (x03 :: byte_of_Z (len (Strings.TrimSpace host)) :: Strings.TrimSpace host).

(** The same with the domain clause read to the letter: the bytes of the
    host as they stand in the target. *)
Inductive addr_encoding_raw : gostring -> list byte -> Prop :=
| raw_ipv4 (host : gostring) (v4 : list byte) :
    Net.parseIPv4 host = Some v4 ->
    addr_encoding_raw host (x01 :: v4)
| raw_domain (host : gostring) :
    Net.ParseIP host = None ->
    1 <= len host <= 255 ->
    addr_encoding_raw host (x03 :: byte_of_Z (len host) :: host).

(** The CONNECT request for an address part and a port: version 5,
    command 1, reserved 0, the address, the port high byte first. *)
Definition connect_request (addr : list byte) (port : Z) : list byte :=
  [x05; x01; x00] ++ addr ++ [byte_of_Z (port / 256); byte_of_Z (port mod 256)].

(** A target the client accepts: host and port split, the port is an
    integer in 1..65535, the host has the address part [addr]. *)
Definition valid_target (targetAddr : gostring) (addr : list byte) (port : Z)
  : Prop :=
  exists host portStr,
    Net.SplitHostPort targetAddr = Ok (host, portStr)
    /\ Strconv.Atoi portStr = Ok port
    /\ 1 <= port <= 65535
    /\ addr_encoding host addr.

(** The proxy accepts the greeting: the dial succeeds, the greeting is
    written, and the reply starts with 05 00; [rest] is what the proxy sends
    after that. *)
Definition greeted (dial : TCP.Dialer) (socksAddr : gostring)
    (rest : list byte) (failure : IO.ioerr) : Prop :=
  exists s ws,
    dial socksAddr = Ok (TCP.fresh s ws)
    /\ hd None ws = None
    /\ IO.avail s = x05 :: x00 :: rest
    /\ IO.ending s = failure.

(** The proxy accepts the greeting and takes the CONNECT request. *)
Definition requested (dial : TCP.Dialer) (socksAddr : gostring)
    (rest : list byte) (failure : IO.ioerr) : Prop :=
  exists s ws,
    dial socksAddr = Ok (TCP.fresh s ws)
    /\ hd None ws = None /\ hd None (tl ws) = None
    /\ IO.avail s = x05 :: x00 :: rest
    /\ IO.ending s = failure.

(** The call fails in the address stage: nothing but the greeting was
    sent, and the connection is closed. *)
Definition address_failure (o : Proxy.Outcome) (e : Proxy.DialError) : Prop :=
  Proxy.res o = Err e /\ Proxy.stage e = Proxy.StageAddress
  /\ Proxy.sent o = [[x05; x01; x00]] /\ Proxy.conn_closed o = true.

(** Claim C1 with the domain clause read to the letter. *)
Definition connect_request_raw_claim : Prop :=
  forall dial socksAddr targetAddr timeout rest failure host portStr port addr,
    greeted dial socksAddr rest failure ->
    Net.SplitHostPort targetAddr = Ok (host, portStr) ->
    Strconv.Atoi portStr = Ok port -> 1 <= port <= 65535 ->
    addr_encoding_raw host addr ->
    Proxy.sent (Proxy.DialSocks5 dial socksAddr targetAddr timeout)
      = [[x05; x01; x00]; connect_request addr port].

(** Claim C4 as it stands: whatever the version byte of the reply. *)
Definition status_any_version_claim : Prop :=
  forall dial socksAddr targetAddr timeout addr port h0 h1 h2 h3 tail failure,
    requested dial socksAddr (h0 :: h1 :: h2 :: h3 :: tail) failure ->
    valid_target targetAddr addr port ->
    h1 <> x00 ->
    Proxy.res (Proxy.DialSocks5 dial socksAddr targetAddr timeout)
      = Err (Proxy.ErrConnectFailed h1).


(** Claim C8 as it stands: after a relayed connection has run to its end
    under any schedule, each counter has grown by exactly the number of
    bytes copied in its direction, and neither has decreased. *)
Definition relay_exact_claim : Prop :=
  forall (m : Main.trafficMeter) (c t : TCP.Conn) (sched : list Main.direction),
    Main.in_range m -> TCP.accepting c -> TCP.accepting t ->
    Main.finished (snd (Main.run sched m (Main.relayConn_start c t))) = true ->
    let m' := fst (Main.run sched m (Main.relayConn_start c t)) in
    Main.upTotal m' = Main.upTotal m + len (IO.avail (TCP.inbound c))
    /\ Main.downTotal m' = Main.downTotal m + len (IO.avail (TCP.inbound t))
    /\ Main.upTotal m <= Main.upTotal m'
    /\ Main.downTotal m <= Main.downTotal m'.

End Spec.

(* ====================================================================== *)
(** * Example environments *)
(* ====================================================================== *)

Module Examples.
Import IO TCP Core.

(** A proxy that accepts the greeting and answers the CONNECT request of
    the examples with success and the bound address 0.0.0.0:0. *)
Definition friendly : Dialer :=
  fun _ =>
    Ok (fresh [Data x05 [x00];
               Data x05 [x00; x00; x01; x00; x00; x00; x00; x00; x00]] []).

(** A proxy that refuses the CONNECT request with status 05. *)
Definition refusing : Dialer :=
  fun _ =>
    Ok (fresh [Data x05 [x00];
               Data x05 [x05; x00; x01; x00; x00; x00; x00; x00; x00]] []).

(** A serialiser to run [Start] with: it succeeds on every document. *)
Definition marshal_any (v : any) : result ioerr (list byte) :=
  Ok (str "{}").

End Examples.

(* ====================================================================== *)
(** * Lemmas *)
(* ====================================================================== *)

(** ** Lists *)

Lemma skipn_nil_length {A : Type} (n : nat) (l : list A) :
  skipn n l = [] -> (List.length l <= n)%nat.
Proof.
  intros E. apply (f_equal (@List.length A)) in E.
  rewrite length_skipn in E. simpl in E. lia.
Qed.

Lemma skipn_cons_length {A : Type} (n : nat) (l : list A) (x : A) (r : list A) :
  skipn n l = x :: r -> (n < List.length l)%nat.
Proof.
  intros E. apply (f_equal (@List.length A)) in E.
  rewrite length_skipn in E. simpl in E. lia.
Qed.

Lemma firstn_app_short {A : Type} (n : nat) (l r : list A) :
  (n <= List.length l)%nat -> firstn n (l ++ r) = firstn n l.
Proof.
  intros H. rewrite firstn_app. replace (n - List.length l)%nat with O by lia.
  simpl. apply app_nil_r.
Qed.

Lemma skipn_app_short {A : Type} (n : nat) (l r : list A) :
  (n <= List.length l)%nat -> skipn n (l ++ r) = skipn n l ++ r.
Proof.
  intros H. rewrite skipn_app. replace (n - List.length l)%nat with O by lia.
  reflexivity.
Qed.

Lemma firstn_split_at {A : Type} (k n : nat) (l : list A) :
  (k <= n)%nat ->
  firstn n l = firstn k l ++ firstn (n - k) (skipn k l).
Proof.
  intros H. rewrite <- (firstn_skipn k l) at 1.
  destruct (Nat.le_gt_cases k (List.length l)) as [Hk|Hk].
  - rewrite firstn_app, length_firstn.
    replace (Nat.min k (List.length l)) with k by lia.
    rewrite firstn_firstn. replace (Nat.min n k) with k by lia. reflexivity.
  - rewrite (skipn_all2 l) by lia. rewrite firstn_nil, !app_nil_r.
    rewrite !firstn_all2 by (try rewrite length_firstn; lia). reflexivity.
Qed.

Lemma skipn_firstn_rest {A : Type} (m k : nat) (l : list A) :
  (m <= k)%nat -> skipn m (firstn k l) ++ skipn k l = skipn m l.
Proof.
  intros H. rewrite <- (firstn_skipn k l) at 3. rewrite skipn_app.
  f_equal. rewrite length_firstn.
  destruct (Nat.le_gt_cases k (List.length l)).
  - replace (m - Nat.min k (List.length l))%nat with O by lia. reflexivity.
  - rewrite (skipn_all2 l) by lia. now rewrite skipn_nil.
Qed.

(** ** The laws of stream-like readers *)

Module Laws.
Import IO TCP.

Lemma stream_Read_some (s : stream) (n : nat) :
  (0 < n)%nat -> avail s <> [] ->
  exists k s',
    stream_Read s n = ((firstn k (avail s), None), s')
    /\ (0 < k <= n)%nat /\ (k <= List.length (avail s))%nat
    /\ avail s' = skipn k (avail s) /\ ending s' = ending s
    /\ payload s' = skipn k (payload s)
    /\ (stream_bound s' + k <= stream_bound s)%nat.
Proof.
  intros Hn Ha. destruct s as [|[b bs|e] r]; cbn [avail] in Ha; try congruence.
  cbn [stream_Read avail ending payload stream_bound].
  destruct (skipn n (b :: bs)) as [|b' bs'] eqn:E.
  - apply skipn_nil_length in E.
    exists (List.length (b :: bs)), r.
    rewrite !firstn_app_short, !skipn_app_short, firstn_all, skipn_all by lia.
    rewrite length_app. cbn [List.length] in *. repeat split; auto; lia.
  - pose proof (skipn_cons_length _ _ _ _ E) as Hlt.
    exists n, (Data b' bs' :: r).
    rewrite !firstn_app_short, !skipn_app_short, E by lia.
    rewrite length_app. cbn [avail ending payload stream_bound].
    repeat split; auto; try lia.
    apply (f_equal (@List.length _)) in E. rewrite length_skipn in E.
    cbn [List.length] in *. lia.
Qed.

Lemma stream_Read_none (s : stream) (n : nat) :
  avail s = [] ->
  exists s', stream_Read s n = (([], Some (ending s)), s').
Proof.
  destruct s as [|[b bs|e] r]; simpl; intros; try discriminate; eauto.
Qed.

#[global] Instance stream_Laws : StreamLaws stream.
Proof.
  split; cbn; auto.
  - intros r n _ Hn Hp.
    destruct (stream_Read_some r n Hn Hp) as (k & s' & ? & ? & ? & ? & ? & ? & ?).
    exists k, s'. repeat split; auto; lia.
  - intros r n _ _ Hp. destruct (stream_Read_none r n Hp) as (s' & ->). eauto.
  - intros r. destruct r as [|[]]; cbn; lia.
Qed.

Lemma same_but_inbound_refl (c : Conn) : same_but_inbound c c.
Proof. unfold same_but_inbound. auto. Qed.

Lemma same_but_inbound_trans (a b c : Conn) :
  same_but_inbound a b -> same_but_inbound b c -> same_but_inbound a c.
Proof. unfold same_but_inbound. intuition congruence. Qed.

#[global] Instance Conn_Laws : StreamLaws Conn.
Proof.
  split.
  - apply same_but_inbound_refl.
  - apply same_but_inbound_trans.
  - intros c n Hg Hn Hp. cbn in Hg, Hp |- *. unfold Conn_Read. rewrite Hg.
    destruct (stream_Read_some (inbound c) n Hn Hp)
      as (k & s' & -> & ? & ? & ? & ? & ? & ?).
    eexists k, _. split; [reflexivity|]. cbn.
    unfold same_but_inbound. cbn. repeat split; auto; lia.
  - intros c n Hg _ Hp. cbn in Hg, Hp |- *. unfold Conn_Read. rewrite Hg.
    destruct (stream_Read_none (inbound c) n Hp) as (s' & ->).
    eexists. split; [reflexivity|]. unfold same_but_inbound. cbn. auto.
  - intros c. cbn. destruct (inbound c) as [|[]]; cbn; lia.
Qed.

(** ** readFull *)

Section ReadFull.
Context {R : Type} `{StreamLaws R}.

Lemma readFull_loop_enough (turns : nat) :
  forall (r : R) (need : nat) (got : list byte),
    good r -> (need <= turns)%nat -> (need <= List.length (pending r))%nat ->
    exists r',
      Proxy.readFull_loop turns r need got
        = ((got ++ firstn need (pending r), None), r')
      /\ pending r' = skipn need (pending r) /\ failure r' = failure r
      /\ good r' /\ reads r r'.
Proof.
  induction turns as [|turns IH]; intros r need got Hg Ht Hl.
  - assert (need = O) by lia. subst. exists r. simpl.
    rewrite app_nil_r. repeat split; auto. apply reads_refl.
  - cbn [Proxy.readFull_loop]. destruct (Nat.eqb_spec need 0) as [->|Hne].
    + exists r. simpl. rewrite app_nil_r. repeat split; auto. apply reads_refl.
    + assert (Hp : pending r <> []).
      { intros E. rewrite E in Hl. simpl in Hl. lia. }
      destruct (Read_some r need Hg ltac:(lia) Hp)
        as (k & r1 & HR & Hk & Hkl & Hp1 & Hf1 & Hg1 & Hr1 & _).
      rewrite HR.
      assert (Hlen : List.length (firstn k (pending r)) = k)
        by (rewrite length_firstn; lia).
      rewrite Hlen.
      destruct (IH r1 (need - k)%nat (got ++ firstn k (pending r)) Hg1)
        as (r' & HL & Hp' & Hf' & Hg' & Hr').
      { lia. }
      { rewrite Hp1, length_skipn. lia. }
      exists r'. rewrite HL, Hp', Hp1, Hf', Hf1. repeat split; auto.
      * rewrite <- app_assoc, <- firstn_split_at by lia. reflexivity.
      * rewrite skipn_skipn. f_equal. lia.
      * eapply reads_trans; eauto.
Qed.

Lemma readFull_loop_short (turns : nat) :
  forall (r : R) (need : nat) (got : list byte),
    good r -> (need <= turns)%nat -> (List.length (pending r) < need)%nat ->
    exists r',
      Proxy.readFull_loop turns r need got
        = ((got ++ pending r, Some (failure r)), r')
      /\ reads r r'.
Proof.
  induction turns as [|turns IH]; intros r need got Hg Ht Hl; [lia|].
  cbn [Proxy.readFull_loop]. destruct (Nat.eqb_spec need 0) as [->|Hne]; [lia|].
  destruct (pending r) as [|p ps] eqn:Hp.
  - destruct (Read_none r need Hg ltac:(lia) Hp) as (r' & HR & Hr).
    rewrite HR. eauto.
  - destruct (Read_some r need Hg ltac:(lia) ltac:(congruence))
      as (k & r1 & HR & Hk & Hkl & Hp1 & Hf1 & Hg1 & Hr1 & _).
    rewrite HR, Hp in *.
    assert (Hlen : List.length (firstn k (p :: ps)) = k)
      by (rewrite length_firstn; lia).
    rewrite Hlen.
    destruct (IH r1 (need - k)%nat (got ++ firstn k (p :: ps)) Hg1)
      as (r' & HL & Hr').
    { lia. }
    { rewrite Hp1, length_skipn. lia. }
    exists r'. rewrite HL, Hp1, Hf1, <- app_assoc, firstn_skipn.
    split; auto. eapply reads_trans; eauto.
Qed.

(** With enough bytes pending, [readFull] returns the first [n] of them and
    leaves the rest. *)
Lemma readFull_stream (r : R) (n : nat) :
  good r -> (n <= List.length (pending r))%nat ->
  exists r',
    Proxy.readFull r n = ((firstn n (pending r), None), r')
    /\ pending r' = skipn n (pending r) /\ failure r' = failure r
    /\ good r' /\ reads r r'.
Proof. intros. apply (readFull_loop_enough n r n []); auto. Qed.

(** With too few, it returns them all and the failure of the stream. *)
Lemma readFull_short (r : R) (n : nat) :
  good r -> (List.length (pending r) < n)%nat ->
  exists r',
    Proxy.readFull r n = ((pending r, Some (failure r)), r') /\ reads r r'.
Proof. intros. apply (readFull_loop_short n r n []); auto. Qed.

End ReadFull.

(** ** bufio.Reader keeps to the view of the reader it wraps *)

Section BufioLaws.
Context {R : Type} `{StreamLaws R}.
Import Bufio.

Lemma firstn_min_length {A : Type} (n : nat) (l : list A) :
  firstn n l = firstn (Nat.min n (List.length l)) l.
Proof.
  destruct (Nat.le_gt_cases n (List.length l)).
  - now replace (Nat.min n (List.length l)) with n by lia.
  - replace (Nat.min n (List.length l)) with (List.length l) by lia.
    rewrite firstn_all. apply firstn_all2. lia.
Qed.

Lemma skipn_min_length {A : Type} (n : nat) (l : list A) :
  skipn n l = skipn (Nat.min n (List.length l)) l.
Proof.
  destruct (Nat.le_gt_cases n (List.length l)).
  - now replace (Nat.min n (List.length l)) with n by lia.
  - replace (Nat.min n (List.length l)) with (List.length l) by lia.
    rewrite skipn_all. apply skipn_all2. lia.
Qed.

Lemma Read__some (b : Reader_ R) (n : nat) :
  good b -> (0 < n)%nat -> pending b <> [] ->
  exists k b',
    Read_ b n = ((firstn k (pending b), None), b')
    /\ (0 < k <= n)%nat /\ (k <= List.length (pending b))%nat
    /\ pending b' = skipn k (pending b) /\ failure b' = failure b
    /\ good b' /\ reads b b' /\ (bound b' + k <= bound b)%nat.
Proof.
  intros [Hg He] Hn Hp. cbn in Hg, He, Hp |- *. unfold Read_.
  destruct (Nat.eqb_spec n 0) as [->|_]; [lia|].
  destruct (buf b) as [|x xs] eqn:Hb.
  - rewrite He. cbn [app] in Hp |- *.
    destruct (Nat.leb_spec defaultBufSize n) as [Hbig|Hsmall].
    + destruct (Read_some (rd b) n Hg Hn Hp)
        as (k & r' & -> & Hk & Hkl & Hp' & Hf' & Hg' & Hr' & Hb').
      exists k. eexists. split; [reflexivity|]. cbn. rewrite ?Hb. cbn.
      repeat split; auto; lia.
    + assert (Hpos : (0 < defaultBufSize)%nat) by (unfold defaultBufSize; lia).
      destruct (Read_some (rd b) defaultBufSize Hg Hpos Hp)
        as (k & r' & -> & Hk & Hkl & Hp' & Hf' & Hg' & Hr' & Hb').
      destruct (firstn k (pending (rd b))) as [|y ys] eqn:Hf.
      { apply (f_equal (@List.length _)) in Hf. rewrite length_firstn in Hf.
        cbn in Hf. lia. }
      rewrite <- Hf.
      assert (Hlen : List.length (firstn k (pending (rd b))) = k)
        by (rewrite length_firstn; lia).
      exists (Nat.min n k). eexists. split.
      { rewrite (firstn_min_length n), Hlen, firstn_firstn.
        replace (Nat.min (Nat.min n k) k) with (Nat.min n k) by lia.
        reflexivity. }
      cbn. rewrite Hp', (skipn_min_length n), Hlen.
      rewrite skipn_firstn_rest by lia.
      rewrite length_skipn, Hlen. repeat split; auto; lia.
  - exists (Nat.min n (List.length (x :: xs))). eexists. split.
    { rewrite firstn_app_short by lia. rewrite <- firstn_min_length.
      reflexivity. }
    cbn [pending failure good reads Reader_View rd buf err bound Reader_Reader].
    rewrite skipn_app_short by lia. rewrite <- skipn_min_length.
    rewrite length_app, length_skipn.
    cbn [List.length]. repeat split; auto; try lia. apply reads_refl.
Qed.

Lemma Read__none (b : Reader_ R) (n : nat) :
  good b -> (0 < n)%nat -> pending b = [] ->
  exists b', Read_ b n = (([], Some (failure b)), b') /\ reads b b'.
Proof.
  intros [Hg He] Hn Hp. cbn in Hg, He, Hp |- *. unfold Read_.
  destruct (Nat.eqb_spec n 0) as [->|_]; [lia|].
  apply app_eq_nil in Hp. destruct Hp as [Hb Hp]. rewrite Hb, He.
  destruct (Nat.leb_spec defaultBufSize n) as [Hbig|Hsmall].
  - destruct (Read_none (rd b) n Hg Hn Hp) as (r' & -> & Hr').
    eexists. split; [reflexivity|]. exact Hr'.
  - assert (Hpos : (0 < defaultBufSize)%nat) by (unfold defaultBufSize; lia).
    destruct (Read_none (rd b) defaultBufSize Hg Hpos Hp) as (r' & -> & Hr').
    eexists. split; [reflexivity|]. exact Hr'.
Qed.

#[global] Instance Reader_Laws : StreamLaws (Reader_ R).
Proof.
  split.
  - intros b. cbn. apply reads_refl.
  - intros a b c. cbn. apply reads_trans.
  - apply Read__some.
  - apply Read__none.
  - intros b. cbn. lia.
Qed.

Lemma fill_some (b : Reader_ R) :
  good b -> buf b = [] -> pending (rd b) <> [] ->
  exists b', fill b = b' /\ buf b' <> [] /\ pending b' = pending b
    /\ failure b' = failure b /\ good b' /\ reads b b'.
Proof.
  intros [Hg He] Hb Hp. unfold fill.
  change maxConsecutiveEmptyReads with (S 99). cbn [fill_loop].
  assert (Hpos : (0 < defaultBufSize)%nat) by (unfold defaultBufSize; lia).
  destruct (Read_some (rd b) defaultBufSize Hg Hpos Hp)
    as (k & r' & -> & Hk & Hkl & Hp' & Hf' & Hg' & Hr' & Hb').
  destruct (firstn k (pending (rd b))) as [|y ys] eqn:Hf.
  { apply (f_equal (@List.length _)) in Hf. rewrite length_firstn in Hf.
    cbn in Hf. lia. }
  eexists. split; [reflexivity|]. cbn. rewrite Hb, Hp'. cbn [app].
  change (y :: ys ++ skipn k (pending (rd b)))
    with ((y :: ys) ++ skipn k (pending (rd b))).
  rewrite <- Hf, firstn_skipn. repeat split; auto. rewrite Hf. discriminate.
Qed.

Lemma fill_none (b : Reader_ R) :
  good b -> buf b = [] -> pending (rd b) = [] ->
  exists b', fill b = b' /\ buf b' = [] /\ err b' = Some (failure b)
    /\ reads b b'.
Proof.
  intros [Hg He] Hb Hp. unfold fill.
  change maxConsecutiveEmptyReads with (S 99). cbn [fill_loop].
  assert (Hpos : (0 < defaultBufSize)%nat) by (unfold defaultBufSize; lia).
  destruct (Read_none (rd b) defaultBufSize Hg Hpos Hp) as (r' & -> & Hr').
  eexists. split; [reflexivity|]. cbn. auto.
Qed.

(** [ReadByte] returns the next pending byte, or the failure. *)
Lemma ReadByte_some (b : Reader_ R) (c : byte) (rest : list byte) :
  good b -> pending b = c :: rest ->
  exists b',
    ReadByte b = (Ok c, b') /\ pending b' = rest /\ failure b' = failure b
    /\ good b' /\ reads b b'.
Proof.
  intros Hg Hp. pose proof Hg as [Hg0 He]. unfold ReadByte. cbn [ReadByte_loop].
  cbn in Hp. destruct (buf b) as [|x xs] eqn:Hb.
  - rewrite He. cbn [app] in Hp.
    destruct (fill_some b Hg Hb) as (b' & -> & Hb' & Hp' & Hf' & [Hg' He'] & Hr').
    { rewrite Hp. discriminate. }
    cbn [ReadByte_loop]. cbn in Hp'. rewrite Hb, Hp in Hp'. cbn [app] in Hp'.
    destruct (buf b') as [|y ys] eqn:Hbb; [congruence|].
    cbn [app] in Hp'. injection Hp' as -> Hrest.
    eexists. split; [reflexivity|]. cbn. repeat split; auto.
  - cbn [app] in Hp. injection Hp as -> Hrest.
    eexists. split; [reflexivity|]. cbn. repeat split; auto. apply reads_refl.
Qed.

Lemma ReadByte_none (b : Reader_ R) :
  good b -> pending b = [] ->
  exists b', ReadByte b = (Err (failure b), b') /\ reads b b'.
Proof.
  intros Hg Hp. pose proof Hg as [Hg0 He]. unfold ReadByte. cbn [ReadByte_loop].
  cbn in Hp. apply app_eq_nil in Hp. destruct Hp as [Hb Hp].
  rewrite Hb, He.
  destruct (fill_none b Hg Hb Hp) as (b' & -> & Hb' & He' & Hr').
  cbn [ReadByte_loop]. rewrite Hb', He'.
  eexists. split; [reflexivity|]. cbn. exact Hr'.
Qed.

End BufioLaws.

End Laws.

(** ** The stages of DialSocks5 *)

Module ProxyFacts.
Import IO TCP Proxy Laws.

Lemma Write_ready (c : Conn) (p : gostring) :
  ready c ->
  Write c p =
    ((List.length p, None),
     {| inbound := inbound c; wscript := tl (wscript c);
        writes := writes c ++ [p]; closed := false; wclosed := false;
        deadline := deadline c |}).
Proof.
  intros (Hc & Hw & Hs). cbn. unfold Conn_Write. rewrite Hc, Hw. cbn.
  destruct (wscript c) as [|e r]; cbn in *; subst; reflexivity.
Qed.

Lemma writeOrAbort_ready (c : Conn) (p : gostring) (wrap : ioerr -> DialError) :
  ready c ->
  exists c',
    writeOrAbort p wrap c = (Ok tt, c')
    /\ inbound c' = inbound c /\ wscript c' = tl (wscript c)
    /\ writes c' = writes c ++ [p] /\ closed c' = false /\ wclosed c' = false
    /\ deadline c' = deadline c.
Proof.
  intros Hr. unfold writeOrAbort. rewrite (Write_ready c p Hr).
  eexists. split; [reflexivity|]. cbn. auto 10.
Qed.

(** The greeting on a connection whose peer answers with two bytes. *)
Lemma greeting_reply (c : Conn) (b0 b1 : byte) (rest : list byte) :
  ready c -> avail (inbound c) = b0 :: b1 :: rest ->
  exists c',
    greeting c =
      (if Byte.eqb b0 x05 && Byte.eqb b1 x00
       then (Ok tt, c') else (Err ErrNegotiation, Close c'))
    /\ avail (inbound c') = rest /\ ending (inbound c') = ending (inbound c)
    /\ wscript c' = tl (wscript c)
    /\ writes c' = writes c ++ [[x05; x01; x00]]
    /\ closed c' = false /\ wclosed c' = false /\ deadline c' = deadline c.
Proof.
  intros Hr Ha. unfold greeting, bind.
  destruct (writeOrAbort_ready c [x05; x01; x00] ErrGreetingWrite Hr)
    as (c1 & -> & Hi & Hs & Hw & Hc & Hwc & Hd).
  unfold readFullOrAbort.
  destruct (readFull_stream c1 2) as (c2 & -> & Hp & Hf & Hg & Hrd).
  { exact Hc. }
  { cbn. rewrite Hi, Ha. cbn. lia. }
  cbn in Hp, Hf, Hg. rewrite Hi in Hp, Hf. rewrite Ha in Hp. cbn in Hp.
  destruct Hrd as (Hs2 & Hw2 & Hc2 & Hwc2 & Hd2).
  exists c2. split.
  - cbn [pending Conn_View]. rewrite Hi, Ha. cbn [firstn at_ Z.to_nat nth].
    change (Pos.to_nat 1) with 1%nat. cbn [nth].
    destruct (Byte.eqb b0 x05), (Byte.eqb b1 x00); reflexivity.
  - repeat split; try congruence. now rewrite Hw2.
Qed.

(** Whatever the outcome of a write on an open connection, the payload is
    on record, and a failure has closed the connection. *)
Lemma writeOrAbort_open (c : Conn) (p : gostring) (wrap : ioerr -> DialError) :
  closed c = false -> wclosed c = false ->
  writeOrAbort p wrap c =
    (match hd None (wscript c) with
     | None => Ok tt
     | Some e => Err (wrap e)
     end,
     {| inbound := inbound c; wscript := tl (wscript c);
        writes := writes c ++ [p];
        closed := match hd None (wscript c) with
                  | None => false
                  | Some _ => true
                  end;
        wclosed := false; deadline := deadline c |}).
Proof.
  intros Hc Hw. unfold writeOrAbort. cbn. unfold Conn_Write. rewrite Hc, Hw. cbn.
  destruct (wscript c) as [|[e|] r]; reflexivity.
Qed.

(** The first stage of [DialSocks5] when the proxy accepts the greeting:
    the rest of the call runs on a connection that has the greeting on
    record and the bytes after the reply pending. *)
Lemma DialSocks5_greeted (dial : Dialer) (socksAddr targetAddr : gostring)
    (timeout : Z) (s : stream) (ws : list (option ioerr)) (rest : list byte) :
  dial socksAddr = Ok (fresh s ws) -> hd None ws = None ->
  avail s = x05 :: x00 :: rest ->
  exists c1,
    avail (inbound c1) = rest /\ ending (inbound c1) = ending s
    /\ wscript c1 = tl ws /\ writes c1 = [[x05; x01; x00]]
    /\ closed c1 = false /\ wclosed c1 = false
    /\ DialSocks5 dial socksAddr targetAddr timeout =
        match connect targetAddr c1 with
        | (Err e, c) => {| res := Err e; conn := Some c; leftover := [] |}
        | (Ok _, c) =>
            match reply (Bufio.NewReader c) with
            | (Err e, br) =>
                {| res := Err e; conn := Some (Bufio.rd br);
                   leftover := Bufio.buf br |}
            | (Ok _, br) =>
                {| res := Ok tt;
                   conn := Some (if timeout >? 0
                                 then SetDeadline (Bufio.rd br) None
                                 else Bufio.rd br);
                   leftover := Bufio.buf br |}
            end
        end.
Proof.
  intros Hd Hw Ha. unfold DialSocks5. rewrite Hd.
  set (c0 := if timeout >? 0 then SetDeadline (fresh s ws) (Some timeout)
             else fresh s ws).
  assert (H0 : ready c0 /\ inbound c0 = s /\ wscript c0 = ws /\ writes c0 = []).
  { unfold c0, ready. destruct (timeout >? 0); cbn; auto. }
  destruct H0 as (Hr & Hi & Hs & Hws).
  destruct (greeting_reply c0 x05 x00 rest Hr) as (c1 & Hg & P).
  { now rewrite Hi. }
  cbn in Hg. exists c1. unfold bind at 1. rewrite Hg.
  destruct P as (P1 & P2 & P3 & P4 & P5 & P6 & P7).
  rewrite Hi in P2. rewrite Hs in P3. rewrite Hws in P4. cbn in P4.
  repeat split; auto.
Qed.

(** The same when the proxy answers the greeting with anything else. *)
Lemma DialSocks5_rejected (dial : Dialer) (socksAddr targetAddr : gostring)
    (timeout : Z) (s : stream) (ws : list (option ioerr))
    (b0 b1 : byte) (rest : list byte) :
  dial socksAddr = Ok (fresh s ws) -> hd None ws = None ->
  avail s = b0 :: b1 :: rest ->
  Byte.eqb b0 x05 && Byte.eqb b1 x00 = false ->
  exists c,
    DialSocks5 dial socksAddr targetAddr timeout =
      {| res := Err ErrNegotiation; conn := Some c; leftover := [] |}
    /\ closed c = true /\ writes c = [[x05; x01; x00]].
Proof.
  intros Hd Hw Ha Hb. unfold DialSocks5. rewrite Hd.
  set (c0 := if timeout >? 0 then SetDeadline (fresh s ws) (Some timeout)
             else fresh s ws).
  assert (H0 : ready c0 /\ inbound c0 = s /\ wscript c0 = ws /\ writes c0 = []).
  { unfold c0, ready. destruct (timeout >? 0); cbn; auto. }
  destruct H0 as (Hr & Hi & Hs & Hws).
  destruct (greeting_reply c0 b0 b1 rest Hr) as (c1 & Hg & P).
  { now rewrite Hi. }
  rewrite Hb in Hg. unfold bind at 1. rewrite Hg.
  destruct P as (P1 & P2 & P3 & P4 & P5 & P6 & P7).
  eexists. split; [reflexivity|]. cbn. rewrite P4, Hws. auto.
Qed.

(** *** The request *)

Lemma isDigit_not (c x : byte) :
  Strconv.isDigit c = true -> Strconv.isDigit x = false -> Byte.eqb c x = false.
Proof.
  intros Hc Hx. destruct (Byte.eqb c x) eqn:E; [|reflexivity].
  apply Byte.byte_dec_bl in E. congruence.
Qed.

Lemma parseIPv4Fields_length (s : gostring) :
  forall prev val digLen fields out,
    Net.parseIPv4Fields s prev val digLen fields = Some out ->
    (List.length fields <= 3)%nat -> List.length out = 4%nat.
Proof.
  induction s as [|c r IH]; intros prev val digLen fields out E Hl;
    cbn [Net.parseIPv4Fields] in E.
  - unfold len in E. destruct (Z.ltb_spec (Z.of_nat (List.length fields)) 3);
      [discriminate|]. injection E as <-. rewrite length_app. cbn. lia.
  - destruct (Strconv.isDigit c).
    + destruct ((digLen =? 1) && (val =? 0)); [discriminate|].
      destruct (val * 10 + (u8 c - 48) >? 255); [discriminate|]. eauto.
    + destruct (Byte.eqb c "."%byte); [|discriminate].
      destruct prev as [p|]; [|discriminate].
      destruct r as [|c' r']; [discriminate|].
      destruct (Byte.eqb p "."%byte); [discriminate|].
      unfold len in E.
      destruct (Z.eqb_spec (Z.of_nat (List.length fields)) 3); [discriminate|].
      eapply IH; [exact E|]. rewrite length_app. cbn. lia.
Qed.

Lemma parseAddrScan_ipv4 (whole s : gostring) :
  forall prev val digLen fields out,
    Net.parseIPv4Fields s prev val digLen fields = Some out ->
    (List.length fields < 3)%nat ->
    Net.parseAddrScan whole s =
      match Net.parseIPv4 whole with
      | Some ip4 => Some (Net.v4InV6Prefix ++ ip4, [])
      | None => None
      end.
Proof.
  induction s as [|c r IH]; intros prev val digLen fields out E Hl;
    cbn [Net.parseIPv4Fields] in E.
  - unfold len in E. destruct (Z.ltb_spec (Z.of_nat (List.length fields)) 3);
      [discriminate|lia].
  - cbn [Net.parseAddrScan]. destruct (Strconv.isDigit c) eqn:Hd.
    + rewrite !(isDigit_not c _ Hd) by reflexivity.
      destruct ((digLen =? 1) && (val =? 0)); [discriminate|].
      destruct (val * 10 + (u8 c - 48) >? 255); [discriminate|]. eauto.
    + destruct (Byte.eqb c "."%byte); [reflexivity|discriminate].
Qed.

(** A dotted-decimal host is an IP address whose 4-byte form is the four
    fields. *)
Lemma ParseIP_ipv4 (host : gostring) (v4 : list byte) :
  Net.parseIPv4 host = Some v4 ->
  Net.ParseIP host = Some (Net.v4InV6Prefix ++ v4)
  /\ Net.To4 (Net.v4InV6Prefix ++ v4) = Some v4
  /\ List.length v4 = 4%nat.
Proof.
  intros E. pose proof E as E'. unfold Net.parseIPv4 in E'.
  pose proof (parseIPv4Fields_length _ _ _ _ _ _ E' ltac:(cbn; lia)) as Hl.
  repeat split; auto.
  - unfold Net.ParseIP.
    rewrite (parseAddrScan_ipv4 host host _ _ _ _ _ E' ltac:(cbn; lia)), E.
    reflexivity.
  - destruct v4 as [|a [|b [|c [|d [|]]]]]; try discriminate. reflexivity.
Qed.

Lemma parseIPv4_length (s : gostring) (v4 : list byte) :
  Net.parseIPv4 s = Some v4 -> List.length v4 = 4%nat.
Proof.
  intros E. unfold Net.parseIPv4 in E.
  exact (parseIPv4Fields_length _ _ _ _ _ _ E ltac:(cbn; lia)).
Qed.

(** The loop of the IPv6 parser never stores more than sixteen bytes. *)
Lemma parseIPv6Loop_length (turns : nat) :
  forall s ip e ip' e' rest,
    Net.parseIPv6Loop turns s ip e = Some (ip', e', rest) ->
    (List.length ip' <= Nat.max 16 (List.length ip + 2 * turns))%nat.
Proof.
  induction turns as [|turns IH]; intros s ip e ip' e' rest E;
    cbn [Net.parseIPv6Loop] in E.
  - injection E as <- _ _. lia.
  - destruct (Net.hexGroup s 0 0) as [[[acc off] r]|]; [|discriminate E].
    destruct (off =? 0); [discriminate E|].
    destruct r as [|c r].
    { injection E as <- _ _. rewrite length_app. cbn [List.length]. lia. }
    destruct (Byte.eqb c "."%byte).
    + destruct ((e <? 0) && negb (len ip =? 12)); [discriminate E|].
      destruct (Z.gtb_spec (len ip + 4) 16) as [|Hl]; [discriminate E|].
      destruct (Net.parseIPv4 s) as [ip4|] eqn:E4; [|discriminate E].
      injection E as <- _ _. rewrite length_app, (parseIPv4_length _ _ E4).
      unfold len in Hl. lia.
    + destruct (negb (Byte.eqb c ":"%byte)); [discriminate E|].
      destruct r as [|c2 r2]; [discriminate E|].
      destruct (Byte.eqb c2 ":"%byte).
      * destruct (0 <=? e); [discriminate E|].
        destruct r2 as [|c3 r3].
        -- injection E as <- _ _. rewrite length_app. cbn [List.length]. lia.
        -- apply IH in E. rewrite length_app in E. cbn [List.length] in E. lia.
      * apply IH in E. rewrite length_app in E. cbn [List.length] in E. lia.
Qed.

Lemma pad_length (ip : list byte) (el : Z) :
  0 <= el -> len ip < 16 ->
  List.length (slice_to ip el ++ repeat x00 (Z.to_nat (16 - len ip))
                 ++ slice_from ip el) = 16%nat.
Proof.
  intros He Hl. unfold slice_to, slice_from, len in *.
  rewrite !length_app, length_firstn, length_skipn, repeat_length. lia.
Qed.

Lemma parseIPv6_length (s : gostring) (ip zone : list byte) :
  Net.parseIPv6 s = Some (ip, zone) -> List.length ip = 16%nat.
Proof.
  unfold Net.parseIPv6. cbv zeta.
  match goal with
  | |- match ?x with Some _ => _ | None => _ end = _ -> _ =>
      destruct x as [[s1 z]|]
  end; [|discriminate].
  assert (Hloop : forall s0 e0,
             match Net.parseIPv6Loop 8 s0 [] e0 with
             | None => None
             | Some (ip, ellipsis, rest) =>
                 match rest with
                 | _ :: _ => None
                 | [] =>
                     if len ip <? 16 then
                       if ellipsis <? 0 then None
                       else
                         Some (slice_to ip ellipsis
                                 ++ repeat x00 (Z.to_nat (16 - len ip))
                                 ++ slice_from ip ellipsis, z)
                     else if 0 <=? ellipsis then None
                     else Some (ip, z)
                 end
             end = Some (ip, zone) -> List.length ip = 16%nat).
  { intros s0 e0.
    destruct (Net.parseIPv6Loop 8 s0 [] e0) as [[[ip0 el] rest]|] eqn:E;
      [|discriminate].
    apply parseIPv6Loop_length in E. cbn in E.
    destruct rest; [|discriminate].
    destruct (Z.ltb_spec (len ip0) 16) as [Hl|Hl].
    - destruct (Z.ltb_spec el 0); [discriminate|].
      intros H1. injection H1 as <- _. now apply pad_length.
    - destruct (0 <=? el); [discriminate|].
      intros H1. injection H1 as <- _. unfold len in Hl. lia. }
  destruct s1 as [|c0 [|c1 r]]; [apply Hloop|apply Hloop|].
  destruct (Byte.eqb c0 ":"%byte && Byte.eqb c1 ":"%byte); [|apply Hloop].
  destruct r; [|apply Hloop].
  intros H. injection H as <- _. reflexivity.
Qed.

Lemma mapped_length (v4 : list byte) :
  List.length v4 = 4%nat -> List.length (Net.v4InV6Prefix ++ v4) = 16%nat.
Proof. intros H. rewrite length_app, H. reflexivity. Qed.

Lemma parseAddrScan_length (whole s : gostring) (ip zone : list byte) :
  Net.parseAddrScan whole s = Some (ip, zone) -> List.length ip = 16%nat.
Proof.
  induction s as [|c r IH]; cbn [Net.parseAddrScan]; [discriminate|].
  destruct (Byte.eqb c "."%byte).
  { destruct (Net.parseIPv4 whole) as [ip4|] eqn:E4; [|discriminate].
    intros H. injection H as <- _.
    exact (mapped_length _ (parseIPv4_length _ _ E4)). }
  destruct (Byte.eqb c ":"%byte); [apply parseIPv6_length|].
  destruct (Byte.eqb c "%"%byte); [discriminate|exact IH].
Qed.

(** [net.ParseIP] returns sixteen bytes. *)
Lemma ParseIP_length (host : gostring) (ip : Net.IP) :
  Net.ParseIP host = Some ip -> List.length ip = 16%nat.
Proof.
  unfold Net.ParseIP.
  destruct (Net.parseAddrScan host host) as [[ip0 [|z zs]]|] eqn:E;
    [|discriminate|discriminate].
  intros H. injection H as <-. exact (parseAddrScan_length _ _ _ _ E).
Qed.

(** Of sixteen bytes, [To4] takes the last four when the first twelve are
    the prefix of the IPv4-mapped addresses, and [To16] takes them all. *)
Lemma To4_To16_sixteen (ip : Net.IP) :
  List.length ip = 16%nat ->
  Net.To16 ip = Some ip
  /\ match Net.To4 ip with
     | Some v4 => ip = Net.v4InV6Prefix ++ v4 /\ List.length v4 = 4%nat
     | None => firstn 12 ip <> Net.v4InV6Prefix
     end.
Proof.
  intros Hl.
  destruct ip as [|a0 [|a1 [|a2 [|a3 [|a4 [|a5 [|a6 [|a7 [|a8 [|a9 [|a10 [|a11
    [|a12 [|a13 [|a14 [|a15 [|]]]]]]]]]]]]]]]]]; try discriminate Hl.
  split; [reflexivity|].
  change (Net.To4 [a0; a1; a2; a3; a4; a5; a6; a7; a8; a9; a10; a11; a12; a13;
                   a14; a15])
    with (if forallb (Byte.eqb x00) [a0; a1; a2; a3; a4; a5; a6; a7; a8; a9]
             && Byte.eqb a10 xff && Byte.eqb a11 xff
          then Some [a12; a13; a14; a15] else None).
  destruct (forallb (Byte.eqb x00) [a0; a1; a2; a3; a4; a5; a6; a7; a8; a9]
            && Byte.eqb a10 xff && Byte.eqb a11 xff) eqn:E.
  - apply andb_true_iff in E. destruct E as [E E11].
    apply andb_true_iff in E. destruct E as [E E10].
    apply Byte.byte_dec_bl in E10, E11. subst a10 a11.
    cbn [forallb] in E.
    repeat (apply andb_true_iff in E; destruct E as [?E E]).
    repeat match goal with
           | H : Byte.eqb x00 _ = true |- _ =>
               apply Byte.byte_dec_bl in H; subst
           end.
    split; reflexivity.
  - intros H. injection H; intros; subst. discriminate E.
Qed.

Lemma address_ipv4 (host : gostring) (v4 : list byte) (c : Conn) :
  Net.parseIPv4 host = Some v4 -> address host c = (Ok (x01 :: v4), c).
Proof.
  intros E. destruct (ParseIP_ipv4 host v4 E) as (H1 & H2 & _).
  unfold address. rewrite H1, H2. reflexivity.
Qed.

Lemma address_domain (host : gostring) (c : Conn) :
  Net.ParseIP host = None ->
  address host c =
    (let name := Strings.TrimSpace host in
     if (len name =? 0) || (len name >? 255)
     then (Err ErrHostInvalid, Close c)
     else (Ok ([x03; byte_of_Z (len name)] ++ name), c)).
Proof.
  intros E. unfold address. rewrite E. cbn zeta.
  destruct ((len (Strings.TrimSpace host) =? 0)
            || (len (Strings.TrimSpace host) >? 255)); reflexivity.
Qed.

(** The address part of every accepted host. *)
Lemma address_encoding (host : gostring) (addr : list byte) (c : Conn) :
  Spec.addr_encoding host addr -> address host c = (Ok addr, c).
Proof.
  intros [h ip v4 E1 E2|h ip v6 E1 E2 E3|h E Hl].
  - unfold address. rewrite E1, E2. reflexivity.
  - unfold address. rewrite E1, E2, E3. reflexivity.
  - rewrite address_domain by exact E. cbn zeta.
    destruct (Z.eqb_spec (len (Strings.TrimSpace h)) 0); [lia|].
    destruct (Z.gtb_spec (len (Strings.TrimSpace h)) 255); [lia|]. reflexivity.
Qed.

Lemma byte_of_Z_mod (z : Z) : byte_of_Z (z mod 256) = byte_of_Z z.
Proof. unfold byte_of_Z. now rewrite Z.mod_mod by lia. Qed.

(** The port goes out high byte first. *)
Lemma PutUint16_port (port : Z) :
  1 <= port <= 65535 ->
  PutUint16 (uint16 port) = [byte_of_Z (port / 256); byte_of_Z (port mod 256)].
Proof.
  intros H. unfold PutUint16, uint16. rewrite Z.mod_small by lia.
  rewrite Z.shiftr_div_pow2 by lia. change (2 ^ 8) with 256.
  now rewrite byte_of_Z_mod.
Qed.

(** [connect] on a valid target puts the request of the specification on
    the wire. *)
Lemma connect_valid (targetAddr host portStr : gostring) (port : Z)
    (addr : list byte) (c : Conn) :
  closed c = false -> wclosed c = false ->
  Net.SplitHostPort targetAddr = Ok (host, portStr) ->
  Strconv.Atoi portStr = Ok port -> 1 <= port <= 65535 ->
  Spec.addr_encoding host addr ->
  connect targetAddr c =
    (match hd None (wscript c) with
     | None => Ok tt
     | Some e => Err (ErrConnectWrite e)
     end,
     {| inbound := inbound c; wscript := tl (wscript c);
        writes := writes c ++ [Spec.connect_request addr port];
        closed := match hd None (wscript c) with
                  | None => false
                  | Some _ => true
                  end;
        wclosed := false; deadline := deadline c |}).
Proof.
  intros Hc Hw Hs Ha Hp He. unfold connect. rewrite Hs, Ha.
  destruct (Z.ltb_spec port 1); [lia|].
  destruct (Z.gtb_spec port 65535); [lia|]. cbn [orb].
  unfold bind. rewrite (address_encoding host addr c He).
  rewrite (writeOrAbort_open c _ ErrConnectWrite Hc Hw).
  rewrite PutUint16_port by lia. reflexivity.
Qed.

(** *** The reply *)

Lemma readFullOrAbort_enough {S : Type} `{StreamLaws S} `{OwnsConn S}
    (s : S) (n : nat) (wrap : ioerr -> DialError) :
  good s -> (n <= List.length (pending s))%nat ->
  exists s',
    readFullOrAbort n wrap s = (Ok (firstn n (pending s)), s')
    /\ pending s' = skipn n (pending s) /\ failure s' = failure s
    /\ good s' /\ reads s s'.
Proof.
  intros Hg Hn. unfold readFullOrAbort.
  destruct (readFull_stream s n Hg Hn) as (s' & -> & P). eauto.
Qed.

Lemma readFullOrAbort_short (b : Bufio.Reader_ Conn) (n : nat)
    (wrap : ioerr -> DialError) :
  good b -> (List.length (pending b) < n)%nat ->
  exists b',
    readFullOrAbort n wrap b = (Err (wrap (failure b)), b')
    /\ closed (Bufio.rd b') = true /\ writes (Bufio.rd b') = writes (Bufio.rd b).
Proof.
  intros Hg Hn. unfold readFullOrAbort.
  destruct (readFull_short b n Hg Hn) as (b' & -> & Hr).
  eexists. split; [reflexivity|]. cbn. split; [reflexivity|apply Hr].
Qed.

Lemma eqb_neq (a b : byte) : a <> b -> Byte.eqb a b = false.
Proof.
  intros H. destruct (Byte.eqb a b) eqn:E; [|reflexivity].
  apply Byte.byte_dec_bl in E. contradiction.
Qed.

Lemma eqb_refl (a : byte) : Byte.eqb a a = true.
Proof. now apply Byte.byte_dec_lb. Qed.

Lemma checkReply_version (h0 h1 h2 h3 : byte) (b : Bufio.Reader_ Conn) :
  h0 <> x05 -> checkReply [h0; h1; h2; h3] b = (Err ErrVersion, onConn Close b).
Proof.
  intros H. unfold checkReply. cbn [at_ Z.to_nat nth].
  now rewrite (eqb_neq _ _ H).
Qed.

Lemma checkReply_status (h1 h2 h3 : byte) (b : Bufio.Reader_ Conn) :
  h1 <> x00 ->
  checkReply [x05; h1; h2; h3] b = (Err (ErrConnectFailed h1), onConn Close b).
Proof.
  intros H. unfold checkReply.
  change (at_ [x05; h1; h2; h3] 0) with x05.
  change (at_ [x05; h1; h2; h3] 1) with h1.
  now rewrite (eqb_neq _ _ H).
Qed.

Lemma checkReply_unknown (h2 h3 : byte) (b : Bufio.Reader_ Conn) :
  h3 <> x01 -> h3 <> x04 -> h3 <> x03 ->
  checkReply [x05; x00; h2; h3] b = (Err ErrUnknownAtyp, onConn Close b).
Proof.
  intros H1 H4 H3. unfold checkReply.
  change (at_ [x05; x00; h2; h3] 0) with x05.
  change (at_ [x05; x00; h2; h3] 1) with x00.
  change (at_ [x05; x00; h2; h3] 3) with h3.
  change (Byte.eqb x05 x05) with true. change (Byte.eqb x00 x00) with true.
  cbn [negb]. unfold bind.
  now rewrite (eqb_neq _ _ H1), (eqb_neq _ _ H4), (eqb_neq _ _ H3).
Qed.

(** The tail: [k] bytes of bound address and two of bound port. *)
Lemma discard_tail (b : Bufio.Reader_ Conn) (k : Z) :
  good b -> 0 <= k ->
  (k + 2 <= len (pending b) ->
   exists b',
     (_ <- readFullOrAbort (Z.to_nat (k + 2)) ErrTailRead ;; ret tt) b
       = (Ok tt, b')
     /\ pending b' = skipn (Z.to_nat (k + 2)) (pending b)
     /\ failure b' = failure b /\ good b' /\ reads b b')
  /\ (len (pending b) < k + 2 ->
      exists b',
        (_ <- readFullOrAbort (Z.to_nat (k + 2)) ErrTailRead ;; ret tt) b
          = (Err (ErrTailRead (failure b)), b')
        /\ closed (Bufio.rd b') = true
        /\ writes (Bufio.rd b') = writes (Bufio.rd b)).
Proof.
  intros Hg Hk. unfold len. split; intros Hl.
  - destruct (readFullOrAbort_enough b (Z.to_nat (k + 2)) ErrTailRead Hg)
      as (b' & E & P); [lia|].
    exists b'. unfold bind. rewrite E. auto.
  - destruct (readFullOrAbort_short b (Z.to_nat (k + 2)) ErrTailRead Hg)
      as (b' & E & P); [lia|].
    exists b'. unfold bind. rewrite E. auto.
Qed.

Lemma checkReply_fixed (h2 h3 : byte) (k : Z) (b : Bufio.Reader_ Conn) :
  (h3 = x01 /\ k = 4) \/ (h3 = x04 /\ k = 16) ->
  checkReply [x05; x00; h2; h3] b =
    (_ <- readFullOrAbort (Z.to_nat (k + 2)) ErrTailRead ;; ret tt) b.
Proof.
  intros [[-> ->]|[-> ->]]; reflexivity.
Qed.

Lemma checkReply_domain (h2 l : byte) (b : Bufio.Reader_ Conn)
    (tail : list byte) :
  good b -> pending b = l :: tail ->
  exists b1,
    pending b1 = tail /\ failure b1 = failure b /\ good b1 /\ reads b b1
    /\ checkReply [x05; x00; h2; x03] b =
        (_ <- readFullOrAbort (Z.to_nat (u8 l + 2)) ErrTailRead ;; ret tt) b1.
Proof.
  intros Hg Hp.
  destruct (ReadByte_some b l tail Hg Hp) as (b1 & E & P1 & P2 & P3 & P4).
  exists b1. do 4 (split; [assumption|]).
  unfold checkReply.
  change (at_ [x05; x00; h2; x03] 0) with x05.
  change (at_ [x05; x00; h2; x03] 1) with x00.
  change (at_ [x05; x00; h2; x03] 3) with x03.
  change (Byte.eqb x05 x05) with true. change (Byte.eqb x00 x00) with true.
  change (Byte.eqb x03 x01) with false. change (Byte.eqb x03 x04) with false.
  change (Byte.eqb x03 x03) with true. cbn [negb].
  unfold bind, readByteOrAbort. rewrite E. reflexivity.
Qed.

Lemma checkReply_domain_eof (h2 : byte) (b : Bufio.Reader_ Conn) :
  good b -> pending b = [] ->
  exists b',
    checkReply [x05; x00; h2; x03] b = (Err (ErrDomainLenRead (failure b)), b')
    /\ closed (Bufio.rd b') = true /\ writes (Bufio.rd b') = writes (Bufio.rd b).
Proof.
  intros Hg Hp.
  destruct (ReadByte_none b Hg Hp) as (b1 & E & Hr).
  unfold checkReply.
  change (at_ [x05; x00; h2; x03] 0) with x05.
  change (at_ [x05; x00; h2; x03] 1) with x00.
  change (at_ [x05; x00; h2; x03] 3) with x03.
  change (Byte.eqb x05 x05) with true. change (Byte.eqb x00 x00) with true.
  change (Byte.eqb x03 x01) with false. change (Byte.eqb x03 x04) with false.
  change (Byte.eqb x03 x03) with true. cbn [negb].
  unfold bind, readByteOrAbort. rewrite E. eexists. split; [reflexivity|]. cbn. split; [reflexivity|apply Hr].
Qed.

(** [DialSocks5] up to the reply header: greeting accepted, valid target,
    request written, four bytes of reply read. *)
Lemma DialSocks5_replied (dial : Dialer) (socksAddr targetAddr : gostring)
    (timeout : Z) (s : stream) (ws : list (option ioerr))
    (addr : list byte) (port : Z) (h0 h1 h2 h3 : byte) (tail : list byte) :
  dial socksAddr = Ok (fresh s ws) ->
  hd None ws = None -> hd None (tl ws) = None ->
  avail s = x05 :: x00 :: h0 :: h1 :: h2 :: h3 :: tail ->
  Spec.valid_target targetAddr addr port ->
  exists b : Bufio.Reader_ Conn,
    good b /\ pending b = tail /\ failure b = ending s
    /\ writes (Bufio.rd b) = [[x05; x01; x00]; Spec.connect_request addr port]
    /\ DialSocks5 dial socksAddr targetAddr timeout =
        match checkReply [h0; h1; h2; h3] b with
        | (Err e, br) =>
            {| res := Err e; conn := Some (Bufio.rd br);
               leftover := Bufio.buf br |}
        | (Ok _, br) =>
            {| res := Ok tt;
               conn := Some (if timeout >? 0
                             then SetDeadline (Bufio.rd br) None
                             else Bufio.rd br);
               leftover := Bufio.buf br |}
        end.
Proof.
  intros Hd Hw1 Hw2 Ha (host & portStr & Hs & Hp & Hr & He).
  destruct (DialSocks5_greeted dial socksAddr targetAddr timeout s ws _ Hd Hw1 Ha)
    as (c1 & A1 & A2 & A3 & A4 & A5 & A6 & ->).
  rewrite (connect_valid targetAddr host portStr port addr c1 A5 A6 Hs Hp Hr He).
  rewrite A3, Hw2.
  set (c2 := {| inbound := inbound c1 |}).
  assert (Hg : good (Bufio.NewReader c2)) by (cbn; auto).
  destruct (readFullOrAbort_enough (Bufio.NewReader c2) 4 ErrConnectRead Hg)
    as (b & E & P1 & P2 & P3 & P4).
  { cbn. rewrite A1. cbn. lia. }
  exists b. cbn in P1, P2, E. rewrite A1 in P1, E. cbn in P1, E.
  rewrite A2 in P2. do 3 (split; [assumption|]). split.
  - destruct P4 as (_ & Q & _). cbn in Q. rewrite Q. now rewrite A4.
  - unfold reply, bind. rewrite E. reflexivity.
Qed.

End ProxyFacts.

(** *** Every failure closes the connection *)

Module Closing.
Import IO TCP Proxy.

Lemma closes_abort {S A : Type} `{OwnsConn S}
    (law : forall f (s : S), theConn (onConn f s) = f (theConn s))
    (e : DialError) :
  closes_on_error (abort (A := A) e).
Proof. intros s e' s' E. injection E as _ <-. now rewrite law. Qed.

Lemma closes_ret {S A : Type} `{OwnsConn S} (a : A) :
  closes_on_error (ret (S := S) a).
Proof. intros s e s' E. discriminate. Qed.

Lemma closes_bind {S A B : Type} `{OwnsConn S} (m : M S A) (k : A -> M S B) :
  closes_on_error m -> (forall a, closes_on_error (k a)) ->
  closes_on_error (bind m k).
Proof.
  intros Hm Hk s e s' E. unfold bind in E.
  destruct (m s) as [[a|e0] s0] eqn:Em.
  - eapply Hk; eauto.
  - injection E as <- <-. eapply Hm; eauto.
Qed.

Lemma closes_if {S A : Type} `{OwnsConn S} (b : bool) (m1 m2 : M S A) :
  closes_on_error m1 -> closes_on_error m2 ->
  closes_on_error (if b then m1 else m2).
Proof. destruct b; auto. Qed.

Lemma onConn_Conn (f : Conn -> Conn) (c : Conn) : theConn (onConn f c) = f c.
Proof. reflexivity. Qed.

Lemma onConn_Reader (f : Conn -> Conn) (b : Bufio.Reader_ Conn) :
  theConn (onConn f b) = f (theConn b).
Proof. reflexivity. Qed.

Lemma closes_abort_Conn {A : Type} (e : DialError) :
  closes_on_error (S := Conn) (abort (A := A) e).
Proof. apply closes_abort, onConn_Conn. Qed.

Lemma closes_abort_Reader {A : Type} (e : DialError) :
  closes_on_error (S := Bufio.Reader_ Conn) (abort (A := A) e).
Proof. apply closes_abort, onConn_Reader. Qed.

Lemma closes_writeOrAbort (p : gostring) (wrap : ioerr -> DialError) :
  closes_on_error (writeOrAbort p wrap).
Proof.
  intros s e s' E. unfold writeOrAbort in E.
  destruct (Write s p) as [[n [e0|]] c']; [|discriminate].
  now injection E as _ <-.
Qed.

Lemma closes_readFullOrAbort_Conn (n : nat) (wrap : ioerr -> DialError) :
  closes_on_error (S := Conn) (readFullOrAbort n wrap).
Proof.
  intros s e s' E. unfold readFullOrAbort in E.
  destruct (readFull s n) as [[bs [e0|]] c']; [|discriminate].
  now injection E as _ <-.
Qed.

Lemma closes_readFullOrAbort_Reader (n : nat) (wrap : ioerr -> DialError) :
  closes_on_error (S := Bufio.Reader_ Conn) (readFullOrAbort n wrap).
Proof.
  intros s e s' E. unfold readFullOrAbort in E.
  destruct (readFull s n) as [[bs [e0|]] c']; [|discriminate].
  now injection E as _ <-.
Qed.

Lemma closes_readByteOrAbort (wrap : ioerr -> DialError) :
  closes_on_error (readByteOrAbort wrap).
Proof.
  intros s e s' E. unfold readByteOrAbort in E.
  destruct (Bufio.ReadByte s) as [[l|e0] b']; [discriminate|].
  now injection E as _ <-.
Qed.

Create HintDb closing.
#[local] Hint Resolve closes_ret closes_bind closes_if closes_abort_Conn
  closes_abort_Reader closes_writeOrAbort closes_readFullOrAbort_Conn
  closes_readFullOrAbort_Reader closes_readByteOrAbort : closing.







(** *** Reading writes nothing *)

Lemma keeps_abort_Conn {A : Type} (e : DialError) :
  keeps_writes (S := Conn) (abort (A := A) e).
Proof. intros s r s' E. now injection E as _ <-. Qed.

Lemma keeps_abort_Reader {A : Type} (e : DialError) :
  keeps_writes (S := Bufio.Reader_ Conn) (abort (A := A) e).
Proof. intros s r s' E. now injection E as _ <-. Qed.

Lemma keeps_ret {S A : Type} `{OwnsConn S} (a : A) :
  keeps_writes (ret (S := S) a).
Proof. intros s r s' E. now injection E as _ <-. Qed.

Lemma keeps_bind {S A B : Type} `{OwnsConn S} (m : M S A) (k : A -> M S B) :
  keeps_writes m -> (forall a, keeps_writes (k a)) -> keeps_writes (bind m k).
Proof.
  intros Hm Hk s r s' E. unfold bind in E.
  destruct (m s) as [[a|e0] s0] eqn:Em.
  - rewrite (Hk a _ _ _ E). eapply Hm; eauto.
  - injection E as _ <-. eapply Hm; eauto.
Qed.

Lemma keeps_if {S A : Type} `{OwnsConn S} (b : bool) (m1 m2 : M S A) :
  keeps_writes m1 -> keeps_writes m2 -> keeps_writes (if b then m1 else m2).
Proof. destruct b; auto. Qed.

Lemma Conn_Read_writes (c : Conn) (n : nat) :
  writes (snd (Conn_Read c n)) = writes c.
Proof.
  unfold Conn_Read. destruct (closed c); [reflexivity|].
  now destruct (stream_Read (inbound c) n).
Qed.

Lemma Read__writes (b : Bufio.Reader_ Conn) (n : nat) :
  writes (Bufio.rd (snd (Bufio.Read_ b n))) = writes (Bufio.rd b).
Proof.
  unfold Bufio.Read_. destruct (n =? 0)%nat.
  - destruct (Bufio.buf b); reflexivity.
  - destruct (Bufio.buf b); [|reflexivity].
    destruct (Bufio.err b); [reflexivity|].
    destruct (Bufio.defaultBufSize <=? n)%nat.
    + pose proof (Conn_Read_writes (Bufio.rd b) n) as W. cbn [Read Conn_Reader].
      destruct (Conn_Read (Bufio.rd b) n) as [[bs e] r']. exact W.
    + pose proof (Conn_Read_writes (Bufio.rd b) Bufio.defaultBufSize) as W.
      cbn [Read Conn_Reader].
      destruct (Conn_Read (Bufio.rd b) Bufio.defaultBufSize) as [[[|x bs] e] r'];
        exact W.
Qed.

Section ReadFullWrites.
Context {R : Type} `{Reader R}.
Variable conn_of : R -> Conn.
Hypothesis Read_writes :
  forall r n, writes (conn_of (snd (Read r n))) = writes (conn_of r).

Lemma readFull_loop_writes (turns : nat) :
  forall r need got,
    writes (conn_of (snd (readFull_loop turns r need got))) = writes (conn_of r).
Proof.
  induction turns as [|turns IH]; intros r need got; cbn [readFull_loop].
  - reflexivity.
  - destruct (need =? 0)%nat; [reflexivity|].
    pose proof (Read_writes r need) as W.
    destruct (Read r need) as [[bs [e|]] r']; cbn [snd] in *.
    + exact W.
    + now rewrite IH.
Qed.

End ReadFullWrites.

Lemma keeps_readFullOrAbort_Conn (n : nat) (wrap : ioerr -> DialError) :
  keeps_writes (S := Conn) (readFullOrAbort n wrap).
Proof.
  intros s r s' E. unfold readFullOrAbort, readFull in E.
  pose proof (readFull_loop_writes (fun c => c) Conn_Read_writes n s n []) as W.
  destruct (readFull_loop n s n []) as [[bs [e|]] c']; injection E as _ <-;
    exact W.
Qed.

Lemma keeps_readFullOrAbort_Reader (n : nat) (wrap : ioerr -> DialError) :
  keeps_writes (S := Bufio.Reader_ Conn) (readFullOrAbort n wrap).
Proof.
  intros s r s' E. unfold readFullOrAbort, readFull in E.
  pose proof (readFull_loop_writes Bufio.rd Read__writes n s n []) as W.
  destruct (readFull_loop n s n []) as [[bs [e|]] c']; injection E as _ <-;
    exact W.
Qed.

Lemma fill_loop_writes (i : nat) :
  forall c : Conn, writes (Bufio.rd (Bufio.fill_loop i c)) = writes c.
Proof.
  induction i as [|i IH]; intros c; cbn [Bufio.fill_loop]; [reflexivity|].
  pose proof (Conn_Read_writes c Bufio.defaultBufSize) as W.
  cbn [Read Conn_Reader].
  destruct (Conn_Read c Bufio.defaultBufSize) as [[[|x bs] [e|]] r'];
    cbn [snd] in W; try exact W.
  now rewrite IH.
Qed.

Lemma ReadByte_loop_writes (turns : nat) :
  forall b : Bufio.Reader_ Conn,
    writes (Bufio.rd (snd (Bufio.ReadByte_loop turns b))) = writes (Bufio.rd b).
Proof.
  induction turns as [|turns IH]; intros b; cbn [Bufio.ReadByte_loop];
    destruct (Bufio.buf b); try reflexivity;
    destruct (Bufio.err b); try reflexivity.
  rewrite IH. unfold Bufio.fill. apply fill_loop_writes.
Qed.

Lemma keeps_readByteOrAbort (wrap : ioerr -> DialError) :
  keeps_writes (readByteOrAbort wrap).
Proof.
  intros s r s' E. unfold readByteOrAbort, Bufio.ReadByte in E.
  pose proof (ReadByte_loop_writes 2 s) as W.
  destruct (Bufio.ReadByte_loop 2 s) as [[l|e] b']; injection E as _ <-;
    exact W.
Qed.

#[local] Hint Resolve keeps_ret keeps_bind keeps_if keeps_abort_Conn
  keeps_abort_Reader keeps_readFullOrAbort_Conn keeps_readFullOrAbort_Reader
  keeps_readByteOrAbort : closing.

Lemma keeps_checkReply (head : list byte) : keeps_writes (checkReply head).
Proof. unfold checkReply. auto 20 with closing. Qed.

(** The reply stage writes nothing. *)
Lemma keeps_reply : keeps_writes reply.
Proof. unfold reply. pose proof keeps_checkReply. auto with closing. Qed.

End Closing.

(* ====================================================================== *)
(** * The SOCKS5 client *)
(* ====================================================================== *)

Module Socks5.
Import IO TCP Proxy Laws ProxyFacts Examples.

Lemma friendly_greeted (socksAddr : gostring) :
  Spec.greeted friendly socksAddr
    [x05; x00; x00; x01; x00; x00; x00; x00; x00; x00] EOF.
Proof. eexists _, _. repeat split. Qed.

Lemma friendly_requested (socksAddr : gostring) :
  Spec.requested friendly socksAddr
    [x05; x00; x00; x01; x00; x00; x00; x00; x00; x00] EOF.
Proof. eexists _, _. repeat split. Qed.

Lemma valid_example_ipv4 :
  Spec.valid_target (str "93.184.216.34:443") [x01; x5d; xb8; xd8; x22] 443.
Proof.
  exists (str "93.184.216.34"), (str "443"). repeat split; try lia.
  now apply (Spec.enc_ipv4 (str "93.184.216.34")
               (Net.v4InV6Prefix ++ [x5d; xb8; xd8; x22]) [x5d; xb8; xd8; x22]).
Qed.

Lemma valid_example_domain :
  Spec.valid_target (str "example.com:80")
    (x03 :: x0b :: str "example.com") 80.
Proof.
  exists (str "example.com"), (str "80"). repeat split; try lia.
  apply (Spec.enc_domain (str "example.com")); [reflexivity|].
  vm_compute. split; discriminate.
Qed.

(** The request goes out as the second write whenever the greeting was
    accepted and the target is valid. *)
Lemma sent_request (dial : Dialer) (socksAddr targetAddr : gostring)
    (timeout : Z) (rest : list byte) (failure : ioerr)
    (addr : list byte) (port : Z) :
  Spec.greeted dial socksAddr rest failure ->
  Spec.valid_target targetAddr addr port ->
  sent (DialSocks5 dial socksAddr targetAddr timeout)
    = [[x05; x01; x00]; Spec.connect_request addr port].
Proof.
  intros (s & ws & Hd & Hw & Ha & _) (host & portStr & Hs & Hp & Hr & He).
  destruct (DialSocks5_greeted dial socksAddr targetAddr timeout s ws _ Hd Hw Ha)
    as (c1 & A1 & A2 & A3 & A4 & A5 & A6 & ->).
  rewrite (connect_valid targetAddr host portStr port addr c1 A5 A6 Hs Hp Hr He).
  rewrite A4. cbn [app].
  destruct (hd None (wscript c1)) as [e|]; [reflexivity|].
  match goal with |- context [reply ?b] => set (b0 := b) end.
  assert (Hg : good b0) by (cbn; auto).
  pose proof (Closing.keeps_reply b0) as K.
  destruct (reply b0) as [[u|e] br]; unfold sent; cbn [conn];
    specialize (K _ _ eq_refl); cbn in K.
  - destruct (timeout >? 0); exact K.
  - exact K.
Qed.

(** The address stage when it refuses the target. *)
Lemma address_stage_fails (dial : Dialer) (socksAddr targetAddr : gostring)
    (timeout : Z) (rest : list byte) (failure : ioerr) (e : DialError) :
  Spec.greeted dial socksAddr rest failure ->
  stage e = StageAddress ->
  (forall c, connect targetAddr c = (Err e, Close c)) ->
  Spec.address_failure (DialSocks5 dial socksAddr targetAddr timeout) e.
Proof.
  intros (s & ws & Hd & Hw & Ha & _) Hst Hc.
  destruct (DialSocks5_greeted dial socksAddr targetAddr timeout s ws _ Hd Hw Ha)
    as (c1 & A1 & A2 & A3 & A4 & A5 & A6 & ->).
  rewrite Hc. unfold Spec.address_failure, sent, conn_closed. cbn. auto.
Qed.

Lemma valid_example_mapped :
  Spec.valid_target (str "[::ffff:1.2.3.4]:80") [x01; x01; x02; x03; x04] 80.
Proof.
  exists (str "::ffff:1.2.3.4"), (str "80"). repeat split; try lia.
  apply (Spec.enc_ipv4 (str "::ffff:1.2.3.4")
           (Net.v4InV6Prefix ++ [x01; x02; x03; x04]) [x01; x02; x03; x04]);
    vm_compute; reflexivity.
Qed.

(** The address part of a host that is an IP literal: sixteen bytes were
    parsed; the ones of an IPv4-mapped address go out as type 1 with the
    last four, all others as type 4 with the sixteen. *)
Lemma encoding_of_literal (host : gostring) (ip : Net.IP) :
  Net.ParseIP host = Some ip ->
  List.length ip = 16%nat
  /\ match Net.To4 ip with
     | Some v4 =>
         ip = Net.v4InV6Prefix ++ v4 /\ List.length v4 = 4%nat
         /\ Spec.addr_encoding host (x01 :: v4)
     | None =>
         firstn 12 ip <> Net.v4InV6Prefix
         /\ Spec.addr_encoding host (x04 :: ip)
     end.
Proof.
  intros Hip. pose proof (ParseIP_length host ip Hip) as Hl.
  split; [exact Hl|].
  destruct (To4_To16_sixteen ip Hl) as [H16 H4].
  destruct (Net.To4 ip) as [v4|] eqn:E4.
  - destruct H4 as [H4 Hv]. split; [exact H4|]. split; [exact Hv|].
    exact (Spec.enc_ipv4 host ip v4 Hip E4).
  - split; [exact H4|]. exact (Spec.enc_ipv6 host ip ip Hip E4 H16).
Qed.

(** Every target is valid or is refused in the address stage. *)
Lemma target_cases (targetAddr : gostring) :
  (exists addr port, Spec.valid_target targetAddr addr port)
  \/ (exists e, stage e = StageAddress
                /\ forall c, connect targetAddr c = (Err e, Close c)).
Proof.
  destruct (Net.SplitHostPort targetAddr) as [[host portStr]|e] eqn:Hs.
  2:{ right. exists (ErrTargetParse e). split; [reflexivity|].
      intros c. unfold connect. now rewrite Hs. }
  destruct (Strconv.Atoi portStr) as [port|e] eqn:Hp.
  2:{ right. exists ErrPortInvalid. split; [reflexivity|].
      intros c. unfold connect. now rewrite Hs, Hp. }
  destruct (Z.ltb_spec port 1) as [Hlo|Hlo].
  { right. exists ErrPortInvalid. split; [reflexivity|].
    intros c. unfold connect. rewrite Hs, Hp.
    destruct (Z.ltb_spec port 1); [reflexivity|lia]. }
  destruct (Z.gtb_spec port 65535) as [Hhi|Hhi].
  { right. exists ErrPortInvalid. split; [reflexivity|].
    intros c. unfold connect. rewrite Hs, Hp.
    destruct (Z.gtb_spec port 65535); [|lia]. now rewrite orb_true_r. }
  destruct (Net.ParseIP host) as [ip|] eqn:Hip.
  { left. destruct (encoding_of_literal host ip Hip) as [_ H].
    destruct (Net.To4 ip) as [v4|].
    - destruct H as (_ & _ & He). exists (x01 :: v4), port.
      exists host, portStr. repeat split; auto; lia.
    - destruct H as (_ & He). exists (x04 :: ip), port.
      exists host, portStr. repeat split; auto; lia. }
  destruct (Z.eqb_spec (len (Strings.TrimSpace host)) 0) as [Hz|Hz].
  { right. exists ErrHostInvalid. split; [reflexivity|].
    intros c. unfold connect. rewrite Hs, Hp.
    destruct (Z.ltb_spec port 1); [lia|].
    destruct (Z.gtb_spec port 65535); [lia|]. cbn [orb]. unfold bind.
    rewrite (address_domain host c Hip). cbn zeta. rewrite Hz. reflexivity. }
  destruct (Z.gtb_spec (len (Strings.TrimSpace host)) 255) as [Hl|Hl].
  { right. exists ErrHostInvalid. split; [reflexivity|].
    intros c. unfold connect. rewrite Hs, Hp.
    destruct (Z.ltb_spec port 1); [lia|].
    destruct (Z.gtb_spec port 65535); [lia|]. cbn [orb]. unfold bind.
    rewrite (address_domain host c Hip). cbn zeta.
    destruct (Z.gtb_spec (len (Strings.TrimSpace host)) 255); [|lia].
    now rewrite orb_true_r. }
  left. exists (x03 :: byte_of_Z (len (Strings.TrimSpace host))
                  :: Strings.TrimSpace host), port.
  exists host, portStr. repeat split; auto; try lia.
  apply Spec.enc_domain; [exact Hip|]. unfold len in *. lia.
Qed.

(** C1 (as amended): when the proxy accepts the no-auth greeting, the bytes
    [DialSocks5] writes after the greeting are exactly
    [05 01 00, addrType, addrBytes, portHi, portLo] with the port high byte
    first, for every valid target.  A target is valid when it splits into
    host and port, the port is an integer in 1..65535 and the host has an
    address part; the address part is decided by the host alone.  A
    dotted-decimal IPv4 literal gives type 1 and its four bytes.  Every host
    that is an IP literal parses to sixteen bytes: when they are an
    IPv4-mapped address (::ffff:a.b.c.d, the form of an IPv4 literal too)
    the address part is type 1 and the last four bytes, otherwise it is type
    4 and the sixteen bytes.  A host that is no IP literal is a domain: type
    3, a length byte and the bytes of the name, the name being the host with
    the white space around it removed, of 1..255 bytes.  Every target is
    either valid or refused in the address stage with nothing but the
    greeting sent.  For "93.184.216.34:443" the bytes are
    05 01 00 01 5D B8 D8 22 01 BB, for "example.com:80" they are
    05 01 00 03 0B 65 78 61 6D 70 6C 65 2E 63 6F 6D 00 50, and for
    "[::ffff:1.2.3.4]:80" they are 05 01 00 01 01 02 03 04 00 50. *)
Theorem connect_request_bytes (dial : Dialer) (socksAddr : gostring)
    (timeout : Z) (rest : list byte) (failure : ioerr) :
  Spec.greeted dial socksAddr rest failure ->
  (forall targetAddr addr port,
      Spec.valid_target targetAddr addr port ->
      sent (DialSocks5 dial socksAddr targetAddr timeout)
        = [[x05; x01; x00];
           [x05; x01; x00] ++ addr
             ++ [byte_of_Z (port / 256); byte_of_Z (port mod 256)]])
  /\ (forall targetAddr host portStr port,
        Net.SplitHostPort targetAddr = Ok (host, portStr) ->
        Strconv.Atoi portStr = Ok port -> 1 <= port <= 65535 ->
        (forall v4, Net.parseIPv4 host = Some v4 ->
           List.length v4 = 4%nat
           /\ Spec.valid_target targetAddr (x01 :: v4) port)
        /\ (forall ip, Net.ParseIP host = Some ip ->
              List.length ip = 16%nat
              /\ match Net.To4 ip with
                 | Some v4 =>
                     ip = Net.v4InV6Prefix ++ v4 /\ List.length v4 = 4%nat
                     /\ Spec.valid_target targetAddr (x01 :: v4) port
                 | None =>
                     firstn 12 ip <> Net.v4InV6Prefix
                     /\ Spec.valid_target targetAddr (x04 :: ip) port
                 end)
        /\ (Net.ParseIP host = None ->
            1 <= len (Strings.TrimSpace host) <= 255 ->
            Spec.valid_target targetAddr
              (x03 :: byte_of_Z (len (Strings.TrimSpace host))
                   :: Strings.TrimSpace host) port))
  /\ (forall targetAddr,
        (exists addr port, Spec.valid_target targetAddr addr port)
        \/ (exists e,
              Spec.address_failure
                (DialSocks5 dial socksAddr targetAddr timeout) e))
  /\ sent (DialSocks5 dial socksAddr (str "93.184.216.34:443") timeout)
       = [[x05; x01; x00];
          [x05; x01; x00; x01; x5d; xb8; xd8; x22; x01; xbb]]
  /\ sent (DialSocks5 dial socksAddr (str "example.com:80") timeout)
       = [[x05; x01; x00];
          [x05; x01; x00; x03; x0b; x65; x78; x61; x6d; x70; x6c; x65; x2e;
           x63; x6f; x6d; x00; x50]]
  /\ sent (DialSocks5 dial socksAddr (str "[::ffff:1.2.3.4]:80") timeout)
       = [[x05; x01; x00];
          [x05; x01; x00; x01; x01; x02; x03; x04; x00; x50]].
Proof.
  intros Hg. split; [|split; [|split; [|split; [|split]]]].
  - intros targetAddr addr port Hv. exact (sent_request _ _ _ _ _ _ _ _ Hg Hv).
  - intros targetAddr host portStr port Hs Hp Hr.
    assert (Hv : forall addr, Spec.addr_encoding host addr ->
                              Spec.valid_target targetAddr addr port).
    { intros addr He. exists host, portStr. auto. }
    split; [|split].
    + intros v4 E. destruct (ParseIP_ipv4 host v4 E) as (H1 & H2 & H3).
      split; [exact H3|]. apply Hv.
      exact (Spec.enc_ipv4 host _ v4 H1 H2).
    + intros ip Hip. destruct (encoding_of_literal host ip Hip) as [Hl H].
      split; [exact Hl|]. destruct (Net.To4 ip) as [v4|].
      * destruct H as (H1 & H2 & H3). auto.
      * destruct H as (H1 & H2). auto.
    + intros Hip Hl. apply Hv. now apply Spec.enc_domain.
  - intros targetAddr.
    destruct (target_cases targetAddr) as [Hv|(e & Hst & Hc)]; [left; exact Hv|].
    right. exists e. exact (address_stage_fails _ _ _ _ _ _ _ Hg Hst Hc).
  - exact (sent_request _ _ _ _ _ _ _ _ Hg valid_example_ipv4).
  - exact (sent_request _ _ _ _ _ _ _ _ Hg valid_example_domain).
  - exact (sent_request _ _ _ _ _ _ _ _ Hg valid_example_mapped).
Qed.

Lemma connect_request_bytes_witness :
  sent (DialSocks5 friendly (str "127.0.0.1:1080") (str "example.com:80") 5)
    = [[x05; x01; x00];
       [x05; x01; x00; x03; x0b; x65; x78; x61; x6d; x70; x6c; x65; x2e;
        x63; x6f; x6d; x00; x50]]
  /\ sent (DialSocks5 friendly (str "127.0.0.1:1080")
             (str "[::ffff:1.2.3.4]:80") 5)
     = [[x05; x01; x00]; [x05; x01; x00; x01; x01; x02; x03; x04; x00; x50]].
Proof.
  destruct (connect_request_bytes friendly (str "127.0.0.1:1080") 5
              [x05; x00; x00; x01; x00; x00; x00; x00; x00; x00] EOF)
    as (_ & _ & _ & _ & H1 & H2).
  - eexists _, _. repeat split.
  - split; [exact H1|exact H2].
Defined.

(** C1 as it stands fails on a host with white space around it: for the
    target " a:80" the claim expects the address part 03 02 20 61, the two
    bytes of the host; the code sends 03 01 61. *)
Lemma connect_request_raw_counterexample :
  Net.SplitHostPort (str " a:80") = Ok (str " a", str "80")
  /\ Spec.addr_encoding_raw (str " a") [x03; x02; x20; x61]
  /\ sent (DialSocks5 friendly (str "127.0.0.1:1080") (str " a:80") 5)
       = [[x05; x01; x00]; [x05; x01; x00; x03; x01; x61; x00; x50]]
  /\ ~ Spec.connect_request_raw_claim.
Proof.
  assert (Hraw : Spec.addr_encoding_raw (str " a") [x03; x02; x20; x61]).
  { apply (Spec.raw_domain (str " a")); [reflexivity|]. vm_compute.
    split; discriminate. }
  assert (Hsent : sent (DialSocks5 friendly (str "127.0.0.1:1080")
                          (str " a:80") 5)
                  = [[x05; x01; x00]; [x05; x01; x00; x03; x01; x61; x00; x50]])
    by (vm_compute; reflexivity).
  repeat split; auto.
  intros Claim.
  specialize (Claim friendly (str "127.0.0.1:1080") (str " a:80") 5 _ _
                (str " a") (str "80") 80 _ (friendly_greeted _) eq_refl eq_refl
                ltac:(lia) Hraw).
  rewrite Hsent in Claim. discriminate Claim.
Qed.

(** C3: for every two-byte greeting reply other than 05 00, [DialSocks5]
    fails with the negotiation error, closes the connection and has sent
    nothing but the greeting. *)
Theorem greeting_mismatch_fails (dial : Dialer)
    (socksAddr targetAddr : gostring) (timeout : Z)
    (s : stream) (ws : list (option ioerr)) (b0 b1 : byte) (rest : list byte) :
  dial socksAddr = Ok (fresh s ws) -> hd None ws = None ->
  avail s = b0 :: b1 :: rest ->
  (b0, b1) <> (x05, x00) ->
  let o := DialSocks5 dial socksAddr targetAddr timeout in
  res o = Err ErrNegotiation
  /\ conn_closed o = true
  /\ sent o = [[x05; x01; x00]].
Proof.
  intros Hd Hw Ha Hne.
  assert (Hb : Byte.eqb b0 x05 && Byte.eqb b1 x00 = false).
  { destruct (Byte.eqb b0 x05) eqn:E0; [|reflexivity].
    destruct (Byte.eqb b1 x00) eqn:E1; [|reflexivity].
    apply Byte.byte_dec_bl in E0, E1. congruence. }
  destruct (DialSocks5_rejected dial socksAddr targetAddr timeout s ws b0 b1
              rest Hd Hw Ha Hb) as (c & E & Hc & Hs).
  cbn zeta. rewrite E. unfold conn_closed, sent. cbn. auto.
Qed.

Lemma greeting_mismatch_fails_witness :
  let o := DialSocks5 (fun _ => Ok (fresh [Data x05 [x01]] []))
             (str "127.0.0.1:1080") (str "example.com:80") 5 in
  res o = Err ErrNegotiation
  /\ conn_closed o = true
  /\ sent o = [[x05; x01; x00]].
Proof.
  apply (greeting_mismatch_fails (fun _ => Ok (fresh [Data x05 [x01]] []))
           (str "127.0.0.1:1080") (str "example.com:80") 5
           [Data x05 [x01]] [] x05 x01 []);
    [reflexivity|reflexivity|reflexivity|discriminate].
Defined.





(** The reply stage, from the header on. *)
Lemma replied (dial : Dialer) (socksAddr targetAddr : gostring)
    (timeout : Z) (addr : list byte) (port : Z) (h0 h1 h2 h3 : byte)
    (tail : list byte) (failure : ioerr) :
  Spec.requested dial socksAddr (h0 :: h1 :: h2 :: h3 :: tail) failure ->
  Spec.valid_target targetAddr addr port ->
  exists b : Bufio.Reader_ Conn,
    good b /\ pending b = tail /\ IO.failure b = failure
    /\ DialSocks5 dial socksAddr targetAddr timeout =
        match checkReply [h0; h1; h2; h3] b with
        | (Err e, br) =>
            {| res := Err e; conn := Some (Bufio.rd br);
               leftover := Bufio.buf br |}
        | (Ok _, br) =>
            {| res := Ok tt;
               conn := Some (if timeout >? 0
                             then SetDeadline (Bufio.rd br) None
                             else Bufio.rd br);
               leftover := Bufio.buf br |}
        end.
Proof.
  intros (s & ws & Hd & Hw1 & Hw2 & Ha & He) Hv.
  destruct (DialSocks5_replied dial socksAddr targetAddr timeout s ws addr port
              h0 h1 h2 h3 tail Hd Hw1 Hw2 Ha Hv) as (b & G & P & F & _ & E).
  exists b. rewrite F, He. auto.
Qed.

(** A reply stage that fails by closing the reader it was given. *)
Lemma replied_abort (dial : Dialer) (socksAddr targetAddr : gostring)
    (timeout : Z) (addr : list byte) (port : Z) (h0 h1 h2 h3 : byte)
    (tail : list byte) (failure : ioerr) (e : DialError) :
  Spec.requested dial socksAddr (h0 :: h1 :: h2 :: h3 :: tail) failure ->
  Spec.valid_target targetAddr addr port ->
  (forall b, checkReply [h0; h1; h2; h3] b = (Err e, onConn Close b)) ->
  let o := DialSocks5 dial socksAddr targetAddr timeout in
  res o = Err e /\ conn_closed o = true.
Proof.
  intros Hr Hv Hc.
  destruct (replied _ _ _ timeout _ _ _ _ _ _ _ _ Hr Hv) as (b & _ & _ & _ & E).
  cbn zeta. rewrite E, Hc. unfold conn_closed. cbn. auto.
Qed.

(** C4 (as amended): for every CONNECT reply whose version byte is 05 and
    whose status byte is not zero, [DialSocks5] fails with the error that
    carries that status byte, and the connection is closed, so the caller
    gets no connection; the message ends with the status in hexadecimal,
    and the one of status 05 reads "code=0x5".  For every reply whose
    version byte is not 05, [DialSocks5] fails with the invalid-version
    error, whatever the status byte, and the connection is closed. *)
Theorem connect_status_reported (dial : Dialer)
    (socksAddr targetAddr : gostring) (timeout : Z) (addr : list byte)
    (port : Z) (h0 h1 h2 h3 : byte) (tail : list byte) (failure : ioerr) :
  Spec.requested dial socksAddr (h0 :: h1 :: h2 :: h3 :: tail) failure ->
  Spec.valid_target targetAddr addr port ->
  let o := DialSocks5 dial socksAddr targetAddr timeout in
  (h0 = x05 -> h1 <> x00 ->
     res o = Err (ErrConnectFailed h1)
     /\ conn_closed o = true
     /\ stage (ErrConnectFailed h1) = StageStatus
     /\ render (ErrConnectFailed h1)
        = ("socks connect failed, code=0x" ++ fmt_x h1)%string)
  /\ (h0 <> x05 ->
      res o = Err ErrVersion
      /\ conn_closed o = true
      /\ stage ErrVersion = StageVersion
      /\ render ErrVersion = "invalid socks version in reply"%string)
  /\ render (ErrConnectFailed x05) = "socks connect failed, code=0x5"%string.
Proof.
  intros Hr Hv. cbn zeta. split; [|split; [|reflexivity]].
  - intros -> Hne.
    destruct (replied_abort dial socksAddr targetAddr timeout addr port
                x05 h1 h2 h3 tail failure (ErrConnectFailed h1) Hr Hv)
      as (E & C).
    { intros b. now apply checkReply_status. }
    auto.
  - intros Hne.
    destruct (replied_abort dial socksAddr targetAddr timeout addr port
                h0 h1 h2 h3 tail failure ErrVersion Hr Hv) as (E & C).
    { intros b. now apply checkReply_version. }
    auto.
Qed.

Lemma connect_status_reported_witness :
  (let o := DialSocks5 refusing (str "127.0.0.1:1080") (str "example.com:80") 5 in
   res o = Err (ErrConnectFailed x05)
   /\ conn_closed o = true
   /\ render (ErrConnectFailed x05) = "socks connect failed, code=0x5"%string)
  /\ (let dial : Dialer :=
        fun _ =>
          Ok (fresh [Data x05 [x00];
                     Data x04 [x05; x00; x01; x00; x00; x00; x00; x00; x00]] []) in
      let o := DialSocks5 dial (str "127.0.0.1:1080") (str "example.com:80") 5 in
      res o = Err ErrVersion /\ conn_closed o = true).
Proof.
  split.
  - destruct (connect_status_reported refusing (str "127.0.0.1:1080")
                (str "example.com:80") 5 (x03 :: x0b :: str "example.com") 80
                x05 x05 x00 x01 [x00; x00; x00; x00; x00; x00] EOF)
      as (H & _ & _).
    + eexists _, _. repeat split.
    + exists (str "example.com"), (str "80"). repeat split; try lia.
      apply (Spec.enc_domain (str "example.com")); [reflexivity|].
      vm_compute. split; discriminate.
    + destruct (H eq_refl) as (E & C & _ & R); [discriminate|].
      cbn zeta. split; [exact E|]. split; [exact C|exact R].
  - destruct (connect_status_reported
                (fun _ =>
                   Ok (fresh [Data x05 [x00];
                              Data x04 [x05; x00; x01; x00; x00; x00; x00; x00;
                                        x00]] []))
                (str "127.0.0.1:1080")
                (str "example.com:80") 5 (x03 :: x0b :: str "example.com") 80
                x04 x05 x00 x01 [x00; x00; x00; x00; x00; x00] EOF)
      as (_ & H & _).
    + eexists _, _. repeat split.
    + exists (str "example.com"), (str "80"). repeat split; try lia.
      apply (Spec.enc_domain (str "example.com")); [reflexivity|].
      vm_compute. split; discriminate.
    + destruct H as (E & C & _); [discriminate|].
      cbn zeta. split; [exact E|exact C].
Defined.

(** C4 as it stands fails on a reply whose version byte is not 05: for the
    header 04 05 00 01 the status byte is 05, yet the error is the one of
    the version check, which carries no status. *)
Lemma status_any_version_counterexample :
  let dial : Dialer :=
    fun _ =>
      Ok (fresh [Data x05 [x00];
                 Data x04 [x05; x00; x01; x00; x00; x00; x00; x00; x00]] []) in
  let o := DialSocks5 dial (str "127.0.0.1:1080") (str "example.com:80") 5 in
  res o = Err ErrVersion
  /\ render ErrVersion = "invalid socks version in reply"%string
  /\ ~ Spec.status_any_version_claim.
Proof.
  cbn zeta.
  set (dial := fun _ : gostring =>
      Ok (fresh [Data x05 [x00];
                 Data x04 [x05; x00; x01; x00; x00; x00; x00; x00; x00]] [])).
  assert (Hres : res (DialSocks5 dial (str "127.0.0.1:1080")
                        (str "example.com:80") 5) = Err ErrVersion)
    by (vm_compute; reflexivity).
  split; [exact Hres|]. split; [reflexivity|].
  intros Claim.
  specialize (Claim dial (str "127.0.0.1:1080") (str "example.com:80") 5
                (x03 :: x0b :: str "example.com") 80
                x04 x05 x00 x01 [x00; x00; x00; x00; x00; x00] EOF).
  rewrite Hres in Claim.
  assert (E : Err (A := unit) ErrVersion = Err (ErrConnectFailed x05));
    [|discriminate E].
  apply Claim.
  - eexists _, _. repeat split.
  - exact valid_example_domain.
  - discriminate.
Qed.

End Socks5.

Module Socks5Reply.
Import IO TCP Proxy Laws ProxyFacts Examples Socks5.

(** The outcome of a call whose reply stage ends with the discarding of
    [k] bytes of bound address and two bytes of bound port. *)
Lemma outcome_of_tail (timeout : Z) (b : Bufio.Reader_ Conn) (k : Z)
    (o : Outcome) :
  good b -> 0 <= k ->
  o = match (_ <- readFullOrAbort (Z.to_nat (k + 2)) ErrTailRead ;; ret tt) b with
      | (Err e, br) =>
          {| res := Err e; conn := Some (Bufio.rd br);
             leftover := Bufio.buf br |}
      | (Ok _, br) =>
          {| res := Ok tt;
             conn := Some (if timeout >? 0
                           then SetDeadline (Bufio.rd br) None
                           else Bufio.rd br);
             leftover := Bufio.buf br |}
      end ->
  (k + 2 <= len (pending b) ->
   res o = Ok tt /\ conn_closed o = false
   /\ unread o = skipn (Z.to_nat (k + 2)) (pending b))
  /\ (len (pending b) < k + 2 ->
      res o = Err (ErrTailRead (failure b)) /\ conn_closed o = true).
Proof.
  intros Hg Hk ->. destruct (discard_tail b k Hg Hk) as [Hok Hshort].
  split; intros Hl.
  - destruct (Hok Hl) as (b' & -> & P & _ & [G _] & _).
    unfold conn_closed, unread. cbn [res conn leftover].
    rewrite <- P. cbn in G.
    destruct (timeout >? 0); cbn; auto.
  - destruct (Hshort Hl) as (b' & -> & C & _).
    unfold conn_closed. cbn. auto.
Qed.

(** C5: after a reply header 05 00 rsv atyp, [DialSocks5] discards the
    bound address and the two bytes of the bound port, the length of the
    address being fixed by the address type alone: 4 bytes for type 01,
    16 for type 04, and for type 03 one length byte and as many bytes as it
    says.  With that many bytes at hand the call succeeds and exactly they
    are consumed ([unread] is what follows them); with fewer it fails in
    the read.  Any other address type is the unknown-address-type error,
    with the connection closed. *)
Theorem bound_address_discarded (dial : Dialer)
    (socksAddr targetAddr : gostring) (timeout : Z) (addr : list byte)
    (port : Z) (rsv atyp : byte) (tail : list byte) (failure : ioerr) :
  Spec.requested dial socksAddr (x05 :: x00 :: rsv :: atyp :: tail) failure ->
  Spec.valid_target targetAddr addr port ->
  let o := DialSocks5 dial socksAddr targetAddr timeout in
  (atyp = x01 ->
     (4 + 2 <= len tail ->
      res o = Ok tt /\ conn_closed o = false /\ unread o = skipn (4 + 2) tail)
     /\ (len tail < 4 + 2 ->
         res o = Err (ErrTailRead failure) /\ conn_closed o = true))
  /\ (atyp = x04 ->
     (16 + 2 <= len tail ->
      res o = Ok tt /\ conn_closed o = false /\ unread o = skipn (16 + 2) tail)
     /\ (len tail < 16 + 2 ->
         res o = Err (ErrTailRead failure) /\ conn_closed o = true))
  /\ (atyp = x03 ->
     (forall l tail', tail = l :: tail' ->
        (u8 l + 2 <= len tail' ->
         res o = Ok tt /\ conn_closed o = false
         /\ unread o = skipn (Z.to_nat (u8 l) + 2) tail')
        /\ (len tail' < u8 l + 2 ->
            res o = Err (ErrTailRead failure) /\ conn_closed o = true))
     /\ (tail = [] ->
         res o = Err (ErrDomainLenRead failure) /\ conn_closed o = true))
  /\ (atyp <> x01 -> atyp <> x04 -> atyp <> x03 ->
     res o = Err ErrUnknownAtyp /\ conn_closed o = true).
Proof.
  intros Hr Hv o.
  destruct (replied _ _ _ timeout _ _ _ _ _ _ _ _ Hr Hv) as (b & G & P & F & E).
  fold o in E.
  split; [|split; [|split]].
  - intros ->. rewrite (checkReply_fixed rsv x01 4 b) in E by auto.
    destruct (outcome_of_tail timeout b 4 o G ltac:(lia) E) as [H1 H2].
    rewrite P, F in *. auto.
  - intros ->. rewrite (checkReply_fixed rsv x04 16 b) in E by auto.
    destruct (outcome_of_tail timeout b 16 o G ltac:(lia) E) as [H1 H2].
    rewrite P, F in *. auto.
  - intros ->. split.
    + intros l tail' ->.
      destruct (checkReply_domain rsv l b tail' G P)
        as (b1 & P1 & F1 & G1 & _ & E1).
      rewrite E1 in E.
      assert (Hl : 0 <= u8 l) by (unfold u8; lia).
      destruct (outcome_of_tail timeout b1 (u8 l) o G1 Hl E) as [H1 H2].
      rewrite P1, F1, F in *.
      replace (Z.to_nat (u8 l) + 2)%nat with (Z.to_nat (u8 l + 2)) by lia.
      auto.
    + intros ->.
      destruct (checkReply_domain_eof rsv b G P) as (b' & E1 & C & _).
      rewrite E1 in E. rewrite E, <- F. unfold conn_closed. cbn. auto.
  - intros N1 N4 N3.
    rewrite (checkReply_unknown rsv atyp b N1 N4 N3) in E.
    rewrite E. unfold conn_closed. cbn. auto.
Qed.

Lemma bound_address_discarded_witness :
  let o := DialSocks5 friendly (str "127.0.0.1:1080") (str "example.com:80") 5 in
  res o = Ok tt /\ conn_closed o = false /\ unread o = [].
Proof.
  destruct (bound_address_discarded friendly (str "127.0.0.1:1080")
              (str "example.com:80") 5 (x03 :: x0b :: str "example.com") 80
              x00 x01 [x00; x00; x00; x00; x00; x00] EOF) as (H & _).
  - eexists _, _. repeat split.
  - exists (str "example.com"), (str "80"). repeat split; try lia.
    apply (Spec.enc_domain (str "example.com")); [reflexivity|].
    vm_compute. split; discriminate.
  - destruct (H eq_refl) as (H1 & _). apply H1. vm_compute. discriminate.
Defined.

(** C10: there are reply streams on which [DialSocks5] succeeds and takes
    more bytes from the connection than the reply has.  Here the proxy
    sends the ten bytes of the reply and, in the same segment, the five
    bytes "hello": the [bufio.Reader] takes all fifteen from the
    connection, the call returns the connection with nothing left to read,
    and the five bytes stay behind in the reader, out of the caller's
    reach: the next read of the returned connection is the end of the
    stream. *)
Theorem surplus_bytes_lost :
  exists (s : stream) (reply surplus : list byte),
    let o := DialSocks5 (fun _ => Ok (fresh s []))
               (str "127.0.0.1:1080") (str "example.com:80") 5 in
    avail s = [x05; x00] ++ reply ++ surplus
    /\ reply = [x05; x00; x00; x01; x00; x00; x00; x00; x00; x00]
    /\ surplus = str "hello"
    /\ res o = Ok tt
    /\ leftover o = surplus
    /\ exists c,
         conn o = Some c /\ closed c = false
         /\ payload (inbound c) = []
         /\ (List.length (payload s) - List.length (payload (inbound c))
             > 2 + List.length reply)%nat
         /\ fst (Read c 5) = ([], Some EOF).
Proof.
  exists [Data x05 [x00];
          Data x05 ([x00; x00; x01; x00; x00; x00; x00; x00; x00] ++ str "hello")],
         [x05; x00; x00; x01; x00; x00; x00; x00; x00; x00], (str "hello").
  cbn zeta.
  split; [reflexivity|]. split; [reflexivity|]. split; [reflexivity|].
  split; [vm_compute; reflexivity|]. split; [vm_compute; reflexivity|].
  eexists. split; [vm_compute; reflexivity|].
  split; [reflexivity|]. split; [reflexivity|].
  split; [vm_compute; lia|]. vm_compute. reflexivity.
Qed.

End Socks5Reply.

(* ====================================================================== *)
(** * The core runner *)
(* ====================================================================== *)

Module CoreFacts.
Import IO Core Examples.

Lemma gostring_eqb_eq (a b : gostring) : gostring_eqb a b = true <-> a = b.
Proof.
  unfold gostring_eqb. destruct (list_eq_dec Byte.byte_eq_dec a b); split;
    intros; auto; discriminate.
Qed.

Lemma gostring_eqb_refl (a : gostring) : gostring_eqb a a = true.
Proof. now apply gostring_eqb_eq. Qed.

Lemma gostring_eqb_neq (a b : gostring) : a <> b -> gostring_eqb a b = false.
Proof.
  intros H. destruct (gostring_eqb a b) eqn:E; [|reflexivity].
  apply gostring_eqb_eq in E. contradiction.
Qed.

Lemma Join_inj (dir a b : gostring) : Join dir a = Join dir b -> a = b.
Proof. unfold Join. intros H. now apply app_inv_head in H; apply app_inv_head in H. Qed.

(** The file written as the configuration is still there after the log
    file was created next to it. *)
Lemma config_after_log (fs0 : FS) (dir body : gostring) :
  fs_put (fs_put fs0 (Join dir (str "config.json")) body)
         (Join dir (str "core.log")) []
         (Join dir (str "config.json")) = Ok body.
Proof.
  unfold fs_put. rewrite gostring_eqb_neq, gostring_eqb_refl; [reflexivity|].
  intros E. apply Join_inj in E. discriminate E.
Qed.

(** The document that is serialised has a log section with the level and
    nothing else. *)
Lemma config_log (port : Z) (inboundProtocol logLevel : gostring) (outbound : any) :
  map_get (config port inboundProtocol logLevel outbound) "log"
    = Some (AMap [("loglevel"%string, AString logLevel)]).
Proof. reflexivity. Qed.

(** C2, on the code: in every successful [Start] (the later revision) the
    bytes in the configuration file are the serialisation of the document
    as it was before the log paths were assigned: its log section has the
    level only, neither "access" nor "error".  The paths are in the map
    [cfg] when the function returns, and in the handle, but not in the
    file. *)
Theorem Start_config_without_log_paths
    (MarshalIndent : any -> result ioerr (list byte))
    (ToLower : gostring -> gostring)
    (r : Runner) (outbound : any) (os : OS) (fs0 : FS)
    (st : Started) (eff : Effects) :
  Start MarshalIndent ToLower r outbound os fs0 = (Ok st, eff) ->
  exists dir inboundProtocol logLevel doc body cfg',
    mkdirTemp os = Ok dir
    /\ doc = config (Port r) inboundProtocol logLevel outbound
    /\ MarshalIndent (AMap doc) = Ok body
    /\ ConfigPath st = Join dir (str "config.json")
    /\ fs eff (ConfigPath st) = Ok body
    /\ get_in (AMap doc) ["log"; "loglevel"]%string = Some (AString logLevel)
    /\ get_in (AMap doc) ["log"; "access"]%string = None
    /\ get_in (AMap doc) ["log"; "error"]%string = None
    /\ LogPath st = Join dir (str "core.log")
    /\ AccessLogPath st = Join dir (str "access.log")
    /\ cfg eff = Some cfg'
    /\ get_in (AMap cfg') ["log"; "access"]%string
         = Some (AString (AccessLogPath st))
    /\ get_in (AMap cfg') ["log"; "error"]%string = Some (AString (LogPath st)).
Proof.
  unfold Start. intros E.
  destruct (gostring_eqb (CorePath r) []); [discriminate|].
  destruct (Port r =? 0); [discriminate|].
  set (ip := if gostring_eqb (Strings.TrimSpace (InboundProtocol r)) []
             then str "socks" else Strings.TrimSpace (InboundProtocol r)) in *.
  set (ll := if gostring_eqb (Strings.TrimSpace (LogLevel r)) []
             then str "warning" else Strings.TrimSpace (LogLevel r)) in *.
  destruct (negb (gostring_eqb ip (str "socks"))
            && negb (gostring_eqb ip (str "http"))); [discriminate|].
  destruct (MarshalIndent (AMap (config (Port r) ip ll outbound)))
    as [body|e] eqn:Em; [|discriminate].
  destruct (mkdirTemp os) as [dir|e]; [|discriminate].
  destruct (writeFile os); [discriminate|].
  destruct (create os); [discriminate|].
  destruct (startProcess os); [discriminate|].
  injection E as <- <-.
  exists dir, ip, ll, (config (Port r) ip ll outbound), body. eexists.
  cbn [ConfigPath LogPath AccessLogPath fs cfg].
  repeat split; try reflexivity; auto.
  apply config_after_log.
Qed.

Lemma Start_config_without_log_paths_witness :
  exists st eff dir doc body,
    Start marshal_any (fun s => s)
      {| CorePath := str "/usr/local/bin/xray"; Port := 1080; Timeout := 20;
         InboundProtocol := []; LogLevel := [] |}
      (AMap [("protocol"%string, AString (str "vless"))])
      {| mkdirTemp := Ok (str "/tmp/proxy-node-1"); writeFile := None;
         create := None; startProcess := None |}
      (fun _ => Err (OpError "no such file")) = (Ok st, eff)
    /\ mkdirTemp {| mkdirTemp := Ok (str "/tmp/proxy-node-1"); writeFile := None;
                    create := None; startProcess := None |} = Ok dir
    /\ marshal_any (AMap doc) = Ok body
    /\ fs eff (ConfigPath st) = Ok body
    /\ get_in (AMap doc) ["log"; "access"]%string = None
    /\ get_in (AMap doc) ["log"; "error"]%string = None.
Proof.
  eexists _, _.
  destruct (Start_config_without_log_paths marshal_any (fun s => s)
      {| CorePath := str "/usr/local/bin/xray"; Port := 1080; Timeout := 20;
         InboundProtocol := []; LogLevel := [] |}
      (AMap [("protocol"%string, AString (str "vless"))])
      {| mkdirTemp := Ok (str "/tmp/proxy-node-1"); writeFile := None;
         create := None; startProcess := None |}
      (fun _ => Err (OpError "no such file")) _ _ eq_refl)
    as (dir & ip & ll & doc & body & cfg' & H1 & H2 & H3 & H4 & H5 & H6 & H7
        & H8 & _).
  exists dir, doc, body. repeat split; assumption.
Defined.

(** The earlier revision, src/internal/core/core.go, never mentions the
    log paths: the same holds there. *)
Lemma Start_core_go_config_without_log_paths
    (MarshalIndent : any -> result ioerr (list byte))
    (ToLower : gostring -> gostring)
    (r : Runner) (outbound : any) (os : OS) (fs0 : FS)
    (st : Started) (eff : Effects) :
  Start_core_go MarshalIndent ToLower r outbound os fs0 = (Ok st, eff) ->
  exists doc body,
    doc = config (Port r) (str "socks") (str "warning") outbound
    /\ MarshalIndent (AMap doc) = Ok body
    /\ fs eff (ConfigPath st) = Ok body
    /\ cfg eff = Some doc
    /\ get_in (AMap doc) ["log"; "access"]%string = None
    /\ get_in (AMap doc) ["log"; "error"]%string = None.
Proof.
  unfold Start_core_go. intros E.
  destruct (gostring_eqb (CorePath r) []); [discriminate|].
  destruct (Port r =? 0); [discriminate|].
  destruct (MarshalIndent _) as [body|e] eqn:Em; [|discriminate].
  destruct (mkdirTemp os) as [dir|e]; [|discriminate].
  destruct (writeFile os); [discriminate|].
  destruct (create os); [discriminate|].
  destruct (startProcess os); [discriminate|].
  injection E as <- <-.
  eexists _, body. cbn [ConfigPath fs cfg].
  repeat split; try reflexivity; auto.
  apply config_after_log.
Qed.

(** C9: [ReadLogTail] is a total function to strings: it has no failure
    to report.  On the nil handle, an empty log path, or a file that cannot
    be read it returns the empty string; otherwise it returns the end of
    the file: at most 4000 bytes, the whole file when it has at most 4000
    bytes, and its last 4000 bytes when it has more. *)
Theorem ReadLogTail_tail (fs : FS) :
  ReadLogTail None fs = []
  /\ (forall st, LogPath st = [] -> ReadLogTail (Some st) fs = [])
  /\ (forall st e, fs (LogPath st) = Err e -> ReadLogTail (Some st) fs = [])
  /\ (forall st b,
        LogPath st <> [] -> fs (LogPath st) = Ok b ->
        let t := ReadLogTail (Some st) fs in
        len t <= 4000
        /\ (len b <= 4000 -> t = b)
        /\ (4000 < len b -> len t = 4000 /\ exists front, b = front ++ t)).
Proof.
  split; [reflexivity|]. split; [|split].
  - intros st H. unfold ReadLogTail. now rewrite H.
  - intros st e H. unfold ReadLogTail. rewrite H.
    now destruct (gostring_eqb (LogPath st) []).
  - intros st b Hp Hf. unfold ReadLogTail.
    rewrite (gostring_eqb_neq _ _ Hp), Hf. cbn zeta.
    destruct (Z.gtb_spec (len b) 4000) as [Hl|Hl].
    + assert (Hlen : len (slice_from b (len b - 4000)) = 4000).
      { unfold slice_from, len in *. rewrite length_skipn. lia. }
      repeat split; try lia.
      exists (firstn (Z.to_nat (len b - 4000)) b).
      unfold slice_from. now rewrite firstn_skipn.
    + repeat split; try lia; auto.
Qed.

Lemma ReadLogTail_tail_witness :
  let st := {| cmd := {| Path := str "xray"; Args := []; Stdout := str "/t/core.log";
                         Stderr := str "/t/core.log" |};
               ConfigPath := str "/t/config.json"; LogPath := str "/t/core.log";
               AccessLogPath := str "/t/access.log" |} in
  let fs : FS := fun _ => Ok (repeat x61 3000 ++ repeat x62 4000) in
  let t := ReadLogTail (Some st) fs in
  len t <= 4000
  /\ (len (repeat x61 3000 ++ repeat x62 4000) <= 4000 ->
      t = repeat x61 3000 ++ repeat x62 4000)
  /\ (4000 < len (repeat x61 3000 ++ repeat x62 4000) ->
      len t = 4000 /\ exists front, repeat x61 3000 ++ repeat x62 4000 = front ++ t).
Proof.
  cbn zeta.
  apply (proj2 (proj2 (proj2 (ReadLogTail_tail
           (fun _ => Ok (repeat x61 3000 ++ repeat x62 4000))))));
    [discriminate|reflexivity].
Defined.

End CoreFacts.

(* ====================================================================== *)
(** * The speed harness *)
(* ====================================================================== *)

Module CopyFacts.
Import IO Laws.

Lemma blackHoleSize_pos : (0 < blackHoleSize)%nat.
Proof. unfold blackHoleSize. lia. Qed.

Lemma copyBufSize_pos : (0 < copyBufSize)%nat.
Proof. unfold copyBufSize. lia. Qed.

(** [io.LimitedReader] keeps to its view when the reader it limits does. *)
Section Limited.
Context {R : Type} `{StreamLaws R}.

Lemma Limited_Read_some (l : LimitedReader R) (n : nat) :
  good l -> (0 < n)%nat -> pending l <> [] ->
  exists k l',
    Read l n = ((firstn k (pending l), None), l')
    /\ (0 < k <= n)%nat /\ (k <= List.length (pending l))%nat
    /\ pending l' = skipn k (pending l) /\ failure l' = failure l
    /\ good l' /\ reads l l' /\ (bound l' + k <= bound l)%nat.
Proof.
  intros Hg Hn Hp. cbn in Hg, Hp |- *. unfold LimitedReader_Read.
  assert (HN : 0 < LN l).
  { destruct (Z.ltb_spec 0 (LN l)); auto.
    replace (Z.to_nat (LN l)) with O in Hp by lia. now cbn in Hp. }
  assert (HpR : pending (LR l) <> []).
  { intros E. rewrite E, firstn_nil in Hp. now apply Hp. }
  destruct (Z.leb_spec (LN l) 0); [lia|].
  set (n' := if Z.of_nat n >? LN l then Z.to_nat (LN l) else n).
  assert (Hn' : (0 < n' <= n)%nat /\ (n' <= Z.to_nat (LN l))%nat).
  { unfold n'. destruct (Z.gtb_spec (Z.of_nat n) (LN l)); lia. }
  destruct (Read_some (LR l) n' Hg ltac:(lia) HpR)
    as (k & r' & -> & Hk & Hkl & Hp' & Hf' & Hg' & Hr' & Hb').
  exists k. eexists. split.
  { rewrite firstn_firstn. replace (Nat.min k (Z.to_nat (LN l))) with k by lia.
    reflexivity. }
  assert (Hlen : List.length (firstn k (pending (LR l))) = k)
    by (rewrite length_firstn; lia).
  cbn [LR LN]. unfold len. rewrite Hlen, Hp', Hf', length_skipn, length_firstn.
  repeat split; auto; try lia.
  - replace (Z.to_nat (LN l - Z.of_nat k)) with (Z.to_nat (LN l) - k)%nat by lia.
    rewrite firstn_skipn_comm.
    now replace (k + (Z.to_nat (LN l) - k))%nat with (Z.to_nat (LN l)) by lia.
  - destruct (Z.leb_spec (LN l - Z.of_nat k)
                (Z.of_nat (List.length (pending (LR l)) - k)));
      destruct (Z.leb_spec (LN l) (Z.of_nat (List.length (pending (LR l)))));
      auto; lia.
Qed.

Lemma Limited_Read_none (l : LimitedReader R) (n : nat) :
  good l -> (0 < n)%nat -> pending l = [] ->
  exists l', Read l n = (([], Some (failure l)), l') /\ reads l l'.
Proof.
  intros Hg Hn Hp. cbn in Hg, Hp |- *. unfold LimitedReader_Read.
  destruct (Z.leb_spec (LN l) 0) as [HN|HN].
  - exists l. split; [|apply reads_refl].
    destruct (Z.leb_spec (LN l) (len (pending (LR l)))); [reflexivity|].
    unfold len in *. lia.
  - assert (HpR : pending (LR l) = []).
    { destruct (pending (LR l)) as [|x xs]; [reflexivity|].
      destruct (Z.to_nat (LN l)) eqn:E; [lia|]. discriminate Hp. }
    set (n' := if Z.of_nat n >? LN l then Z.to_nat (LN l) else n).
    assert (Hn' : (0 < n')%nat).
    { unfold n'. destruct (Z.gtb_spec (Z.of_nat n) (LN l)); lia. }
    destruct (Read_none (LR l) n' Hg Hn' HpR) as (r' & -> & Hr').
    exists {| LR := r'; LN := LN l - len (@nil byte) |}.
    split; [|exact Hr']. rewrite HpR. cbn.
    destruct (Z.leb_spec (LN l) 0); [lia|]. reflexivity.
Qed.

#[global] Instance LimitedReader_Laws : StreamLaws (LimitedReader R).
Proof.
  split.
  - intros l. cbn. apply reads_refl.
  - intros a b c. cbn. apply reads_trans.
  - apply Limited_Read_some.
  - apply Limited_Read_none.
  - intros l. cbn. lia.
Qed.

End Limited.

(** Reading a lawful reader to its end counts its pending bytes; the end
    of the stream is no error. *)
Section Discard.
Context {R : Type} `{StreamLaws R}.

Lemma discardReadFrom_all (turns : nat) :
  forall (r : R) (n : Z),
    good r -> (bound r <= turns)%nat ->
    exists r',
      discardReadFrom turns r n =
        ((n + len (pending r),
          if is_EOF (failure r) then None else Some (failure r)), r')
      /\ reads r r'.
Proof.
  induction turns as [|turns IH]; intros r n Hg Hb.
  - pose proof (bound_pos r). lia.
  - cbn [discardReadFrom]. destruct (pending r) as [|x xs] eqn:Hp.
    + destruct (Read_none r blackHoleSize Hg blackHoleSize_pos Hp)
        as (r' & -> & Hr).
      exists r'. split; [|exact Hr]. cbn. now rewrite Z.add_0_r.
    + destruct (Read_some r blackHoleSize Hg blackHoleSize_pos
                  ltac:(rewrite Hp; discriminate))
        as (k & r1 & -> & Hk & Hkl & Hp1 & Hf1 & Hg1 & Hr1 & Hb1).
      destruct (IH r1 (n + len (firstn k (pending r))) Hg1 ltac:(lia))
        as (r' & -> & Hr').
      exists r'. split; [|eapply reads_trans; eauto].
      rewrite Hp1, Hf1, <- Hp. unfold len.
      rewrite length_firstn, length_skipn.
      replace (n + Z.of_nat (Nat.min k (List.length (pending r)))
               + Z.of_nat (List.length (pending r) - k))
        with (n + Z.of_nat (List.length (pending r))) by lia.
      reflexivity.
Qed.

Lemma CopyDiscard_all (r : R) :
  good r ->
  exists r',
    CopyDiscard r =
      ((len (pending r), if is_EOF (failure r) then None else Some (failure r)),
       r')
    /\ reads r r'.
Proof.
  intros Hg. destruct (discardReadFrom_all (bound r) r 0 Hg (le_n _))
    as (r' & E & Hr).
  exists r'. unfold CopyDiscard. rewrite E. auto.
Qed.

End Discard.

(** [io.CopyN] into [io.Discard]: the budget when that many bytes are
    pending, else what is pending and the failure of the source, which is
    [io.EOF] when the source ended. *)
Lemma CopyNDiscard_budget {R : Type} `{StreamLaws R} (r : R) (n : Z) :
  good r -> 0 < n ->
  (n <= len (pending r) -> exists r', CopyNDiscard r n = ((n, None), r'))
  /\ (len (pending r) < n ->
      exists r',
        CopyNDiscard r n = ((len (pending r), Some (failure r)), r')).
Proof.
  intros Hg Hn. unfold CopyNDiscard.
  assert (Hgl : good (LimitReader r n)) by exact Hg.
  destruct (CopyDiscard_all (LimitReader r n) Hgl) as (l' & -> & _).
  cbn [pending failure LimitedReader_View LimitReader LR LN].
  unfold len. rewrite length_firstn. split; intros Hl.
  - replace (Z.of_nat (Nat.min (Z.to_nat n) (List.length (pending r))))
      with n by lia.
    rewrite Z.eqb_refl. eauto.
  - replace (Z.of_nat (Nat.min (Z.to_nat n) (List.length (pending r))))
      with (Z.of_nat (List.length (pending r))) by lia.
    destruct (Z.eqb_spec (Z.of_nat (List.length (pending r))) n); [lia|].
    destruct (Z.ltb_spec (Z.of_nat (List.length (pending r))) n); [|lia].
    destruct (Z.leb_spec n (Z.of_nat (List.length (pending r)))); [lia|].
    destruct (failure r); cbn; eauto.
Qed.

(** What a read takes from a stream, it takes from the front of its
    payload. *)
Lemma stream_Read_payload (s : stream) (n : nat) :
  let '((bs, e), s') := stream_Read s n in
  payload s' = skipn (List.length bs) (payload s)
  /\ (List.length bs <= n)%nat
  /\ (List.length bs <= List.length (payload s))%nat.
Proof.
  destruct s as [|[b bs|e] r]; cbn [stream_Read payload].
  - cbn. auto with arith.
  - destruct (skipn n (b :: bs)) as [|b' bs'] eqn:E.
    + apply skipn_nil_length in E.
      rewrite skipn_app_short, skipn_all by lia.
      rewrite length_app. cbn [app]. repeat split; lia.
    + pose proof (skipn_cons_length _ _ _ _ E) as Hlt.
      rewrite length_firstn.
      replace (Nat.min n (List.length (b :: bs))) with n by lia.
      rewrite skipn_app_short, E by lia. rewrite length_app.
      cbn [payload]. repeat split; auto; lia.
  - cbn. repeat split; lia.
Qed.

(** Reading through a limit takes no more than the limit from the stream
    below, and the count returned is the number of bytes taken. *)
Lemma discardReadFrom_limited (turns : nat) :
  forall (l : LimitedReader stream) (n : Z),
    exists k : nat,
      payload (LR (snd (discardReadFrom turns l n)))
        = skipn k (payload (LR l))
      /\ Z.of_nat k <= Z.max 0 (LN l)
      /\ fst (fst (discardReadFrom turns l n)) = n + Z.of_nat k.
Proof.
  induction turns as [|turns IH]; intros l n.
  - exists O. cbn. split; [reflexivity|]. lia.
  - cbn [discardReadFrom]. cbn [Read LimitedReader_Reader].
    unfold LimitedReader_Read.
    destruct (Z.leb_spec (LN l) 0) as [HN|HN].
    + exists O. cbn. split; [reflexivity|]. lia.
    + set (n' := if Z.of_nat blackHoleSize >? LN l
                 then Z.to_nat (LN l) else blackHoleSize).
      assert (Hn' : Z.of_nat n' <= LN l).
      { unfold n'. destruct (Z.gtb_spec (Z.of_nat blackHoleSize) (LN l)); lia. }
      cbn [Read stream_Reader].
      pose proof (stream_Read_payload (LR l) n') as P.
      destruct (stream_Read (LR l) n') as [[bs e] s'].
      destruct P as (P1 & P2 & P3).
      destruct e as [e|].
      * exists (List.length bs). cbn. unfold len. split; [exact P1|]. lia.
      * destruct (IH {| LR := s'; LN := LN l - len bs |} (n + len bs))
          as (k & Q1 & Q2 & Q3).
        exists (List.length bs + k)%nat. cbn [LR LN] in *.
        rewrite Q1, Q3, P1, skipn_skipn. unfold len in *.
        split; [f_equal; lia|]. lia.
Qed.

(** The same for the whole of [io.CopyN] into [io.Discard]: the count it
    returns is the number of bytes it took from the stream. *)
Lemma CopyNDiscard_taken (s : stream) (n : Z) :
  exists k : nat,
    payload (snd (CopyNDiscard s n)) = skipn k (payload s)
    /\ Z.of_nat k <= Z.max 0 n
    /\ fst (fst (CopyNDiscard s n)) = Z.of_nat k.
Proof.
  destruct (discardReadFrom_limited (bound (LimitReader s n)) (LimitReader s n) 0)
    as (k & P & Hk & Hc).
  exists k. unfold CopyNDiscard, CopyDiscard.
  destruct (discardReadFrom _ _ 0) as [[written err] l].
  cbn [fst snd LimitReader LR LN] in P, Hk, Hc. rewrite Z.add_0_l in Hc.
  destruct (Z.eqb_spec written n) as [E|E].
  - cbn [fst snd]. split; [exact P|]. split; [exact Hk|]. congruence.
  - destruct ((written <? n)
              && match err with None => true | Some _ => false end);
      cbn [fst snd]; auto.
Qed.

(** Reading a stream to its end: the count returned is the number of bytes
    taken from it. *)
Lemma discardReadFrom_taken (turns : nat) :
  forall (s : stream) (n : Z),
    exists k : nat,
      payload (snd (discardReadFrom turns s n)) = skipn k (payload s)
      /\ fst (fst (discardReadFrom turns s n)) = n + Z.of_nat k.
Proof.
  induction turns as [|turns IH]; intros s n.
  - exists O. cbn. split; [reflexivity|]. lia.
  - cbn [discardReadFrom]. cbn [Read stream_Reader].
    pose proof (stream_Read_payload s blackHoleSize) as P.
    destruct (stream_Read s blackHoleSize) as [[bs e] s'].
    destruct P as (P1 & P2 & P3).
    destruct e as [e|].
    + exists (List.length bs). cbn. unfold len. split; [exact P1|reflexivity].
    + destruct (IH s' (n + len bs)) as (k & Q1 & Q2).
      exists (List.length bs + k)%nat.
      rewrite Q1, Q2, P1, skipn_skipn. unfold len.
      split; [f_equal; lia|lia].
Qed.

Lemma CopyDiscard_taken (s : stream) :
  exists k : nat,
    payload (snd (CopyDiscard s)) = skipn k (payload s)
    /\ fst (fst (CopyDiscard s)) = Z.of_nat k.
Proof.
  destruct (discardReadFrom_taken (bound s) s 0) as (k & P & C).
  exists k. unfold CopyDiscard. rewrite C. auto.
Qed.

End CopyFacts.

Module Speed.
Import IO Laws CopyFacts Main.

(** C7: in a run of the speed harness that got a response, a status of
    400 or more is a failure and the body is left as it came, not a byte
    read.  With a budget [maxBytes > 0] the harness takes at most
    [maxBytes] bytes from the body, and the count it returns is the number
    of bytes it took: on a body that has [maxBytes] bytes it takes exactly
    [maxBytes] of them and returns [maxBytes]; on a shorter body it takes
    all the body delivers, and returns their number without error when the
    body ends cleanly (a failure of the read that is not the end of the
    stream is an error).  With the budget 0 it reads the body to its end:
    it takes all the bytes the body delivers and returns their number.  So
    a budget of 100 on a longer body gives 100 with 100 bytes taken, and the
    budget 0 on a body of 50 bytes gives 50 with the 50 bytes taken. *)
Theorem speed_budget (http : HTTP) (resp : Response) (maxBytes : Z) :
  newRequest http = None -> roundTrip http = Ok resp ->
  let out := speedHTTP http maxBytes in
  let body := Body resp in
  (400 <= StatusCode resp ->
     fst out = Err (ErrStatus (StatusCode resp))
     /\ snd out = Some (closeBody resp body))
  /\ (StatusCode resp < 400 -> 0 < maxBytes ->
      exists (k : nat) (body' : stream),
        snd out = Some (closeBody resp body')
        /\ payload body' = skipn k (payload body)
        /\ Z.of_nat k <= maxBytes
        /\ (forall n t, fst out = Ok (n, t) -> n = Z.of_nat k /\ t = since http)
        /\ (maxBytes <= len (avail body) ->
            Z.of_nat k = maxBytes /\ fst out = Ok (maxBytes, since http))
        /\ (len (avail body) < maxBytes ->
            k = List.length (avail body)
            /\ fst out = if is_EOF (ending body)
                         then Ok (len (avail body), since http)
                         else Err (ErrBody (ending body))))
  /\ (StatusCode resp < 400 -> maxBytes = 0 ->
      exists body' : stream,
        snd out = Some (closeBody resp body')
        /\ payload body' = skipn (List.length (avail body)) (payload body)
        /\ fst out = if is_EOF (ending body)
                     then Ok (len (avail body), since http)
                     else Err (ErrBody (ending body))).
Proof.
  intros Hn Hd. cbn zeta. unfold speedHTTP. rewrite Hn, Hd.
  assert (Hg : good (Body resp)) by exact I.
  split; [|split].
  - intros Hs. destruct (Z.geb_spec (StatusCode resp) 400); [|lia]. auto.
  - intros Hs Hb. destruct (Z.geb_spec (StatusCode resp) 400); [lia|].
    destruct (Z.gtb_spec maxBytes 0); [|lia].
    destruct (CopyNDiscard_taken (Body resp) maxBytes) as (k & P & Hk & Hc).
    destruct (CopyNDiscard_budget (Body resp) maxBytes Hg Hb) as [Hfull Hshort].
    cbn [pending failure stream_View] in Hfull, Hshort.
    exists k.
    destruct (CopyNDiscard (Body resp) maxBytes) as [[n err] body'] eqn:E.
    cbn [fst snd] in P, Hc. subst n. exists body'.
    assert (Hsnd : snd (match err with
                        | Some e =>
                            if negb (is_EOF e)
                            then (Err (ErrBody e), Some (closeBody resp body'))
                            else (Ok (Z.of_nat k, since http),
                                  Some (closeBody resp body'))
                        | None => (Ok (Z.of_nat k, since http),
                                   Some (closeBody resp body'))
                        end) = Some (closeBody resp body')).
    { destruct err as [e|]; [destruct (negb (is_EOF e))|]; reflexivity. }
    split; [exact Hsnd|]. split; [exact P|]. split; [lia|].
    split; [|split].
    + intros n t. destruct err as [e|]; [destruct (negb (is_EOF e))|];
        cbn [fst]; intros Hok; [discriminate Hok| |];
        injection Hok as <- <-; auto.
    + intros Hl. destruct (Hfull Hl) as (r' & Er).
      injection Er as -> -> _. auto.
    + intros Hl. destruct (Hshort Hl) as (r' & Er).
      injection Er as Ek -> _. unfold len in Ek.
      split; [lia|]. unfold len. rewrite <- Ek.
      destruct (is_EOF (ending (Body resp))); reflexivity.
  - intros Hs -> . destruct (Z.geb_spec (StatusCode resp) 400); [lia|].
    cbn [Z.gtb Z.compare].
    destruct (CopyDiscard_taken (Body resp)) as (k & P & Hc).
    destruct (CopyDiscard_all (Body resp) Hg) as (r' & E & _).
    cbn [pending failure stream_View] in E.
    rewrite E in P, Hc |- *. cbn [fst snd] in P, Hc.
    assert (Hk : k = List.length (avail (Body resp))) by (unfold len in Hc; lia).
    subst k. exists r'.
    destruct (is_EOF (ending (Body resp))); auto.
Qed.

Lemma speed_budget_witness :
  let long := {| StatusCode := 200;
                 Body := [Data x61 (repeat x61 89); Data x62 (repeat x62 59)];
                 bodyClosed := false |} in
  let short := {| StatusCode := 200; Body := [Data x61 (repeat x61 49)];
                  bodyClosed := false |} in
  fst (speedHTTP {| newRequest := None; roundTrip := Ok long; since := 7 |} 100)
    = Ok (100, 7)
  /\ fst (speedHTTP {| newRequest := None; roundTrip := Ok short; since := 7 |} 0)
     = Ok (50, 7).
Proof.
  cbn zeta. split.
  - destruct (speed_budget
                {| newRequest := None;
                   roundTrip := Ok {| StatusCode := 200;
                                      Body := [Data x61 (repeat x61 89);
                                               Data x62 (repeat x62 59)];
                                      bodyClosed := false |};
                   since := 7 |} _ 100 eq_refl eq_refl) as (_ & H & _).
    destruct H as (k & body' & _ & _ & _ & _ & H & _);
      [reflexivity|reflexivity|].
    apply H. vm_compute. discriminate.
  - destruct (speed_budget
                {| newRequest := None;
                   roundTrip := Ok {| StatusCode := 200;
                                      Body := [Data x61 (repeat x61 49)];
                                      bodyClosed := false |};
                   since := 7 |} _ 0 eq_refl eq_refl) as (_ & _ & H).
    destruct H as (body' & _ & _ & H); [reflexivity|reflexivity|].
    exact H.
Defined.

End Speed.

(* ====================================================================== *)
(** * The metered relay *)
(* ====================================================================== *)

Module Relay.
Import IO TCP Laws CopyFacts Main.

Lemma Write_accepting (c : Conn) (p : list byte) :
  accepting c ->
  exists c',
    Write c p = ((List.length p, None), c')
    /\ accepting c' /\ inbound c' = inbound c /\ deadline c' = deadline c.
Proof.
  intros (Hc & Hw & Hs). cbn. unfold Conn_Write. rewrite Hc, Hw. cbn.
  destruct (wscript c) as [|e r] eqn:E.
  - eexists. split; [reflexivity|]. unfold accepting. cbn. auto.
  - inversion Hs as [|? ? He Hr]. subst e.
    eexists. split; [reflexivity|]. unfold accepting. cbn. auto.
Qed.

(** [io.Copy] from an open connection into one that takes every write
    returns the number of bytes the source had pending. *)
Lemma copyBuffer_all (turns : nat) :
  forall (dst src : Conn) (written : Z),
    accepting dst -> closed src = false -> (bound src <= turns)%nat ->
    exists dst' src' err,
      copyBuffer turns dst src written
        = ((written + len (avail (inbound src)), err), (dst', src'))
      /\ accepting dst' /\ inbound dst' = inbound dst
      /\ same_but_inbound src src'.
Proof.
  induction turns as [|turns IH]; intros dst src written Ha Hc Hb.
  - pose proof (bound_pos src). lia.
  - assert (Hg : good src) by exact Hc.
    cbn [copyBuffer]. destruct (avail (inbound src)) as [|x xs] eqn:Hp.
    + destruct (Read_none src copyBufSize Hg copyBufSize_pos Hp)
        as (src' & -> & Hr).
      cbn [List.length Nat.ltb Nat.leb].
      exists dst, src'. eexists. split; [|auto].
      cbn [len List.length]. rewrite Z.add_0_r. reflexivity.
    + assert (Hne : pending src <> []) by (cbn; rewrite Hp; discriminate).
      destruct (Read_some src copyBufSize Hg copyBufSize_pos Hne)
        as (k & src1 & -> & Hk & Hkl & Hp1 & Hf1 & Hg1 & Hr1 & Hb1).
      cbn [pending Conn_View] in *. rewrite Hp in *.
      assert (Hlen : List.length (firstn k (x :: xs)) = k)
        by (rewrite length_firstn; lia).
      rewrite Hlen.
      destruct (Nat.ltb_spec 0 k) as [_|]; [|lia].
      destruct (Write_accepting dst (firstn k (x :: xs)) Ha)
        as (dst1 & -> & Ha1 & Hi1 & _).
      rewrite Hlen. rewrite Nat.ltb_irrefl, Nat.eqb_refl. cbn [negb].
      destruct (IH dst1 src1 (written + Z.of_nat k) Ha1 Hg1 ltac:(lia))
        as (dst' & src' & err & -> & Ha' & Hi' & Hr').
      exists dst', src', err. split.
      * rewrite Hp1. unfold len. rewrite length_skipn.
        replace (written + Z.of_nat k
                 + Z.of_nat (List.length (x :: xs) - k))
          with (written + Z.of_nat (List.length (x :: xs))) by lia.
        reflexivity.
      * split; [exact Ha'|]. split; [congruence|].
        eapply same_but_inbound_trans; eauto.
Qed.

Lemma Copy_all (dst src : Conn) :
  accepting dst -> closed src = false ->
  exists dst' src' err,
    Copy dst src = ((len (avail (inbound src)), err), (dst', src'))
    /\ accepting dst' /\ inbound dst' = inbound dst
    /\ same_but_inbound src src'.
Proof.
  intros Ha Hc. unfold Copy.
  destruct (copyBuffer_all (bound src) dst src 0 Ha Hc (le_n _))
    as (dst' & src' & err & E & P).
  exists dst', src', err. rewrite E. auto.
Qed.

Lemma accepting_same (c c' : Conn) :
  same_but_inbound c c' -> accepting c -> accepting c'.
Proof.
  unfold same_but_inbound, accepting. intros (A & B & C & D & E) (F & G & H).
  rewrite A, C, D. auto.
Qed.

Lemma Uint64_Add_uint64 (x n : Z) :
  Uint64_Add x (uint64 n) = (x + n) mod 2 ^ 64.
Proof. unfold Uint64_Add, uint64. now rewrite Zplus_mod_idemp_r. Qed.

(** The update of the meter, in numbers. *)
Lemma account_up (n : Z) (m : trafficMeter) :
  0 <= n -> 0 <= upTotal m < 2 ^ 64 ->
  upTotal (account Uplink n m) = (upTotal m + n) mod 2 ^ 64
  /\ downTotal (account Uplink n m) = downTotal m.
Proof.
  intros Hn Hm. unfold account. destruct (Z.gtb_spec n 0); cbn.
  - now rewrite Uint64_Add_uint64.
  - replace n with 0 by lia. rewrite Z.add_0_r, Z.mod_small by lia. auto.
Qed.

Lemma account_down (n : Z) (m : trafficMeter) :
  0 <= n -> 0 <= downTotal m < 2 ^ 64 ->
  downTotal (account Downlink n m) = (downTotal m + n) mod 2 ^ 64
  /\ upTotal (account Downlink n m) = upTotal m.
Proof.
  intros Hn Hm. unfold account. destruct (Z.gtb_spec n 0); cbn.
  - now rewrite Uint64_Add_uint64.
  - replace n with 0 by lia. rewrite Z.add_0_r, Z.mod_small by lia. auto.
Qed.

(** One step of a goroutine keeps both invariants. *)
Lemma step_goroutine_inv (m0 : trafficMeter) (nu nd : Z) (d : direction)
    (m m' : trafficMeter) (r r' : relay) :
  in_range m0 -> 0 <= nu -> 0 <= nd ->
  up_inv m0 nu m r -> down_inv m0 nd m r ->
  step_goroutine d m r = Some (m', r') ->
  up_inv m0 nu m' r' /\ down_inv m0 nd m' r'.
Proof.
  intros (Ru & Rd) Hnu Hnd Hu Hd E. unfold up_inv, down_inv in *.
  destruct d; cbn [step_goroutine] in E.
  - (* the uplink goroutine moves *)
    destruct (up r) as [|n| |] eqn:Eu.
    + destruct Hu as (U1 & U2 & U3 & U4).
      destruct (Copy_all (target r) (client r) U4 U2)
        as (t' & c' & err & Ec & At & It & Sc).
      rewrite Ec in E. injection E as <- <-. cbn [up down client target].
      split; [split; [lia|exact U1]|].
      destruct (down r); auto.
      destruct Hd as (D1 & D2 & D3 & D4).
      split; [exact D1|]. split; [apply At|]. split; [now rewrite It|].
      exact (accepting_same _ _ Sc D4).
    + injection E as <- <-. cbn [up down client target].
      destruct Hu as (-> & U).
      destruct (account_up nu m Hnu ltac:(lia)) as (A1 & A2).
      split; [now rewrite A1, U|].
      destruct (down r); rewrite A2; exact Hd.
    + injection E as <- <-. cbn [up down client target].
      split; [exact Hu|].
      destruct (down r); auto.
    + discriminate.
  - (* the downlink goroutine moves *)
    destruct (down r) as [|n| |] eqn:Ed.
    + destruct Hd as (D1 & D2 & D3 & D4).
      destruct (Copy_all (client r) (target r) D4 D2)
        as (c' & t' & err & Ec & Ac & Ic & St).
      rewrite Ec in E. injection E as <- <-. cbn [up down client target].
      split; [|split; [lia|exact D1]].
      destruct (up r); auto.
      destruct Hu as (U1 & U2 & U3 & U4).
      split; [exact U1|]. split; [apply Ac|]. split; [now rewrite Ic|].
      exact (accepting_same _ _ St U4).
    + injection E as <- <-. cbn [up down client target].
      destruct Hd as (-> & D).
      destruct (account_down nd m Hnd ltac:(lia)) as (A1 & A2).
      split; [|now rewrite A1, D].
      destruct (up r); rewrite A2; exact Hu.
    + injection E as <- <-. cbn [up down client target].
      split; [|exact Hd].
      destruct (up r); auto.
    + discriminate.
Qed.

Lemma run_inv (m0 : trafficMeter) (nu nd : Z) (sched : list direction) :
  forall (m : trafficMeter) (r : relay),
    in_range m0 -> 0 <= nu -> 0 <= nd ->
    up_inv m0 nu m r -> down_inv m0 nd m r ->
    up_inv m0 nu (fst (run sched m r)) (snd (run sched m r))
    /\ down_inv m0 nd (fst (run sched m r)) (snd (run sched m r)).
Proof.
  induction sched as [|d sched IH]; intros m r Hr Hnu Hnd Hu Hd; cbn [run].
  - auto.
  - destruct (step_goroutine d m r) as [[m' r']|] eqn:E.
    + destruct (step_goroutine_inv m0 nu nd d m m' r r' Hr Hnu Hnd Hu Hd E).
      now apply IH.
    + now apply IH.
Qed.

(** A relayed connection that has run to its end has added to each counter,
    modulo 2^64, the number of bytes that were pending in its direction. *)
Lemma run_finished (m : trafficMeter) (c t : Conn) (sched : list direction) :
  in_range m -> accepting c -> accepting t ->
  finished (snd (run sched m (relayConn_start c t))) = true ->
  upTotal (fst (run sched m (relayConn_start c t)))
    = (upTotal m + len (avail (inbound c))) mod 2 ^ 64
  /\ downTotal (fst (run sched m (relayConn_start c t)))
     = (downTotal m + len (avail (inbound t))) mod 2 ^ 64.
Proof.
  intros Hr Hc Ht Hf.
  destruct (run_inv m (len (avail (inbound c))) (len (avail (inbound t)))
              sched m (relayConn_start c t) Hr)
    as (Hu & Hd).
  - unfold len. lia.
  - unfold len. lia.
  - unfold up_inv. cbn. split; [reflexivity|]. split; [apply Hc|]. auto.
  - unfold down_inv. cbn. split; [reflexivity|]. split; [apply Ht|]. auto.
  - unfold up_inv, down_inv, finished in *.
    destruct (up (snd (run sched m (relayConn_start c t))));
      try discriminate Hf.
    destruct (down (snd (run sched m (relayConn_start c t))));
      try discriminate Hf.
    auto.
Qed.

Lemma mod_same (x : Z) : 0 <= x < 2 ^ 64 -> x = (x + 0) mod 2 ^ 64.
Proof. intros H. now rewrite Z.add_0_r, Z.mod_small. Qed.

Lemma mod_range (x : Z) : 0 <= x mod 2 ^ 64 < 2 ^ 64.
Proof. apply Z.mod_pos_bound. lia. Qed.

(** A goroutine changes the meter in one step only: the update, when the
    count it holds is positive; that step takes it past the update. *)
Lemma step_goroutine_single_add (d : direction) (m m' : trafficMeter)
    (r r' : relay) :
  step_goroutine d m r = Some (m', r') ->
  m' = m
  \/ exists n, 0 < n /\ pcOf d r = AtAdd n /\ pcOf d r' = AtCloseWrite
               /\ m' = account d n m /\ adds d r <> (0, 0).
Proof.
  intros E. destruct d; cbn [step_goroutine] in E; unfold adds, pcOf.
  - destruct (up r) as [|n| |] eqn:Eu.
    + destruct (Copy (target r) (client r)) as [[n e] [t' c']].
      injection E as <- <-. auto.
    + injection E as <- <-. cbn [up].
      destruct (n >? 0) eqn:G.
      * right. exists n. split; [lia|]. do 3 (split; [reflexivity|]).
        intros Habs. injection Habs as Habs. lia.
      * left. unfold account. now rewrite G.
    + injection E as <- <-. auto.
    + discriminate.
  - destruct (down r) as [|n| |] eqn:Ed.
    + destruct (Copy (client r) (target r)) as [[n e] [c' t']].
      injection E as <- <-. auto.
    + injection E as <- <-. cbn [down].
      destruct (n >? 0) eqn:G.
      * right. exists n. split; [lia|]. do 3 (split; [reflexivity|]).
        intros Habs. injection Habs as Habs. lia.
      * left. unfold account. now rewrite G.
    + injection E as <- <-. auto.
    + discriminate.
Qed.

(** What a step of a goroutine does to the meter is what [adds] says,
    modulo 2^64. *)
Lemma step_goroutine_meter (d : direction) (m m' : trafficMeter)
    (r r' : relay) :
  step_goroutine d m r = Some (m', r') -> in_range m ->
  0 <= fst (adds d r) /\ 0 <= snd (adds d r) /\ in_range m'
  /\ upTotal m' = (upTotal m + fst (adds d r)) mod 2 ^ 64
  /\ downTotal m' = (downTotal m + snd (adds d r)) mod 2 ^ 64.
Proof.
  intros E (Ru & Rd). unfold in_range.
  destruct d; cbn [step_goroutine] in E; unfold adds.
  - destruct (up r) as [|n| |].
    + destruct (Copy (target r) (client r)) as [[n e] [t' c']].
      injection E as <- <-. cbn. rewrite <- !mod_same by lia. lia.
    + injection E as <- <-. unfold account.
      destruct (Z.gtb_spec n 0); cbn [fst snd upTotal downTotal].
      * rewrite Uint64_Add_uint64, <- (mod_same (downTotal m)) by lia.
        pose proof (mod_range (upTotal m + n)). lia.
      * rewrite <- !mod_same by lia. lia.
    + injection E as <- <-. cbn. rewrite <- !mod_same by lia. lia.
    + discriminate.
  - destruct (down r) as [|n| |].
    + destruct (Copy (client r) (target r)) as [[n e] [c' t']].
      injection E as <- <-. cbn. rewrite <- !mod_same by lia. lia.
    + injection E as <- <-. unfold account.
      destruct (Z.gtb_spec n 0); cbn [fst snd upTotal downTotal].
      * rewrite Uint64_Add_uint64, <- (mod_same (upTotal m)) by lia.
        pose proof (mod_range (downTotal m + n)). lia.
      * rewrite <- !mod_same by lia. lia.
    + injection E as <- <-. cbn. rewrite <- !mod_same by lia. lia.
    + discriminate.
Qed.

Lemma step_meter (s s' : session) (u d : Z) :
  step s (u, d) s' -> in_range (meter s) ->
  0 <= u /\ 0 <= d /\ in_range (meter s')
  /\ upTotal (meter s') = (upTotal (meter s) + u) mod 2 ^ 64
  /\ downTotal (meter s') = (downTotal (meter s) + d) mod 2 ^ 64.
Proof.
  intros St Hr. remember (u, d) as l eqn:El.
  destruct St as [s0 c t|s0 pre post r r' dir m' Hrel Hstep].
  - injection El as <- <-. cbn [meter]. destruct Hr as (Ru & Rd).
    rewrite <- !mod_same by lia. unfold in_range. lia.
  - pose proof (step_goroutine_meter dir (meter s0) m' r r' Hstep Hr) as P.
    rewrite El in P. exact P.
Qed.

Lemma steps_meter (s s' : session) (l : Z * Z) :
  steps s l s' -> in_range (meter s) ->
  0 <= fst l /\ 0 <= snd l /\ in_range (meter s')
  /\ upTotal (meter s') = (upTotal (meter s) + fst l) mod 2 ^ 64
  /\ downTotal (meter s') = (downTotal (meter s) + snd l) mod 2 ^ 64.
Proof.
  induction 1 as [s|s s1 s2 u d u' d' St Sts IH]; intros Hr.
  - cbn [fst snd]. destruct Hr as (Ru & Rd).
    rewrite <- !mod_same by lia. unfold in_range. lia.
  - destruct (step_meter s s1 u d St Hr) as (A1 & A2 & A3 & A4 & A5).
    destruct (IH A3) as (B1 & B2 & B3 & B4 & B5). cbn [fst snd] in *.
    rewrite B4, B5, A4, A5, !Zplus_mod_idemp_l.
    rewrite !Z.add_assoc. repeat split; try lia; apply B3.
Qed.

(** C8 (as amended): in a relayed connection the count that
    [io.Copy(target, client)] returns goes to the uplink counter and the
    count that [io.Copy(client, target)] returns to the downlink counter;
    a goroutine changes the meter in a single step, the atomic add, and
    only when its count is positive.  The counters are 64-bit and the add
    wraps around: along any steps of a session each counter is the sum of
    what was added, modulo 2^64, and it does not decrease as long as the
    sum stays below 2^64.  A connection that has run to its end, under any
    schedule, has added the bytes pending from the client to the uplink
    counter and those pending from the target to the downlink counter,
    modulo 2^64, and exactly when the sums stay below 2^64; the alternating
    schedule of three turns each runs it to its end. *)
Theorem relay_accounting :
  (forall d m r m' r',
      step_goroutine d m r = Some (m', r') ->
      m' = m
      \/ exists n, 0 < n /\ pcOf d r = AtAdd n /\ pcOf d r' = AtCloseWrite
                   /\ m' = account d n m /\ adds d r <> (0, 0))
  /\ (forall m r m' r',
        (up r = AtCopy -> step_goroutine Uplink m r = Some (m', r') ->
         m' = m /\ up r' = AtAdd (fst (fst (Copy (target r) (client r)))))
        /\ (down r = AtCopy -> step_goroutine Downlink m r = Some (m', r') ->
            m' = m /\ down r' = AtAdd (fst (fst (Copy (client r) (target r))))))
  /\ (forall s l1 s1 l2 s2,
        steps s l1 s1 -> steps s1 l2 s2 -> in_range (meter s) ->
        upTotal (meter s2) = (upTotal (meter s) + fst l1 + fst l2) mod 2 ^ 64
        /\ downTotal (meter s2)
           = (downTotal (meter s) + snd l1 + snd l2) mod 2 ^ 64
        /\ (upTotal (meter s) + fst l1 + fst l2 < 2 ^ 64 ->
            upTotal (meter s) <= upTotal (meter s1) <= upTotal (meter s2))
        /\ (downTotal (meter s) + snd l1 + snd l2 < 2 ^ 64 ->
            downTotal (meter s) <= downTotal (meter s1) <= downTotal (meter s2)))
  /\ (forall m c t sched,
        in_range m -> accepting c -> accepting t ->
        finished (snd (run sched m (relayConn_start c t))) = true ->
        let m' := fst (run sched m (relayConn_start c t)) in
        let nu := len (avail (inbound c)) in
        let nd := len (avail (inbound t)) in
        upTotal m' = (upTotal m + nu) mod 2 ^ 64
        /\ downTotal m' = (downTotal m + nd) mod 2 ^ 64
        /\ (upTotal m + nu < 2 ^ 64 -> upTotal m' = upTotal m + nu)
        /\ (downTotal m + nd < 2 ^ 64 -> downTotal m' = downTotal m + nd))
  /\ (forall m c t,
        finished
          (snd (run [Uplink; Downlink; Uplink; Downlink; Uplink; Downlink]
                  m (relayConn_start c t))) = true).
Proof.
  split; [|split; [|split; [|split]]].
  - intros d m r m' r'. apply step_goroutine_single_add.
  - intros m r m' r'. split; intros Hpc E; cbn [step_goroutine] in E;
      rewrite Hpc in E.
    + destruct (Copy (target r) (client r)) as [[n e] [t' c']].
      injection E as <- <-. auto.
    + destruct (Copy (client r) (target r)) as [[n e] [c' t']].
      injection E as <- <-. auto.
  - intros s l1 s1 l2 s2 S1 S2 Hr.
    destruct (steps_meter s s1 l1 S1 Hr) as (A1 & A2 & A3 & A4 & A5).
    destruct (steps_meter s1 s2 l2 S2 A3) as (B1 & B2 & B3 & B4 & B5).
    destruct Hr as (Ru & Rd).
    assert (Eu : upTotal (meter s2)
                 = (upTotal (meter s) + fst l1 + fst l2) mod 2 ^ 64)
      by (now rewrite B4, A4, Zplus_mod_idemp_l).
    assert (Ed : downTotal (meter s2)
                 = (downTotal (meter s) + snd l1 + snd l2) mod 2 ^ 64)
      by (now rewrite B5, A5, Zplus_mod_idemp_l).
    split; [exact Eu|]. split; [exact Ed|]. split; intros Hlt.
    + rewrite Eu, A4, !Z.mod_small by lia. lia.
    + rewrite Ed, A5, !Z.mod_small by lia. lia.
  - intros m c t sched Hr Hc Ht Hf. cbn zeta.
    destruct (run_finished m c t sched Hr Hc Ht Hf) as (Eu & Ed).
    destruct Hr as (Ru & Rd).
    split; [exact Eu|]. split; [exact Ed|]. split; intros Hlt.
    + rewrite Eu, Z.mod_small; [reflexivity|unfold len in *; lia].
    + rewrite Ed, Z.mod_small; [reflexivity|unfold len in *; lia].
  - intros m c t. unfold relayConn_start. cbn [run step_goroutine up down
      client target].
    destruct (Copy t c) as [[n e] [t' c']]. cbn [run step_goroutine up down
      client target].
    destruct (Copy c' t') as [[n' e'] [c'' t'']]. reflexivity.
Qed.

Lemma relay_accounting_witness :
  let c := fresh [Data x61 (repeat x61 499); Data x62 (repeat x62 499)] [] in
  let t := fresh [Data x63 (repeat x63 1999)] [] in
  let m' := fst (run [Uplink; Downlink; Uplink; Downlink; Uplink; Downlink]
                   newTrafficMeter (relayConn_start c t)) in
  upTotal m' = 1000 /\ downTotal m' = 2000.
Proof.
  cbn zeta.
  destruct (proj1 (proj2 (proj2 (proj2 relay_accounting))) newTrafficMeter
              (fresh [Data x61 (repeat x61 499); Data x62 (repeat x62 499)] [])
              (fresh [Data x63 (repeat x63 1999)] [])
              [Uplink; Downlink; Uplink; Downlink; Uplink; Downlink])
    as (_ & _ & Hu & Hd).
  - unfold in_range. cbn. lia.
  - unfold accepting. cbn. auto.
  - unfold accepting. cbn. auto.
  - apply (proj2 (proj2 (proj2 (proj2 relay_accounting)))).
  - split; [apply Hu|apply Hd]; vm_compute; reflexivity.
Defined.

(** C8 as it stands fails when a counter is about to wrap: with the uplink
    counter at 2^64 - 1, relaying a connection whose client sends 1000
    bytes leaves it at 999. *)
Lemma relay_exact_counterexample :
  let m := {| upTotal := 2 ^ 64 - 1; downTotal := 0 |} in
  let c := fresh [Data x61 (repeat x61 999)] [] in
  let t := fresh [] [] in
  let sched := [Uplink; Downlink; Uplink; Downlink; Uplink; Downlink] in
  len (avail (inbound c)) = 1000
  /\ finished (snd (run sched m (relayConn_start c t))) = true
  /\ upTotal (fst (run sched m (relayConn_start c t))) = 999
  /\ ~ Spec.relay_exact_claim.
Proof.
  cbn zeta.
  set (m := {| upTotal := 2 ^ 64 - 1; downTotal := 0 |}).
  set (c := fresh [Data x61 (repeat x61 999)] []).
  set (t := fresh [] []).
  set (sched := [Uplink; Downlink; Uplink; Downlink; Uplink; Downlink]).
  assert (Hl : len (avail (inbound c)) = 1000) by (vm_compute; reflexivity).
  assert (Hf : finished (snd (run sched m (relayConn_start c t))) = true)
    by (vm_compute; reflexivity).
  assert (Hu : upTotal (fst (run sched m (relayConn_start c t))) = 999)
    by (vm_compute; reflexivity).
  do 3 (split; [assumption|]).
  intros Claim.
  destruct (Claim m c t sched) as (_ & _ & Hmono & _).
  - unfold in_range, m. cbn. lia.
  - unfold accepting, c. cbn. auto.
  - unfold accepting, t. cbn. auto.
  - exact Hf.
  - rewrite Hu in Hmono. unfold m in Hmono. cbn in Hmono. lia.
Qed.

End Relay.

(* ====================================================================== *)
(** * More of the SOCKS5 client *)
(* ====================================================================== *)

Module Socks5More.
Import IO TCP Proxy Laws ProxyFacts Examples.

(** ** readFull *)

(** X1: [readFull(r, b)] on any reader that keeps to its view, with
    [len(b) = n]: when at least [n] bytes are pending it stores exactly the
    first [n] of them, returns no error and leaves the rest pending; when
    fewer are pending it stores them all and returns the error that ends
    the stream; with [n = 0] it returns at once, without a read. *)
Theorem readFull_contract {R : Type} `{StreamLaws R} (r : R) (n : nat) :
  good r ->
  ((n <= List.length (pending r))%nat ->
   exists r',
     readFull r n = ((firstn n (pending r), None), r')
     /\ pending r' = skipn n (pending r) /\ failure r' = failure r
     /\ good r')
  /\ ((List.length (pending r) < n)%nat ->
      exists r', readFull r n = ((pending r, Some (failure r)), r'))
  /\ readFull r 0 = (([], None), r).
Proof.
  intros Hg. split; [|split].
  - intros Hn. destruct (readFull_stream r n Hg Hn) as (r' & E & P1 & P2 & P3 & _).
    exists r'. auto.
  - intros Hn. destruct (readFull_short r n Hg Hn) as (r' & E & _).
    exists r'. exact E.
  - reflexivity.
Qed.

Lemma readFull_contract_witness :
  (exists r',
      readFull (fresh [Data x05 []; Data x00 [x01]] []) 2
        = (([x05; x00], None), r')
      /\ avail (inbound r') = [x01])
  /\ exists r',
      readFull (fresh [Data x05 []; Fail ErrClosed; Data x00 []] []) 2
        = (([x05], Some ErrClosed), r').
Proof.
  split.
  - destruct (readFull_contract (fresh [Data x05 []; Data x00 [x01]] []) 2)
      as (H & _); [exact eq_refl|].
    destruct H as (r' & E & P & _); [cbn; lia|].
    exists r'. split; [exact E|exact P].
  - destruct (readFull_contract
                (fresh [Data x05 []; Fail ErrClosed; Data x00 []] []) 2)
      as (_ & H & _); [exact eq_refl|].
    destruct H as (r' & E); [cbn; lia|].
    exists r'. exact E.
Defined.

(** ** The stages, read backwards *)

(** The address stage returns the connection as it got it, or closes it. *)
Lemma address_cases (host : gostring) (c : Conn) :
  (exists addr, address host c = (Ok addr, c))
  \/ address host c = (Err ErrHostInvalid, Close c).
Proof.
  unfold address.
  destruct (match Net.ParseIP host with Some i => Net.To4 i | None => None end);
    [left; eexists; reflexivity|].
  destruct (match Net.ParseIP host with Some i => Net.To16 i | None => None end);
    [left; eexists; reflexivity|].
  cbn zeta.
  destruct ((len (Strings.TrimSpace host) =? 0)
            || (len (Strings.TrimSpace host) >? 255));
    [right; reflexivity|left; eexists; reflexivity].
Qed.

(** The address part does not depend on the connection. *)
Lemma address_any_conn (host : gostring) (addr : list byte) (c c' : Conn) :
  address host c = (Ok addr, c) -> address host c' = (Ok addr, c').
Proof.
  unfold address.
  destruct (match Net.ParseIP host with Some i => Net.To4 i | None => None end).
  { unfold ret. intros E. injection E as <-. reflexivity. }
  destruct (match Net.ParseIP host with Some i => Net.To16 i | None => None end).
  { unfold ret. intros E. injection E as <-. reflexivity. }
  cbn zeta.
  destruct ((len (Strings.TrimSpace host) =? 0)
            || (len (Strings.TrimSpace host) >? 255)).
  - unfold abort. discriminate.
  - unfold ret. intros E. injection E as <-. reflexivity.
Qed.

(** [connect] on a target whose parts are accepted. *)
Lemma connect_accepted (targetAddr host portStr : gostring) (port : Z)
    (addr : list byte) (c : Conn) :
  closed c = false -> wclosed c = false ->
  Net.SplitHostPort targetAddr = Ok (host, portStr) ->
  Strconv.Atoi portStr = Ok port -> 1 <= port <= 65535 ->
  address host c = (Ok addr, c) ->
  connect targetAddr c =
    (match hd None (wscript c) with
     | None => Ok tt
     | Some e => Err (ErrConnectWrite e)
     end,
     {| inbound := inbound c; wscript := tl (wscript c);
        writes := writes c ++ [Spec.connect_request addr port];
        closed := match hd None (wscript c) with
                  | None => false
                  | Some _ => true
                  end;
        wclosed := false; deadline := deadline c |}).
Proof.
  intros Hc Hw Hs Ha Hp He. unfold connect. rewrite Hs, Ha.
  destruct (Z.ltb_spec port 1); [lia|].
  destruct (Z.gtb_spec port 65535); [lia|]. cbn [orb].
  unfold bind. rewrite He.
  rewrite (writeOrAbort_open c _ ErrConnectWrite Hc Hw).
  rewrite PutUint16_port by lia. reflexivity.
Qed.

(** A greeting that succeeds: the write was accepted and the peer answered
    05 00. *)
Lemma greeting_inv (c c' : Conn) :
  closed c = false -> wclosed c = false ->
  greeting c = (Ok tt, c') ->
  hd None (wscript c) = None
  /\ exists rest,
       avail (inbound c) = x05 :: x00 :: rest
       /\ avail (inbound c') = rest
       /\ ending (inbound c') = ending (inbound c)
       /\ wscript c' = tl (wscript c)
       /\ writes c' = writes c ++ [[x05; x01; x00]]
       /\ closed c' = false /\ wclosed c' = false
       /\ deadline c' = deadline c.
Proof.
  intros Hc Hw E.
  destruct (hd None (wscript c)) as [e|] eqn:Hh.
  { unfold greeting, bind in E.
    rewrite (writeOrAbort_open c _ ErrGreetingWrite Hc Hw), Hh in E.
    discriminate E. }
  split; [reflexivity|].
  assert (Hr : ready c) by (unfold ready; auto).
  destruct (avail (inbound c)) as [|b0 [|b1 rest]] eqn:Ha.
  1,2: exfalso; unfold greeting, bind in E;
    destruct (writeOrAbort_ready c [x05; x01; x00] ErrGreetingWrite Hr)
      as (c1 & E1 & Hi & _ & _ & Hc1 & _);
    rewrite E1 in E; unfold readFullOrAbort in E;
    destruct (readFull_short c1 2) as (c2 & E2 & _);
      [exact Hc1|cbn; rewrite Hi, Ha; cbn; lia|];
    rewrite E2 in E; discriminate E.
  destruct (greeting_reply c b0 b1 rest Hr Ha) as (c1 & Hg & P).
  rewrite Hg in E.
  destruct (Byte.eqb b0 x05) eqn:E0; [|discriminate E].
  destruct (Byte.eqb b1 x00) eqn:E1; [|discriminate E].
  apply Byte.byte_dec_bl in E0, E1. subst b0 b1.
  cbn in E. injection E as <-. exists rest. split; [reflexivity|]. exact P.
Qed.

(** A [connect] that succeeds: the target was accepted and the write went
    through. *)
Lemma connect_inv (targetAddr : gostring) (c c' : Conn) :
  closed c = false -> wclosed c = false ->
  connect targetAddr c = (Ok tt, c') ->
  exists host portStr port addr,
    Net.SplitHostPort targetAddr = Ok (host, portStr)
    /\ Strconv.Atoi portStr = Ok port /\ 1 <= port <= 65535
    /\ address host c = (Ok addr, c)
    /\ hd None (wscript c) = None
    /\ inbound c' = inbound c /\ closed c' = false /\ wclosed c' = false
    /\ writes c' = writes c ++ [Spec.connect_request addr port]
    /\ deadline c' = deadline c.
Proof.
  intros Hc Hw E. pose proof E as E0. unfold connect in E.
  destruct (Net.SplitHostPort targetAddr) as [[host portStr]|e] eqn:Hs;
    [|discriminate E].
  destruct (Strconv.Atoi portStr) as [port|e] eqn:Ha; [|discriminate E].
  destruct (Z.ltb_spec port 1); [discriminate E|].
  destruct (Z.gtb_spec port 65535); [discriminate E|].
  cbn [orb] in E. unfold bind in E.
  destruct (address_cases host c) as [(addr & Haddr)|Herr];
    [|rewrite Herr in E; discriminate E].
  clear E.
  rewrite (connect_accepted targetAddr host portStr port addr c Hc Hw Hs Ha
             ltac:(lia) Haddr) in E0.
  destruct (hd None (wscript c)) as [e|]; [discriminate E0|].
  injection E0 as <-.
  exists host, portStr, port, addr. cbn. repeat split; auto; lia.
Qed.

(** A reply stage that succeeds: the header was 05 00 rsv atyp with a
    known address type, and the bound address and port followed in full. *)
Lemma reply_inv (b b' : Bufio.Reader_ Conn) :
  good b -> reply b = (Ok tt, b') ->
  exists rsv atyp tail,
    pending b = x05 :: x00 :: rsv :: atyp :: tail
    /\ ((atyp = x01 /\ 4 + 2 <= len tail)
        \/ (atyp = x04 /\ 16 + 2 <= len tail)
        \/ (atyp = x03
            /\ exists l tail', tail = l :: tail' /\ u8 l + 2 <= len tail')).
Proof.
  intros Hg E. unfold reply, bind in E.
  destruct (Nat.le_gt_cases 4 (List.length (pending b))) as [Hl|Hl].
  2:{ destruct (readFullOrAbort_short b 4 ErrConnectRead Hg Hl) as (b1 & E1 & _).
      rewrite E1 in E. discriminate E. }
  destruct (readFullOrAbort_enough b 4 ErrConnectRead Hg Hl)
    as (b1 & E1 & P1 & F1 & G1 & _).
  rewrite E1 in E.
  destruct (pending b) as [|h0 [|h1 [|h2 [|h3 tail]]]] eqn:Hp;
    try (cbn in Hl; lia).
  cbn [firstn skipn] in E, P1.
  destruct (Byte.byte_eq_dec h0 x05) as [->|N0].
  2:{ rewrite (checkReply_version h0 h1 h2 h3 b1 N0) in E. discriminate E. }
  destruct (Byte.byte_eq_dec h1 x00) as [->|N1].
  2:{ rewrite (checkReply_status h1 h2 h3 b1 N1) in E. discriminate E. }
  exists h2, h3, tail. split; [reflexivity|].
  destruct (Byte.byte_eq_dec h3 x01) as [->|M1].
  { left. split; [reflexivity|].
    rewrite (checkReply_fixed h2 x01 4 b1) in E by auto.
    destruct (discard_tail b1 4 G1 ltac:(lia)) as [_ Hshort].
    destruct (Z.le_gt_cases (4 + 2) (len tail)) as [?|Hlt]; [assumption|].
    destruct Hshort as (b2 & E2 & _); [rewrite P1; lia|].
    rewrite E2 in E. discriminate E. }
  destruct (Byte.byte_eq_dec h3 x04) as [->|M4].
  { right. left. split; [reflexivity|].
    rewrite (checkReply_fixed h2 x04 16 b1) in E by auto.
    destruct (discard_tail b1 16 G1 ltac:(lia)) as [_ Hshort].
    destruct (Z.le_gt_cases (16 + 2) (len tail)) as [?|Hlt]; [assumption|].
    destruct Hshort as (b2 & E2 & _); [rewrite P1; lia|].
    rewrite E2 in E. discriminate E. }
  destruct (Byte.byte_eq_dec h3 x03) as [->|M3].
  2:{ rewrite (checkReply_unknown h2 h3 b1 M1 M4 M3) in E. discriminate E. }
  right. right. split; [reflexivity|].
  destruct tail as [|l tail'].
  { destruct (checkReply_domain_eof h2 b1 G1 P1) as (b2 & E2 & _).
    rewrite E2 in E. discriminate E. }
  exists l, tail'. split; [reflexivity|].
  destruct (checkReply_domain h2 l b1 tail' G1 P1) as (b2 & P2 & F2 & G2 & _ & E2).
  rewrite E2 in E.
  assert (Hu : 0 <= u8 l) by (unfold u8; lia).
  destruct (discard_tail b2 (u8 l) G2 Hu) as [_ Hshort].
  destruct (Z.le_gt_cases (u8 l + 2) (len tail')) as [?|Hlt]; [assumption|].
  destruct Hshort as (b3 & E3 & _); [rewrite P2; lia|].
  rewrite E3 in E. discriminate E.
Qed.

(** X2: [DialSocks5] reports success only when the handshake really
    succeeded: both writes were accepted, the proxy answered the greeting
    with 05 00 and the request with a header 05 00 rsv atyp whose address
    type is 01, 04 or 03, followed by the whole bound address and the two
    bytes of the bound port, and the target split into a host and a port in
    1..65535. *)
Theorem DialSocks5_success_sound (dial : Dialer)
    (socksAddr targetAddr : gostring) (timeout : Z)
    (s : stream) (ws : list (option ioerr)) :
  dial socksAddr = Ok (fresh s ws) ->
  res (DialSocks5 dial socksAddr targetAddr timeout) = Ok tt ->
  hd None ws = None /\ hd None (tl ws) = None
  /\ (exists host portStr port,
         Net.SplitHostPort targetAddr = Ok (host, portStr)
         /\ Strconv.Atoi portStr = Ok port /\ 1 <= port <= 65535)
  /\ exists rsv atyp tail,
       avail s = [x05; x00] ++ [x05; x00; rsv; atyp] ++ tail
       /\ ((atyp = x01 /\ 4 + 2 <= len tail)
           \/ (atyp = x04 /\ 16 + 2 <= len tail)
           \/ (atyp = x03
               /\ exists l tail', tail = l :: tail' /\ u8 l + 2 <= len tail')).
Proof.
  intros Hd Hres. unfold DialSocks5 in Hres. rewrite Hd in Hres.
  set (c0 := if timeout >? 0 then SetDeadline (fresh s ws) (Some timeout)
             else fresh s ws) in Hres.
  assert (H0 : closed c0 = false /\ wclosed c0 = false /\ inbound c0 = s
               /\ wscript c0 = ws).
  { unfold c0. destruct (timeout >? 0); cbn; auto. }
  destruct H0 as (Hc0 & Hw0 & Hi0 & Hs0).
  unfold bind at 1 in Hres.
  destruct (greeting c0) as [[[]|e] c1] eqn:Eg; [|discriminate Hres].
  destruct (greeting_inv c0 c1 Hc0 Hw0 Eg)
    as (Hh & rest & Ha & Ha1 & He1 & Hs1 & _ & Hc1 & Hw1 & _).
  rewrite Hs0 in Hh, Hs1. rewrite Hi0 in Ha.
  destruct (connect targetAddr c1) as [[[]|e] c2] eqn:Ec; [|discriminate Hres].
  destruct (connect_inv targetAddr c1 c2 Hc1 Hw1 Ec)
    as (host & portStr & port & addr & P1 & P2 & P3 & _ & P5 & P6 & P7 & _).
  rewrite Hs1 in P5.
  destruct (reply (Bufio.NewReader c2)) as [[[]|e] br] eqn:Er;
    [|discriminate Hres].
  assert (Hg : good (Bufio.NewReader c2)) by (cbn; auto).
  destruct (reply_inv (Bufio.NewReader c2) br Hg Er) as (rsv & atyp & tail & Hp & Hk).
  cbn in Hp. rewrite P6, Ha1 in Hp.
  split; [exact Hh|]. split; [exact P5|]. split; [eauto 6|].
  exists rsv, atyp, tail. split; [|exact Hk].
  rewrite Ha, Hp. reflexivity.
Qed.

Lemma DialSocks5_success_sound_witness :
  exists rsv atyp tail,
    [x05; x00; x05; x00; x00; x01; x00; x00; x00; x00; x00; x00]
      = [x05; x00] ++ [x05; x00; rsv; atyp] ++ tail
    /\ ((atyp = x01 /\ 4 + 2 <= len tail)
        \/ (atyp = x04 /\ 16 + 2 <= len tail)
        \/ (atyp = x03
            /\ exists l tail', tail = l :: tail' /\ u8 l + 2 <= len tail')).
Proof.
  destruct (DialSocks5_success_sound friendly (str "127.0.0.1:1080")
              (str "example.com:80") 5
              [Data x05 [x00];
               Data x05 [x00; x00; x01; x00; x00; x00; x00; x00; x00]] [])
    as (_ & _ & _ & H).
  - reflexivity.
  - vm_compute. reflexivity.
  - exact H.
Defined.

(** ** The spelling of the port *)

Lemma Atoi_plus (d : byte) (ds : gostring) :
  Strconv.isDigit d = true ->
  Strconv.Atoi ("+"%byte :: d :: ds) = Strconv.Atoi (d :: ds).
Proof.
  intros Hd. unfold Strconv.Atoi.
  change (Byte.eqb "+" "-") with false. change (Byte.eqb "+" "+") with true.
  cbn [orb].
  assert (Byte.eqb d "-" = false /\ Byte.eqb d "+" = false) as [-> ->].
  { split; apply eqb_neq; intros ->; discriminate Hd. }
  reflexivity.
Qed.

Lemma Atoi_zero (d : byte) (ds : gostring) :
  Strconv.isDigit d = true ->
  Strconv.Atoi ("0"%byte :: d :: ds) = Strconv.Atoi (d :: ds).
Proof.
  intros Hd. unfold Strconv.Atoi.
  change (Byte.eqb "0" "-") with false. change (Byte.eqb "0" "+") with false.
  assert (Byte.eqb d "-" = false /\ Byte.eqb d "+" = false) as [-> ->].
  { split; apply eqb_neq; intros ->; discriminate Hd. }
  cbn [orb]. reflexivity.
Qed.

(** X3: the port of the target is read by [strconv.Atoi], so a plus sign
    or a zero in front of its digits changes nothing: the call behaves as
    for the port without them, reply and all. *)
Theorem port_spelling (dial : Dialer) (socksAddr t t' : gostring)
    (timeout : Z) (host : gostring) (d : byte) (ds : gostring) :
  Strconv.isDigit d = true ->
  Net.SplitHostPort t = Ok (host, d :: ds) ->
  Net.SplitHostPort t' = Ok (host, "+"%byte :: d :: ds)
  \/ Net.SplitHostPort t' = Ok (host, "0"%byte :: d :: ds) ->
  DialSocks5 dial socksAddr t' timeout = DialSocks5 dial socksAddr t timeout.
Proof.
  intros Hd Ht Ht'.
  assert (Hc : forall c, connect t' c = connect t c).
  { intros c. unfold connect. rewrite Ht.
    destruct Ht' as [-> | ->].
    - now rewrite (Atoi_plus d ds Hd).
    - now rewrite (Atoi_zero d ds Hd). }
  assert (Hb : forall c, (_ <- greeting ;; connect t') c
                         = (_ <- greeting ;; connect t) c).
  { intros c. unfold bind. destruct (greeting c) as [[[]|e] c1];
      [apply Hc|reflexivity]. }
  unfold DialSocks5. destruct (dial socksAddr) as [c0|e]; [|reflexivity].
  now rewrite Hb.
Qed.

Lemma port_spelling_witness :
  DialSocks5 friendly (str "127.0.0.1:1080") (str "example.com:+080") 5
    = DialSocks5 friendly (str "127.0.0.1:1080") (str "example.com:080") 5.
Proof.
  apply (port_spelling friendly (str "127.0.0.1:1080") (str "example.com:080")
           (str "example.com:+080") 5 (str "example.com") "0"%byte (str "80")).
  - reflexivity.
  - vm_compute. reflexivity.
  - left. vm_compute. reflexivity.
Defined.

End Socks5More.

(* ====================================================================== *)
(** * More of the core runner *)
(* ====================================================================== *)

Module CoreMore.
Import IO Core Examples CoreFacts.

(** ** What Start checks and what it touches *)

Section StartFacts.
Variable MarshalIndent : any -> result ioerr (list byte).
Variable ToLower : gostring -> gostring.


End StartFacts.


(** ** The arguments of the core *)

Lemma LastIndexByte_from_absent (s : gostring) (c : byte) (i found : Z) :
  ~ In c s -> LastIndexByte_from s c i found = found.
Proof.
  revert i found. induction s as [|x s IH]; intros i found Hn; cbn; [reflexivity|].
  rewrite IH by (intros H; apply Hn; now right).
  rewrite ProxyFacts.eqb_neq; [reflexivity|].
  intros ->. apply Hn. now left.
Qed.

Lemma LastIndexByte_from_last (a b : gostring) (c : byte) (i found : Z) :
  ~ In c b -> LastIndexByte_from (a ++ c :: b) c i found = i + len a.
Proof.
  revert i found. induction a as [|x a IH]; intros i found Hn.
  - cbn [app LastIndexByte_from]. rewrite ProxyFacts.eqb_refl.
    rewrite LastIndexByte_from_absent by exact Hn. cbn. lia.
  - cbn [app LastIndexByte_from]. rewrite IH by exact Hn.
    unfold len. cbn [List.length]. lia.
Qed.

Lemma dropTrailingSlashes_keep (x : byte) (r : list byte) :
  x <> "/"%byte -> dropTrailingSlashes (x :: r) = x :: r.
Proof. intros H. cbn. now rewrite (ProxyFacts.eqb_neq _ _ H). Qed.

(** The last element of a path that ends in a plain name. *)
Lemma Base_Join (dir name : gostring) :
  name <> [] -> ~ In "/"%byte name -> Base (Join dir name) = name.
Proof.
  intros Hne Hn. unfold Join, Base.
  destruct (dir ++ str "/" ++ name) as [|y ys] eqn:E.
  { destruct dir; discriminate E. }
  rewrite <- E. clear E y ys.
  assert (Hr : dropTrailingSlashes (rev (dir ++ str "/" ++ name))
               = rev (dir ++ str "/" ++ name)).
  { rewrite !rev_app_distr.
    destruct (rev name) as [|x xs] eqn:Er.
    - apply (f_equal (@rev byte)) in Er. rewrite rev_involutive in Er.
      contradiction.
    - cbn [app]. apply dropTrailingSlashes_keep. intros ->.
      apply Hn. apply in_rev. rewrite Er. now left. }
  rewrite Hr, rev_involutive.
  change (str "/" ++ name) with ("/"%byte :: name).
  unfold LastIndexByte. rewrite LastIndexByte_from_last by exact Hn.
  unfold slice_from, len.
  replace (Z.to_nat (0 + Z.of_nat (List.length dir) + 1))
    with (List.length dir + 1)%nat by lia.
  rewrite skipn_app, skipn_all2 by lia.
  replace (List.length dir + 1 - List.length dir)%nat with 1%nat by lia.
  cbn [app skipn]. destruct name; [contradiction|reflexivity].
Qed.

Lemma Base_plain (name : gostring) :
  name <> [] -> ~ In "/"%byte name -> Base name = name.
Proof.
  intros Hne Hn. unfold Base. destruct name as [|y ys] eqn:E; [contradiction|].
  rewrite <- E in *. clear E y ys.
  assert (Hr : dropTrailingSlashes (rev name) = rev name).
  { destruct (rev name) as [|x xs] eqn:Er.
    - reflexivity.
    - apply dropTrailingSlashes_keep. intros ->.
      apply Hn. apply in_rev. rewrite Er. now left. }
  rewrite Hr, rev_involutive.
  unfold LastIndexByte. rewrite LastIndexByte_from_absent by exact Hn.
  cbn. destruct name; [contradiction|reflexivity].
Qed.

(** X5: [coreArgs] looks at the file name of the core only, not at the
    directories of its path, and the configuration path is the last
    argument in both forms; so a core that [install-core] put in place
    under the name [expectedBinaryName] chose is started with "run -c" when
    the release came from a repository without "v2ray" in its name, and
    with "-config" otherwise. *)
Theorem coreArgs_by_file_name (MapToLower : gostring -> gostring) :
  (forall (ToLower : gostring -> gostring) (dir name configPath : gostring),
      name <> [] -> ~ In "/"%byte name ->
      coreArgs ToLower (Join dir name) configPath
        = coreArgs ToLower name configPath
      /\ last (coreArgs ToLower (Join dir name) configPath) [] = configPath)
  /\ (forall (dir repo configPath : gostring),
        coreArgs (Strings.ToLower MapToLower)
          (Join dir (Installer.expectedBinaryName MapToLower repo)) configPath
        = if Contains (Strings.ToLower MapToLower repo) (str "v2ray")
          then [str "-config"; configPath]
          else [str "run"; str "-c"; configPath]).
Proof.
  split.
  - intros ToLower dir name configPath Hne Hn. unfold coreArgs.
    rewrite (Base_Join dir name Hne Hn), (Base_plain name Hne Hn).
    split; [reflexivity|].
    destruct (Contains (ToLower name) (str "xray")); reflexivity.
  - intros dir repo configPath. unfold Installer.expectedBinaryName, coreArgs.
    unfold Installer.ToLower.
    destruct (Contains (Strings.ToLower MapToLower repo) (str "v2ray")).
    + rewrite Base_Join; [reflexivity|discriminate|].
      vm_compute. intuition discriminate.
    + rewrite Base_Join; [reflexivity|discriminate|].
      vm_compute. intuition discriminate.
Qed.

Lemma coreArgs_by_file_name_witness :
  coreArgs (Strings.ToLower (fun s => s))
    (Join (str "/opt/xray-tools") (str "V2Ray")) (str "/tmp/c.json")
  = [str "-config"; str "/tmp/c.json"].
Proof.
  destruct (coreArgs_by_file_name (fun s => s)) as (H & _).
  destruct (H (Strings.ToLower (fun s => s)) (str "/opt/xray-tools")
              (str "V2Ray") (str "/tmp/c.json")) as (E & _).
  - discriminate.
  - vm_compute. intuition discriminate.
  - rewrite E. vm_compute. reflexivity.
Defined.

End CoreMore.

(* ====================================================================== *)
(** * More of the command: probe, traffic report, relay *)
(* ====================================================================== *)

Module Probe.
Import IO Laws CopyFacts Main.

(** X6: once there is a response, [probeHTTP] does not fail, whatever the
    status code and whatever becomes of the body: it returns the status
    code as it came and the number of bytes it read, which is 2048 when the
    body has that many before it ends or fails and all there were
    otherwise; and it has taken exactly that many bytes from the body. *)
Theorem probe_reads_at_most_2048 (http : HTTP) (resp : Response) :
  newRequest http = None -> roundTrip http = Ok resp ->
  exists n body',
    probeHTTP http
      = (Ok (since http, StatusCode resp, n), Some (closeBody resp body'))
    /\ n = Z.min 2048 (len (avail (Body resp)))
    /\ exists k, payload body' = skipn k (payload (Body resp)) /\ Z.of_nat k = n.
Proof.
  intros Hn Hd. unfold probeHTTP. rewrite Hn, Hd.
  assert (Hg : good (Body resp)) by exact I.
  destruct (discardReadFrom_limited
              (bound (LimitReader (Body resp) 2048))
              (LimitReader (Body resp) 2048) 0) as (k & P & Hk & Hw).
  cbn [LimitReader LR LN] in P, Hk.
  destruct (CopyNDiscard_budget (Body resp) 2048 Hg ltac:(lia)) as [Hok Hshort].
  assert (Hcount : forall n e body,
            CopyNDiscard (Body resp) 2048 = ((n, e), body) ->
            n = Z.of_nat k /\ payload body = skipn k (payload (Body resp))).
  { intros n e body. unfold CopyNDiscard, CopyDiscard.
    destruct (discardReadFrom _ _ 0) as [[written err] l].
    cbn [fst snd] in P, Hw.
    destruct (Z.eqb_spec written 2048) as [Ew|Ew].
    - intros E. injection E as <- _ <-. split; [lia|exact P].
    - destruct ((written <? 2048)
                && match err with None => true | Some _ => false end);
        intros E; injection E as <- _ <-; (split; [lia|exact P]). }
  destruct (Z.le_gt_cases 2048 (len (avail (Body resp)))) as [Hl|Hl].
  - destruct (Hok Hl) as (r' & E). rewrite E.
    destruct (Hcount _ _ _ E) as (Ek & Ep).
    exists 2048, r'. split; [reflexivity|]. split; [lia|].
    exists k. split; [exact Ep|lia].
  - destruct (Hshort Hl) as (r' & E). rewrite E.
    destruct (Hcount _ _ _ E) as (Ek & Ep).
    exists (len (avail (Body resp))), r'. split; [reflexivity|].
    cbn [pending stream_View]. split; [lia|].
    exists k. split; [exact Ep|]. cbn [pending stream_View] in Ek. lia.
Qed.

Lemma probe_reads_at_most_2048_witness :
  exists n body',
    probeHTTP {| newRequest := None;
                 roundTrip := Ok {| StatusCode := 503;
                                    Body := [Data x61 []; Fail ErrClosed];
                                    bodyClosed := false |};
                 since := 7 |}
      = (Ok (7, 503, n),
         Some (closeBody {| StatusCode := 503;
                            Body := [Data x61 []; Fail ErrClosed];
                            bodyClosed := false |} body'))
    /\ n = 1.
Proof.
  destruct (probe_reads_at_most_2048
              {| newRequest := None;
                 roundTrip := Ok {| StatusCode := 503;
                                    Body := [Data x61 []; Fail ErrClosed];
                                    bodyClosed := false |};
                 since := 7 |}
              {| StatusCode := 503; Body := [Data x61 []; Fail ErrClosed];
                 bodyClosed := false |} eq_refl eq_refl)
    as (n & body' & E & Hn & _).
  exists n, body'. split; [exact E|]. rewrite Hn. reflexivity.
Defined.

End Probe.

Module Meter.
Import Main.

Lemma last_cons {A : Type} (x : A) (l : list A) (d : A) :
  last (x :: l) d = last l x.
Proof.
  revert x d. induction l as [|y l IH]; intros x d; [reflexivity|].
  change (last (x :: y :: l) d) with (last (y :: l) d).
  now rewrite !IH.
Qed.

Lemma telescope (a b s : Z) :
  (a + ((b - a) mod 2 ^ 64 + s)) mod 2 ^ 64 = (b + s) mod 2 ^ 64.
Proof.
  replace (a + ((b - a) mod 2 ^ 64 + s)) with ((b - a) mod 2 ^ 64 + (a + s))
    by lia.
  rewrite Zplus_mod_idemp_l. f_equal. lia.
Qed.

Lemma meter_loop_length (loads : list (Z * Z)) :
  forall pu pd, List.length (meter_loop loads pu pd) = List.length loads.
Proof.
  induction loads as [|[u d] rest IH]; intros pu pd; cbn; [reflexivity|].
  now rewrite IH.
Qed.

Lemma meter_loop_totals (loads : list (Z * Z)) :
  forall pu pd,
    map (fun r => (totalUp r, totalDown r)) (meter_loop loads pu pd) = loads.
Proof.
  induction loads as [|[u d] rest IH]; intros pu pd; [reflexivity|].
  cbn [meter_loop map totalUp totalDown]. f_equal. apply IH.
Qed.

Lemma meter_loop_sum (loads : list (Z * Z)) :
  forall pu pd,
    (pu + sumZ (map upRate (meter_loop loads pu pd))) mod 2 ^ 64
      = fst (last loads (pu, pd)) mod 2 ^ 64
    /\ (pd + sumZ (map downRate (meter_loop loads pu pd))) mod 2 ^ 64
       = snd (last loads (pu, pd)) mod 2 ^ 64.
Proof.
  induction loads as [|[u d] rest IH]; intros pu pd.
  - cbn. rewrite !Z.add_0_r. auto.
  - cbn [meter_loop map sumZ fold_right upRate downRate].
    fold (sumZ (map upRate (meter_loop rest u d))).
    fold (sumZ (map downRate (meter_loop rest u d))).
    destruct (IH u d) as [Iu Id].
    pose proof (last_cons (u, d) rest (pu, pd)) as Hl.
    rewrite Hl, <- Iu, <- Id. unfold Uint64_Sub. split; apply telescope.
Qed.

Lemma meter_loop_rates (loads : list (Z * Z)) :
  forall pu pd,
    Forall (fun r => 0 <= upRate r < 2 ^ 64 /\ 0 <= downRate r < 2 ^ 64)
      (meter_loop loads pu pd).
Proof.
  induction loads as [|[u d] rest IH]; intros pu pd; cbn [meter_loop];
    constructor; [|apply IH].
  cbn. unfold Uint64_Sub. split; apply Z.mod_pos_bound; lia.
Qed.

Lemma meter_loop_app (pre post : list (Z * Z)) :
  forall pu pd,
    meter_loop (pre ++ post) pu pd
      = meter_loop pre pu pd
          ++ meter_loop post (fst (last pre (pu, pd))) (snd (last pre (pu, pd))).
Proof.
  induction pre as [|[u d] pre IH]; intros pu pd; [reflexivity|].
  cbn [app meter_loop]. rewrite IH. f_equal. f_equal.
  now rewrite last_cons.
Qed.

(** X7: the report of the traffic meter, one line per tick: the rates it
    prints are 64-bit values, and those of one direction add up, modulo
    2^64, to the total of the last tick, so that no byte is reported twice
    or left out over the ticks, wrap-around of the counter included; a
    counter that did not decrease between two ticks gives the exact
    difference as the rate. *)
Theorem meter_rates_add_up (loads : list (Z * Z)) :
  Forall (fun l => 0 <= fst l < 2 ^ 64 /\ 0 <= snd l < 2 ^ 64) loads ->
  let reports := meter_run loads in
  List.length reports = List.length loads
  /\ map (fun r => (totalUp r, totalDown r)) reports = loads
  /\ Forall (fun r => 0 <= upRate r < 2 ^ 64 /\ 0 <= downRate r < 2 ^ 64) reports
  /\ sumZ (map upRate reports) mod 2 ^ 64 = fst (last loads (0, 0))
  /\ sumZ (map downRate reports) mod 2 ^ 64 = snd (last loads (0, 0))
  /\ (forall pre p q post,
        loads = pre ++ p :: q :: post ->
        (fst p <= fst q ->
         upRate (nth (S (List.length pre)) reports
                   {| upRate := 0; downRate := 0; totalUp := 0; totalDown := 0 |})
           = fst q - fst p)
        /\ (snd p <= snd q ->
            downRate (nth (S (List.length pre)) reports
                        {| upRate := 0; downRate := 0; totalUp := 0;
                           totalDown := 0 |})
              = snd q - snd p)).
Proof.
  intros Hr. cbn zeta. unfold meter_run.
  split; [apply meter_loop_length|].
  split; [apply meter_loop_totals|].
  split; [apply meter_loop_rates|].
  destruct (meter_loop_sum loads 0 0) as [Su Sd].
  assert (Hlast : 0 <= fst (last loads (0, 0)) < 2 ^ 64
                  /\ 0 <= snd (last loads (0, 0)) < 2 ^ 64).
  { clear Su Sd. assert (H0 : 0 <= fst (0, 0) < 2 ^ 64 /\ 0 <= snd (0, 0) < 2 ^ 64)
      by (cbn; lia).
    revert H0. generalize (0, 0).
    induction Hr as [|x l Hx Hl IH]; intros p Hp; [exact Hp|].
    rewrite last_cons. apply (IH x Hx). }
  rewrite Z.add_0_l in Su, Sd.
  split; [rewrite Su; apply Z.mod_small; lia|].
  split; [rewrite Sd; apply Z.mod_small; lia|].
  intros pre p q post ->.
  rewrite meter_loop_app.
  rewrite app_nth2 by (rewrite meter_loop_length; lia).
  rewrite meter_loop_length.
  replace (S (List.length pre) - List.length pre)%nat with 1%nat by lia.
  destruct p as [pu pd]. destruct q as [qu qd].
  cbn [meter_loop nth upRate downRate fst snd].
  assert (Hq : (0 <= pu < 2 ^ 64 /\ 0 <= pd < 2 ^ 64)
               /\ (0 <= qu < 2 ^ 64 /\ 0 <= qd < 2 ^ 64)).
  { apply Forall_app in Hr. destruct Hr as [_ Hr].
    inversion Hr as [|? ? Hp Hr']. inversion Hr' as [|? ? Hq _]. auto. }
  unfold Uint64_Sub. split; intros Hle; apply Z.mod_small; cbn in *; lia.
Qed.

Lemma meter_rates_add_up_witness :
  map upRate (meter_run [(1000, 0); (2 ^ 64 - 1, 5); (999, 5)])
    = [1000; 2 ^ 64 - 1001; 1000]
  /\ sumZ (map upRate (meter_run [(1000, 0); (2 ^ 64 - 1, 5); (999, 5)]))
       mod 2 ^ 64 = 999.
Proof.
  split; [vm_compute; reflexivity|].
  destruct (meter_rates_add_up [(1000, 0); (2 ^ 64 - 1, 5); (999, 5)])
    as (_ & _ & _ & H & _).
  - repeat constructor; cbn; lia.
  - exact H.
Defined.

End Meter.

Module RelayFlow.
Import IO TCP Laws CopyFacts Main Relay.

Lemma Write_accepting_written (c : Conn) (p : list byte) :
  accepting c ->
  exists c',
    Write c p = ((List.length p, None), c')
    /\ accepting c' /\ inbound c' = inbound c
    /\ written c' = written c ++ p.
Proof.
  intros (Hc & Hw & Hs). cbn. unfold Conn_Write. rewrite Hc, Hw. cbn.
  destruct (wscript c) as [|e r] eqn:E.
  - eexists. split; [reflexivity|]. unfold accepting, written. cbn.
    rewrite concat_app. cbn. rewrite app_nil_r. auto.
  - inversion Hs as [|? ? He Hr]. subst e.
    eexists. split; [reflexivity|]. unfold accepting, written. cbn.
    rewrite concat_app. cbn. rewrite app_nil_r. auto.
Qed.

(** [io.Copy] from an open connection into one that takes every write
    hands on the bytes the source had pending, all of them and in order. *)
Lemma copyBuffer_flow (turns : nat) :
  forall (dst src : Conn) (n : Z),
    accepting dst -> closed src = false -> (bound src <= turns)%nat ->
    exists dst' src' err,
      copyBuffer turns dst src n
        = ((n + len (avail (inbound src)), err), (dst', src'))
      /\ accepting dst' /\ inbound dst' = inbound dst
      /\ same_but_inbound src src'
      /\ written dst' = written dst ++ avail (inbound src).
Proof.
  induction turns as [|turns IH]; intros dst src n Ha Hc Hb.
  - pose proof (bound_pos src). lia.
  - assert (Hg : good src) by exact Hc.
    cbn [copyBuffer]. destruct (avail (inbound src)) as [|x xs] eqn:Hp.
    + destruct (Read_none src copyBufSize Hg copyBufSize_pos Hp)
        as (src' & -> & Hr).
      cbn [List.length Nat.ltb Nat.leb].
      exists dst, src'. eexists. split.
      * cbn [len List.length]. rewrite Z.add_0_r. reflexivity.
      * rewrite app_nil_r. auto.
    + assert (Hne : pending src <> []) by (cbn; rewrite Hp; discriminate).
      destruct (Read_some src copyBufSize Hg copyBufSize_pos Hne)
        as (k & src1 & -> & Hk & Hkl & Hp1 & Hf1 & Hg1 & Hr1 & Hb1).
      cbn [pending Conn_View] in *. rewrite Hp in *.
      assert (Hlen : List.length (firstn k (x :: xs)) = k)
        by (rewrite length_firstn; lia).
      rewrite Hlen.
      destruct (Nat.ltb_spec 0 k) as [_|]; [|lia].
      destruct (Write_accepting_written dst (firstn k (x :: xs)) Ha)
        as (dst1 & -> & Ha1 & Hi1 & Hw1).
      rewrite Hlen. rewrite Nat.ltb_irrefl, Nat.eqb_refl. cbn [negb].
      destruct (IH dst1 src1 (n + Z.of_nat k) Ha1 Hg1 ltac:(lia))
        as (dst' & src' & err & -> & Ha' & Hi' & Hr' & Hw').
      exists dst', src', err. split.
      * rewrite Hp1. unfold len. rewrite length_skipn.
        replace (n + Z.of_nat k + Z.of_nat (List.length (x :: xs) - k))
          with (n + Z.of_nat (List.length (x :: xs))) by lia.
        reflexivity.
      * split; [exact Ha'|]. split; [congruence|].
        split; [eapply same_but_inbound_trans; eauto|].
        rewrite Hw', Hw1, Hp1, <- app_assoc, firstn_skipn. reflexivity.
Qed.

Lemma Copy_flow (dst src : Conn) :
  accepting dst -> closed src = false ->
  exists dst' src' err,
    Copy dst src = ((len (avail (inbound src)), err), (dst', src'))
    /\ accepting dst' /\ inbound dst' = inbound dst
    /\ same_but_inbound src src'
    /\ written dst' = written dst ++ avail (inbound src).
Proof.
  intros Ha Hc. unfold Copy.
  destruct (copyBuffer_flow (bound src) dst src 0 Ha Hc (le_n _))
    as (dst' & src' & err & E & P).
  exists dst', src', err. rewrite E. auto.
Qed.

Lemma written_same (c c' : Conn) :
  same_but_inbound c c' -> written c' = written c.
Proof. intros (_ & H & _). unfold written. now rewrite H. Qed.

(** One step of a goroutine keeps both flows. *)
Lemma step_goroutine_flow (c0 t0 : Conn) (d : direction)
    (m m' : trafficMeter) (r r' : relay) :
  up_flow c0 t0 r -> down_flow c0 t0 r ->
  step_goroutine d m r = Some (m', r') ->
  up_flow c0 t0 r' /\ down_flow c0 t0 r'.
Proof.
  intros Hu Hd E. unfold up_flow, down_flow in *.
  destruct d; cbn [step_goroutine] in E.
  - destruct (up r) as [|n| |] eqn:Eu.
    + destruct Hu as (U1 & U2 & U3 & U4).
      destruct (Copy_flow (target r) (client r) U3 U1)
        as (t' & c' & err & Ec & At & It & Sc & Wt).
      rewrite Ec in E. injection E as _ <-. cbn [up down client target].
      split; [now rewrite Wt, U4, U2|].
      destruct (down r).
      * destruct Hd as (D1 & D2 & D3 & D4).
        split; [apply At|]. split; [now rewrite It|].
        split; [exact (accepting_same _ _ Sc D3)|].
        now rewrite (written_same _ _ Sc).
      * now rewrite (written_same _ _ Sc).
      * now rewrite (written_same _ _ Sc).
      * destruct Hd as (D1 & D2). rewrite (written_same _ _ Sc).
        split; [exact D1|]. destruct Sc as (_ & _ & _ & Sw & _). congruence.
    + injection E as _ <-. cbn [up down client target]. auto.
    + injection E as _ <-. cbn [up down client target].
      split; [split; [exact Hu|reflexivity]|].
      destruct (down r); auto.
    + discriminate.
  - destruct (down r) as [|n| |] eqn:Ed.
    + destruct Hd as (D1 & D2 & D3 & D4).
      destruct (Copy_flow (client r) (target r) D3 D1)
        as (c' & t' & err & Ec & Ac & Ic & St & Wc).
      rewrite Ec in E. injection E as _ <-. cbn [up down client target].
      split; [|now rewrite Wc, D4, D2].
      destruct (up r).
      * destruct Hu as (U1 & U2 & U3 & U4).
        split; [apply Ac|]. split; [now rewrite Ic|].
        split; [exact (accepting_same _ _ St U3)|].
        now rewrite (written_same _ _ St).
      * now rewrite (written_same _ _ St).
      * now rewrite (written_same _ _ St).
      * destruct Hu as (U1 & U2). rewrite (written_same _ _ St).
        split; [exact U1|]. destruct St as (_ & _ & _ & Sw & _). congruence.
    + injection E as _ <-. cbn [up down client target]. auto.
    + injection E as _ <-. cbn [up down client target].
      split; [|split; [exact Hd|reflexivity]].
      destruct (up r); auto.
    + discriminate.
Qed.

Lemma run_flow (c0 t0 : Conn) (sched : list direction) :
  forall (m : trafficMeter) (r : relay),
    up_flow c0 t0 r -> down_flow c0 t0 r ->
    up_flow c0 t0 (snd (run sched m r)) /\ down_flow c0 t0 (snd (run sched m r)).
Proof.
  induction sched as [|d sched IH]; intros m r Hu Hd; cbn [run].
  - auto.
  - destruct (step_goroutine d m r) as [[m' r']|] eqn:E.
    + destruct (step_goroutine_flow c0 t0 d m m' r r' Hu Hd E). now apply IH.
    + now apply IH.
Qed.

(** X8: [relayConn] is transparent.  When the dial of the target fails it
    closes the client and leaves the meter alone.  When it returns after a
    relay between two connections that take every write, under whatever
    schedule of the two goroutines, the target has been sent exactly the
    bytes the client had pending, in order, and the client exactly those of
    the target; both write sides were shut down and both connections are
    closed. *)
Theorem relayConn_transparent (dial : Dialer) (c : Conn)
    (targetAddr : gostring) (m : trafficMeter) (sched : list direction) :
  (forall e, dial targetAddr = Err e ->
     relayConn dial c targetAddr m sched = Some (m, Close c, None))
  /\ (forall t m' c' t',
        dial targetAddr = Ok t -> accepting c -> accepting t ->
        relayConn dial c targetAddr m sched = Some (m', c', Some t') ->
        written t' = written t ++ avail (inbound c)
        /\ written c' = written c ++ avail (inbound t)
        /\ wclosed t' = true /\ wclosed c' = true
        /\ closed t' = true /\ closed c' = true).
Proof.
  split.
  - intros e He. unfold relayConn. now rewrite He.
  - intros t m' c' t' Hd Hc Ht E. unfold relayConn in E. rewrite Hd in E.
    destruct (run_flow c t sched m (relayConn_start c t)) as (Hu & Hdn).
    { unfold up_flow. cbn. split; [apply Hc|]. auto. }
    { unfold down_flow. cbn. split; [apply Ht|]. auto. }
    destruct (run sched m (relayConn_start c t)) as [m1 r1].
    cbn [snd] in Hu, Hdn. unfold finished in E.
    unfold up_flow in Hu. unfold down_flow in Hdn.
    destruct (up r1); try discriminate E.
    destruct (down r1); try discriminate E.
    injection E as _ <- <-.
    destruct Hu as (U1 & U2). destruct Hdn as (D1 & D2).
    unfold written in *. cbn [Close writes wclosed closed].
    repeat split; assumption.
Qed.

Lemma relayConn_transparent_witness :
  match relayConn (fun _ => Ok (fresh [Data x62 [x63]] []))
          (fresh [Data x61 []; Data x64 [x65]] []) (str "127.0.0.1:20001")
          newTrafficMeter [Downlink; Uplink; Uplink; Downlink; Uplink; Downlink]
  with
  | Some (_, c', Some t') =>
      written t' = [x61; x64; x65] /\ written c' = [x62; x63]
  | _ => False
  end.
Proof.
  destruct (relayConn_transparent (fun _ => Ok (fresh [Data x62 [x63]] []))
              (fresh [Data x61 []; Data x64 [x65]] []) (str "127.0.0.1:20001")
              newTrafficMeter
              [Downlink; Uplink; Uplink; Downlink; Uplink; Downlink])
    as (_ & H).
  destruct (relayConn _ _ _ _ _) as [[[m' c'] [t'|]]|] eqn:E.
  - destruct (H (fresh [Data x62 [x63]] []) m' c' t' eq_refl) as (H1 & H2 & _).
    + unfold accepting. cbn. auto.
    + unfold accepting. cbn. auto.
    + reflexivity.
    + split; [exact H1|exact H2].
  - vm_compute in E. discriminate E.
  - vm_compute in E. discriminate E.
Defined.

End RelayFlow.

(* ====================================================================== *)
(** * More of the command: the core binary, the proxy set-up, the figures *)
(* ====================================================================== *)

Module Resolve.
Import IO Main.

Section ResolveFacts.
Variable filepath_Dir : gostring -> gostring.
Variable filepath_Join : list gostring -> gostring.

Lemma firstExecutable_some (h : Host) (cs : list gostring) (p : gostring) :
  firstExecutable h cs = Some p ->
  exists pre post,
    cs = pre ++ p :: post /\ isExecutableFile h p = true
    /\ Forall (fun c => isExecutableFile h c = false) pre.
Proof.
  induction cs as [|c cs IH]; cbn; [discriminate|].
  destruct (isExecutableFile h c) eqn:E.
  - intros H. injection H as <-. exists [], cs. auto.
  - intros H. destruct (IH H) as (pre & post & -> & Hp & Hpre).
    exists (c :: pre), post. auto.
Qed.

Lemma firstExecutable_none (h : Host) (cs : list gostring) :
  firstExecutable h cs = None <->
  Forall (fun c => isExecutableFile h c = false) cs.
Proof.
  induction cs as [|c cs IH]; cbn.
  - split; auto.
  - destruct (isExecutableFile h c) eqn:E.
    + split; [discriminate|]. intros H. inversion H. congruence.
    + rewrite IH. split; [auto|]. intros H. now inversion H.
Qed.

(** X9: [resolveCorePath] keeps to the order the README gives.  A flag
    that is not blank is returned as it is, untrimmed and without a look at
    the file system.  Otherwise the result is the first of xray, v2ray,
    core/xray, core/v2ray next to the program that [isExecutableFile]
    accepts; if there is none, what [exec.LookPath] finds for xray, and
    else for v2ray; and the call fails exactly when all of these fail. *)
Theorem resolveCorePath_order (h : Host) (flagPath : gostring) :
  let res := resolveCorePath filepath_Dir filepath_Join h flagPath in
  (Strings.TrimSpace flagPath <> [] -> res = Ok flagPath)
  /\ (Strings.TrimSpace flagPath = [] ->
      (forall pre p post,
          nearby filepath_Dir filepath_Join h = pre ++ p :: post ->
          Forall (fun c => isExecutableFile h c = false) pre ->
          isExecutableFile h p = true ->
          res = Ok p)
      /\ (Forall (fun c => isExecutableFile h c = false)
            (nearby filepath_Dir filepath_Join h) ->
          res = match LookPath h (str "xray") with
                | Ok p => Ok p
                | Err _ =>
                    match LookPath h (str "v2ray") with
                    | Ok p => Ok p
                    | Err _ => Err ErrCoreNotFound
                    end
                end))
  /\ (forall c, isExecutableFile h c = true ->
        exists info, Stat h c = Ok info /\ IsDir info = false
                     /\ Z.land (Mode info) 73 <> 0).
Proof.
  cbn zeta. split; [|split].
  - intros Hf. unfold resolveCorePath.
    destruct (Strings.TrimSpace flagPath); [contradiction|reflexivity].
  - intros Hf. unfold resolveCorePath. rewrite Hf.
    assert (Hn : match Executable h with
                 | Ok exePath =>
                     firstExecutable h
                       (candidates filepath_Join (filepath_Dir exePath))
                 | Err _ => None
                 end = firstExecutable h (nearby filepath_Dir filepath_Join h)).
    { unfold nearby. destruct (Executable h); reflexivity. }
    rewrite Hn. split.
    + intros pre p post Hcs Hpre Hp.
      destruct (firstExecutable h (nearby filepath_Dir filepath_Join h)) as [c|] eqn:E.
      * apply firstExecutable_some in E.
        destruct E as (pre' & post' & Hcs' & Hc & Hpre').
        rewrite Hcs in Hcs'. f_equal.
        clear - Hcs' Hpre Hpre' Hp Hc.
        revert pre' Hcs' Hpre'.
        induction pre as [|x pre IH]; intros pre' Hcs' Hpre'.
        -- destruct pre' as [|y pre']; cbn in Hcs'; [congruence|].
           injection Hcs' as <- _. inversion Hpre'. congruence.
        -- destruct pre' as [|y pre']; cbn in Hcs'.
           ++ injection Hcs' as -> _. inversion Hpre. congruence.
           ++ injection Hcs' as _ Hcs'. inversion Hpre. inversion Hpre'.
              eapply IH; eauto.
      * apply firstExecutable_none in E. rewrite Hcs in E.
        apply Forall_app in E. destruct E as [_ E]. inversion E. congruence.
    + intros Hall. apply firstExecutable_none in Hall. rewrite Hall.
      cbn [firstInPath].
      destruct (LookPath h (str "xray")); [reflexivity|].
      destruct (LookPath h (str "v2ray")); reflexivity.
  - intros c Hc. unfold isExecutableFile in Hc.
    destruct (Stat h c) as [info|e]; [|discriminate Hc].
    destruct (IsDir info) eqn:Ed; [discriminate Hc|].
    exists info. split; [reflexivity|]. split; [exact Ed|].
    intros Hz. unfold Perm in Hc.
    rewrite <- Z.land_assoc in Hc. change (Z.land 511 73) with 73 in Hc.
    rewrite Hz in Hc. discriminate Hc.
Qed.

End ResolveFacts.

Lemma resolveCorePath_order_witness :
  let h := {| Executable := Ok (str "/opt/hn/health-node");
              Stat := fun p =>
                if Core.gostring_eqb p (str "/opt/hn/xray")
                then Ok {| IsDir := true; Mode := 493 |}
                else if Core.gostring_eqb p (str "/opt/hn/core/xray")
                then Ok {| IsDir := false; Mode := 493 |}
                else Err (OpError "no such file");
              LookPath := fun _ => Ok (str "/usr/bin/xray") |} in
  resolveCorePath (fun _ => str "/opt/hn")
    (fun l => Strings.Join l (str "/")) h (str "  ")
  = Ok (str "/opt/hn/core/xray").
Proof.
  cbn zeta.
  match goal with |- resolveCorePath ?d ?j ?h ?f = _ =>
    destruct (resolveCorePath_order d j h f) as (_ & H & _) end.
  destruct H as (H & _); [reflexivity|].
  apply (H [str "/opt/hn/xray"; str "/opt/hn/v2ray"] (str "/opt/hn/core/xray")
           [str "/opt/hn/core/v2ray"]).
  - reflexivity.
  - repeat constructor.
  - reflexivity.
Defined.

End Resolve.

Module ProxyPlan.
Import IO Main CoreFacts.

Section PlanFacts.
Variable MapToLower : gostring -> gostring.
Variables (P E : Type).
Variable FromURI : gostring -> result E P.
Variable Outbound : P -> result E Core.any.
Variable resolve : gostring -> result ResolveError gostring.

(** X10: what [runProxy] hands to [Start].  The inbound protocol is
    "socks" or "http"; the port the program listens on is the flag, or 1080
    for socks and 8080 for http when the flag is 0, and lies in 1..65535;
    without the traffic meter the core listens on that port itself, with it
    the core gets a random port in 20000..39999, which can only coincide
    with the listening port when both draws hit it, and never when the
    listening port lies outside that range; the log level is "info" when
    requests are printed and "warning" otherwise.  Such a runner passes the
    checks [Start] makes on the port and the inbound protocol. *)
Theorem runProxy_plan_sound (f : ProxyFlags) (draw1 draw2 : Z) (plan : ProxyPlan) :
  0 <= draw1 < 20000 -> 0 <= draw2 < 20000 ->
  runProxy_plan MapToLower P E FromURI Outbound resolve f draw1 draw2 = Ok plan ->
  let r := runner plan in
  (Core.InboundProtocol r = str "socks" \/ Core.InboundProtocol r = str "http")
  /\ 1 <= listenPort plan <= 65535
  /\ (localPort f <> 0 -> listenPort plan = localPort f)
  /\ (localPort f = 0 ->
      listenPort plan
        = if Core.gostring_eqb (Core.InboundProtocol r) (str "http")
          then 8080 else 1080)
  /\ showTraffic plan = negb (noTraffic f)
  /\ (showTraffic plan = false -> Core.Port r = listenPort plan)
  /\ (showTraffic plan = true ->
      20000 <= Core.Port r < 40000
      /\ (Core.Port r = listenPort plan ->
          randomPort draw1 = listenPort plan
          /\ randomPort draw2 = listenPort plan))
  /\ Core.LogLevel r = (if printRequests f then str "info" else str "warning")
  /\ (forall MarshalIndent ToLower outbound os fs0 e,
        fst (Core.Start MarshalIndent ToLower r outbound os fs0) = Err e ->
        e <> Core.ErrPortRequired /\ forall p, e <> Core.ErrInboundProtocol p).
Proof.
  intros H1 H2 E0. unfold runProxy_plan in E0.
  destruct (uri f) as [|u us]; [discriminate E0|].
  remember (Strings.ToLower MapToLower (Strings.TrimSpace (inbound_ f)))
    as inb eqn:Einb.
  assert (Hinb : inb = str "socks" \/ inb = str "http").
  { destruct (Core.gostring_eqb inb (str "socks")) eqn:Es;
      [left; now apply gostring_eqb_eq|].
    destruct (Core.gostring_eqb inb (str "http")) eqn:Eh;
      [right; now apply gostring_eqb_eq|].
    discriminate E0. }
  assert (Hguard : negb (Core.gostring_eqb inb (str "socks"))
                   && negb (Core.gostring_eqb inb (str "http")) = false)
    by (destruct Hinb as [-> | ->]; reflexivity).
  rewrite Hguard in E0.
  remember (if localPort f =? 0
            then (if Core.gostring_eqb inb (str "http") then 8080 else 1080)
            else localPort f) as lp eqn:Elp.
  destruct (Z.leb_spec lp 0) as [|Hlo]; [discriminate E0|].
  destruct (Z.gtb_spec lp 65535) as [|Hhi]; [discriminate E0|].
  cbn [orb] in E0.
  destruct (resolve (corePath f)) as [core|]; [|discriminate E0].
  destruct (FromURI (u :: us)) as [prov|]; [|discriminate E0].
  destruct (Outbound prov) as [ob|]; [|discriminate E0].
  injection E0 as <-. cbn zeta.
  cbn [runner listenPort showTraffic Core.InboundProtocol Core.Port
       Core.LogLevel].
  remember (if negb (noTraffic f)
            then (if randomPort draw1 =? lp then randomPort draw2
                  else randomPort draw1)
            else lp) as port eqn:Eport.
  split; [exact Hinb|]. split; [lia|].
  split.
  { intros Hz. rewrite Elp. destruct (Z.eqb_spec (localPort f) 0);
      [contradiction|reflexivity]. }
  split.
  { intros Hz. rewrite Elp, Hz. reflexivity. }
  split; [reflexivity|].
  split.
  { intros Hs. rewrite Eport, Hs. reflexivity. }
  split.
  { intros Hs. rewrite Eport, Hs. unfold randomPort.
    destruct (Z.eqb_spec (20000 + draw1) lp); split; try lia;
      intros; split; lia. }
  split; [reflexivity|].
  intros MarshalIndent ToLower outbound os fs0 e.
  assert (Hport : port <> 0).
  { rewrite Eport. unfold randomPort. destruct (negb (noTraffic f)); [|lia].
    destruct (Z.eqb_spec (20000 + draw1) lp); lia. }
  assert (Htrim : Strings.TrimSpace inb = inb)
    by (destruct Hinb as [-> | ->]; reflexivity).
  assert (Hne : Core.gostring_eqb inb [] = false)
    by (destruct Hinb as [-> | ->]; reflexivity).
  unfold Core.Start.
  cbn [Core.CorePath Core.Port Core.InboundProtocol Core.LogLevel].
  rewrite Htrim, Hne, Hguard.
  destruct (Z.eqb_spec port 0); [contradiction|].
  assert (Hd : forall x : Core.StartError,
             (forall p, x <> Core.ErrInboundProtocol p) ->
             x <> Core.ErrPortRequired ->
             Err (A := Core.Started) x = Err e ->
             e <> Core.ErrPortRequired
             /\ forall p, e <> Core.ErrInboundProtocol p).
  { intros x Hx1 Hx2 Q. injection Q as <-. auto. }
  destruct (Core.gostring_eqb core []);
    [cbn [fst]; apply Hd; [intros p|]; discriminate|].
  destruct (MarshalIndent _);
    [|cbn [fst]; apply Hd; [intros p|]; discriminate].
  destruct (Core.mkdirTemp os);
    [|cbn [fst]; apply Hd; [intros p|]; discriminate].
  destruct (Core.writeFile os);
    [cbn [fst]; apply Hd; [intros p|]; discriminate|].
  destruct (Core.create os);
    [cbn [fst]; apply Hd; [intros p|]; discriminate|].
  destruct (Core.startProcess os);
    [cbn [fst]; apply Hd; [intros p|]; discriminate|].
  cbn [fst]. discriminate.
Qed.

End PlanFacts.

Lemma runProxy_plan_sound_witness :
  match runProxy_plan (fun s => s) unit unit (fun _ => Ok tt)
          (fun _ => Ok (Core.AMap [])) (fun p => Ok p)
          {| uri := str "vless://id@example.com:443"; corePath := str "/opt/xray";
             inbound_ := str " HTTP "; localPort := 28080;
             printRequests := true; noTraffic := false; timeout_ := 20 |}
          8080 12345
  with
  | Ok plan =>
      listenPort plan = 28080 /\ Core.Port (runner plan) = 32345
      /\ Core.InboundProtocol (runner plan) = str "http"
  | Err _ => False
  end.
Proof.
  destruct (runProxy_plan _ _ _ _ _ _ _ _ _) as [plan|e] eqn:E.
  - destruct (runProxy_plan_sound _ _ _ _ _ _ _ 8080 12345 plan
                ltac:(lia) ltac:(lia) E) as (_ & _ & H & _).
    vm_compute in E. injection E as <-.
    split; [apply H; discriminate|]. split; reflexivity.
  - vm_compute in E. discriminate E.
Defined.

End ProxyPlan.

Module Figures.
Import Main.

(** Rounding to an integer, ties to even, is off by half a unit at most. *)
Lemma roundHalfEven_near (num den : Z) :
  0 < den ->
  2 * Z.abs (roundHalfEven num den * den - num) <= den.
Proof.
  intros Hd. unfold roundHalfEven.
  pose proof (Z.div_mod num den ltac:(lia)) as E.
  pose proof (Z.mod_pos_bound num den Hd) as B.
  set (q := num / den) in *. set (r := num mod den) in *.
  destruct (Z.gtb_spec (2 * r) den) as [Hg|Hg]; cbn [orb].
  - replace ((q + 1) * den - num) with (den - r) by lia. lia.
  - destruct (Z.eqb_spec (2 * r) den) as [He|He]; cbn [andb].
    + destruct (Z.odd q).
      * replace ((q + 1) * den - num) with (den - r) by lia. lia.
      * replace (q * den - num) with (- r) by lia. lia.
    + replace (q * den - num) with (- r) by lia. lia.
Qed.

(** The conversion to [float64] keeps a value below 2^53 and moves a
    64-bit value by 1024 at most. *)
Lemma float64_of_uint64_near (n : Z) :
  0 <= n < 2 ^ 64 ->
  Z.abs (float64_of_uint64 n - n) <= 1024
  /\ (n < 2 ^ 53 -> float64_of_uint64 n = n).
Proof.
  intros Hn. unfold float64_of_uint64.
  destruct (Z.ltb_spec n (2 ^ 53)) as [Hs|Hb].
  - split; [|reflexivity]. rewrite Z.sub_diag. cbn. lia.
  - split; [|lia].
    assert (Hl : 53 <= Z.log2 n < 64).
    { split.
      - apply Z.log2_le_pow2; lia.
      - apply Z.log2_lt_pow2; lia. }
    set (e := Z.log2 n - 52) in *.
    assert (He : 1 <= e <= 11) by (unfold e; lia).
    assert (Hp : 2 ^ e = 2 * 2 ^ (e - 1)).
    { replace e with (1 + (e - 1)) at 1 by lia.
      rewrite Z.pow_add_r by lia. reflexivity. }
    assert (Hh : 0 < 2 ^ (e - 1) <= 1024).
    { split; [apply Z.pow_pos_nonneg; lia|].
      change 1024 with (2 ^ 10). apply Z.pow_le_mono_r; lia. }
    set (h := 2 ^ (e - 1)) in *. rewrite Hp.
    pose proof (Z.div_mod n (2 * h) ltac:(lia)) as E.
    pose proof (Z.mod_pos_bound n (2 * h) ltac:(lia)) as B.
    set (q := n / (2 * h)) in *. set (r := n mod (2 * h)) in *.
    destruct (Z.gtb_spec r h) as [Hg|Hg]; cbn [orb].
    + replace ((q + 1) * (2 * h) - n) with (2 * h - r) by lia. lia.
    + destruct (Z.eqb_spec r h) as [Er|Er]; cbn [andb].
      * destruct (Z.odd q).
        -- replace ((q + 1) * (2 * h) - n) with (2 * h - r) by lia. lia.
        -- replace (q * (2 * h) - n) with (- r) by lia. lia.
      * replace (q * (2 * h) - n) with (- r) by lia. lia.
Qed.

(** X11: the figure [humanBytes] prints.  Below 1024 it is the number
    itself with the unit B.  From 1024 on it is a number of hundredths of
    KB, MB or GB, the largest unit that is not more than [n], printed with
    two decimals; the number shown is at least 1.00, it is within half a
    hundredth of the value of the float that was divided, and that float is
    [n] itself below 2^53 and within 1024 of [n] for every 64-bit [n].
    Since the figure is rounded, a value just below the next unit is shown
    as 1024.00 of the smaller one. *)
Theorem humanBytes_figure (n : Z) :
  0 <= n < 2 ^ 64 ->
  (n < KB -> humanBytes n = FormatUint n ++ str "B")
  /\ (KB <= n < MB ->
      exists c, humanBytes n = fixed2 c ++ str "KB"
                /\ 100 <= c <= 102400 /\ 2 * Z.abs (c * KB - 100 * n) <= KB)
  /\ (MB <= n < GB ->
      exists c, humanBytes n = fixed2 c ++ str "MB"
                /\ 100 <= c <= 102400 /\ 2 * Z.abs (c * MB - 100 * n) <= MB)
  /\ (GB <= n ->
      exists c v, humanBytes n = fixed2 c ++ str "GB"
                  /\ 100 <= c /\ 2 * Z.abs (c * GB - 100 * v) <= GB
                  /\ Z.abs (v - n) <= 1024 /\ (n < 2 ^ 53 -> v = n)).
Proof.
  intros Hn. unfold humanBytes.
  change GB with 1073741824 in *. change MB with 1048576 in *.
  change KB with 1024 in *.
  destruct (float64_of_uint64_near n Hn) as [Hv Hexact].
  split; [|split; [|split]].
  - intros H.
    destruct (Z.geb_spec n 1073741824); [lia|].
    destruct (Z.geb_spec n 1048576); [lia|].
    destruct (Z.geb_spec n 1024); [lia|]. reflexivity.
  - intros H.
    destruct (Z.geb_spec n 1073741824); [lia|].
    destruct (Z.geb_spec n 1048576); [lia|].
    destruct (Z.geb_spec n 1024); [|lia].
    rewrite Hexact by lia.
    exists (hundredths n 1024). split; [reflexivity|].
    pose proof (roundHalfEven_near (n * 100) 1024 ltac:(lia)) as B.
    fold (hundredths n 1024) in B. lia.
  - intros H.
    destruct (Z.geb_spec n 1073741824); [lia|].
    destruct (Z.geb_spec n 1048576); [|lia].
    rewrite Hexact by lia.
    exists (hundredths n 1048576). split; [reflexivity|].
    pose proof (roundHalfEven_near (n * 100) 1048576 ltac:(lia)) as B.
    fold (hundredths n 1048576) in B. lia.
  - intros H.
    destruct (Z.geb_spec n 1073741824); [|lia].
    exists (hundredths (float64_of_uint64 n) 1073741824), (float64_of_uint64 n).
    split; [reflexivity|].
    pose proof (roundHalfEven_near (float64_of_uint64 n * 100) 1073741824
                  ltac:(lia)) as B.
    fold (hundredths (float64_of_uint64 n) 1073741824) in B.
    split; [lia|]. split; [lia|]. split; [exact Hv|exact Hexact].
Qed.

Lemma humanBytes_figure_witness :
  humanBytes 1536 = str "1.50KB"
  /\ humanBytes 1048575 = str "1024.00KB"
  /\ humanBytes 1023 = str "1023B"
  /\ exists c, humanBytes 5368709120 = fixed2 c ++ str "GB" /\ 100 <= c.
Proof.
  split; [vm_compute; reflexivity|]. split; [vm_compute; reflexivity|].
  split; [vm_compute; reflexivity|].
  destruct (humanBytes_figure 5368709120) as (_ & _ & _ & H); [lia|].
  destruct H as (c & v & E & Hc & _); [unfold GB, MB, KB; lia|].
  exists c. split; [exact E|exact Hc].
Defined.

End Figures.

(* ====================================================================== *)
(** * The installer: which asset, which binary *)
(* ====================================================================== *)

Module Assets.
Import IO Core Installer CoreFacts.

Section AssetFacts.
Variable MapToLower : gostring -> gostring.

Lemma filter_first {A : Type} (f : A -> bool) (l : list A) (x : A)
    (rest : list A) :
  filter f l = x :: rest ->
  exists pre post,
    l = pre ++ x :: post /\ f x = true /\ Forall (fun y => f y = false) pre.
Proof.
  induction l as [|y l IH]; cbn; [discriminate|].
  destruct (f y) eqn:E.
  - intros H. injection H as <- _. exists [], l. auto.
  - intros H. destruct (IH H) as (pre & post & -> & Hx & Hp).
    exists (y :: pre), post. auto.
Qed.

Lemma filter_none {A : Type} (f : A -> bool) (l : list A) :
  filter f l = [] <-> Forall (fun y => f y = false) l.
Proof.
  induction l as [|y l IH]; cbn; [split; auto|].
  destruct (f y) eqn:E.
  - split; [discriminate|]. intros H. inversion H. congruence.
  - rewrite IH. split; [auto|]. intros H. now inversion H.
Qed.

Lemma firstZip_some (f : asset -> bool) (l : list asset) (c : asset) :
  firstZip MapToLower (filter f l) = Some c ->
  exists pre post,
    l = pre ++ c :: post /\ f c = true /\ isZip MapToLower c = true
    /\ Forall (fun y => f y && isZip MapToLower y = false) pre.
Proof.
  induction l as [|y l IH]; cbn [filter firstZip]; [discriminate|].
  destruct (f y) eqn:E.
  - cbn [firstZip]. 
    destruct (isZip MapToLower y) eqn:Z.
    + intros H. injection H as <-. exists [], l. auto.
    + intros H. destruct (IH H) as (pre & post & -> & Hc & Hz & Hp).
      exists (y :: pre), post. repeat split; auto.
      constructor; [|exact Hp]. rewrite Z. apply andb_false_r.
  - intros H. destruct (IH H) as (pre & post & -> & Hc & Hz & Hp).
    exists (y :: pre), post. repeat split; auto.
    constructor; [|exact Hp]. now rewrite E.
Qed.

Lemma firstZip_none (f : asset -> bool) (l : list asset) :
  firstZip MapToLower (filter f l) = None ->
  Forall (fun y => f y && isZip MapToLower y = false) l.
Proof.
  induction l as [|y l IH]; cbn [filter firstZip]; [constructor|].
  destruct (f y) eqn:E.
  - cbn [firstZip]. 
    destruct (isZip MapToLower y) eqn:Z; [discriminate|].
    intros H. constructor; [|now apply IH]. rewrite Z.
    apply andb_false_r.
  - intros H. constructor; [|now apply IH]. now rewrite E.
Qed.

(** X12: [chooseAsset] returns an asset of the release whose lower-case
    name is an archive and contains one of the tokens of the system and
    one of the tokens of the architecture: the first such asset that is a
    zip archive, and when no such asset is a zip archive, the first of
    them; it fails exactly when no asset qualifies.  The tokens are looked
    for anywhere in the name, so that "64" of amd64 is also found in a name
    with "arm64". *)
Theorem chooseAsset_choice (assets : list asset) (goos goarch : gostring) :
  let ok := isCandidate MapToLower (tokensForOS goos) (tokensForArch goarch) in
  (forall a, chooseAsset MapToLower assets goos goarch = Ok a ->
     exists pre post,
       assets = pre ++ a :: post /\ ok a = true
       /\ (isZip MapToLower a = true -> Forall (fun b => ok b && isZip MapToLower b = false) pre)
       /\ (isZip MapToLower a = false ->
           Forall (fun b => ok b = false) pre
           /\ Forall (fun b => ok b && isZip MapToLower b = false) post))
  /\ (Forall (fun a => ok a = false) assets <->
      chooseAsset MapToLower assets goos goarch
        = Err (ErrNoMatchingAsset goos goarch
                 (Strings.Join (map Name assets) (str ", "))))
  /\ (forall a, In a assets -> ok a = true ->
        exists b, chooseAsset MapToLower assets goos goarch = Ok b).
Proof.
  cbn zeta. set (ok := isCandidate _ _ _). unfold chooseAsset. fold ok.
  split; [|split].
  - intros a E. destruct (filter ok assets) as [|c0 cs] eqn:F; [discriminate E|].
    rewrite <- F in E.
    destruct (firstZip MapToLower (filter ok assets)) as [c|] eqn:Z.
    + injection E as <-.
      destruct (firstZip_some ok assets c Z) as (pre & post & -> & Hc & Hz & Hp).
      exists pre, post. split; [reflexivity|]. split; [exact Hc|].
      split; [intros _; exact Hp|]. intros N. congruence.
    + injection E as <-.
      pose proof (firstZip_none ok assets Z) as Hall.
      destruct (filter_first ok assets c0 cs F) as (pre & post & -> & Hc & Hp).
      exists pre, post. split; [reflexivity|]. split; [exact Hc|].
      apply Forall_app in Hall. destruct Hall as [Hpre Hall].
      split; [intros _; exact Hpre|]. intros _. split; [exact Hp|].
      now inversion Hall.
  - split.
    + intros H. apply filter_none in H. now rewrite H.
    + intros E. destruct (filter ok assets) as [|c0 cs] eqn:F.
      * now apply filter_none.
      * destruct (firstZip MapToLower (c0 :: cs)); discriminate E.
  - intros a Hin Hok. destruct (filter ok assets) as [|c0 cs] eqn:F.
    + apply filter_none in F. rewrite Forall_forall in F.
      specialize (F a Hin). congruence.
    + destruct (firstZip MapToLower (c0 :: cs)); eauto.
Qed.

End AssetFacts.

Lemma chooseAsset_choice_witness :
  chooseAsset (fun s => s)
    [{| Name := str "Xray-linux-arm64-v8a.zip"; URL := str "u1" |};
     {| Name := str "Xray-linux-64.zip"; URL := str "u2" |}]
    (str "linux") (str "amd64")
  = Ok {| Name := str "Xray-linux-arm64-v8a.zip"; URL := str "u1" |}.
Proof.
  destruct (chooseAsset_choice (fun s => s)
    [{| Name := str "Xray-linux-arm64-v8a.zip"; URL := str "u1" |};
     {| Name := str "Xray-linux-64.zip"; URL := str "u2" |}]
    (str "linux") (str "amd64")) as (H & _ & _).
  destruct (chooseAsset _ _ _ _) as [a|e] eqn:E.
  - destruct (H a eq_refl) as (pre & post & Hl & Hok & Hz & _).
    vm_compute in E. symmetry. exact E.
  - vm_compute in E. discriminate E.
Defined.

Section BinaryFacts.
Variable MapToLower : gostring -> gostring.

Lemma lower_xray : Strings.ToLower MapToLower (str "xray") = str "xray".
Proof. reflexivity. Qed.

Lemma lower_v2ray : Strings.ToLower MapToLower (str "v2ray") = str "v2ray".
Proof. reflexivity. Qed.

(** X13: the name [expectedBinaryName] derives from the repository is
    "v2ray" or "xray", and as the preferred name of [isLikelyCoreBinary] it
    changes nothing: with it, a file is taken for the core exactly when its
    lower-case name, an ending ".exe" apart, is "xray" or "v2ray",
    whichever repository the release came from. *)
Theorem preferred_name_is_redundant (repo base : gostring) :
  (expectedBinaryName MapToLower repo = str "v2ray"
   \/ expectedBinaryName MapToLower repo = str "xray")
  /\ isLikelyCoreBinary MapToLower base (expectedBinaryName MapToLower repo)
     = (let b := Strings.TrimSuffix (Strings.ToLower MapToLower base) (str ".exe") in
        gostring_eqb b (str "xray") || gostring_eqb b (str "v2ray")).
Proof.
  unfold expectedBinaryName, isLikelyCoreBinary, Installer.ToLower. cbn zeta.
  destruct (Contains (Strings.ToLower MapToLower repo) (str "v2ray")).
  - split; [auto|]. rewrite lower_v2ray.
    destruct (gostring_eqb _ (str "v2ray")) eqn:E.
    + now rewrite orb_true_r.
    + rewrite orb_false_r. now destruct (gostring_eqb _ (str "xray")).
  - split; [auto|]. rewrite lower_xray.
    destruct (gostring_eqb _ (str "xray")) eqn:E; [reflexivity|].
    cbn [orb]. now destruct (gostring_eqb _ (str "v2ray")).
Qed.

End BinaryFacts.

End Assets.

(* ====================================================================== *)
(** * The provider helpers *)
(* ====================================================================== *)

Module ProviderFacts.
Import Provider.

(** X14: [firstNonEmpty] returns the first of its arguments that is not
    the empty string, and the empty string exactly when all are empty (or
    there is none). *)
Theorem firstNonEmpty_first (vs : list gostring) :
  (firstNonEmpty vs = [] <-> Forall (fun v => v = []) vs)
  /\ (forall pre v post,
        vs = pre ++ v :: post -> Forall (fun x => x = []) pre -> v <> [] ->
        firstNonEmpty vs = v).
Proof.
  split.
  - induction vs as [|v vs IH]; cbn; [split; auto|].
    destruct v as [|b v].
    + rewrite IH. split; [auto|]. intros H. now inversion H.
    + split; [discriminate|]. intros H. inversion H. discriminate.
  - intros pre v post -> Hpre Hv.
    induction Hpre as [|x pre Hx Hpre IH]; cbn.
    + destruct v; [contradiction|reflexivity].
    + subst x. exact IH.
Qed.

Lemma firstNonEmpty_first_witness :
  firstNonEmpty [[]; []; str "cdn.example.com"; str "1.2.3.4"]
    = str "cdn.example.com".
Proof.
  destruct (firstNonEmpty_first [[]; []; str "cdn.example.com"; str "1.2.3.4"])
    as (_ & H).
  apply (H [[]; []] (str "cdn.example.com") [str "1.2.3.4"]).
  - reflexivity.
  - repeat constructor.
  - discriminate.
Defined.

End ProviderFacts.

(* ====================================================================== *)
(** * strings.TrimSpace and splitCSV *)
(* ====================================================================== *)

Module TrimFacts.
Import Strings.

Lemma u8_range (c : byte) : 0 <= u8 c < 256.
Proof.
  unfold u8. pose proof (Byte.to_N_bounded c). lia.
Qed.

Lemma leading_range (b0 sz lo hi : Z) :
  leading b0 = Some (sz, lo, hi) ->
  (sz = 2 \/ sz = 3 \/ sz = 4) /\ 128 <= lo.
Proof.
  unfold leading, locb.
  repeat match goal with
         | |- context [if ?c then _ else _] => destruct c
         end;
    intros H; try discriminate H; injection H as <- <- <-; lia.
Qed.

Lemma solid_high (c : byte) : 128 <= u8 c -> solid c = false.
Proof.
  intros H. unfold solid, RuneSelf.
  destruct (Z.ltb_spec (u8 c) 128); [lia|reflexivity].
Qed.

Lemma solid_space (c : byte) :
  u8 c < 128 -> IsSpace (u8 c) = true -> solid c = false.
Proof.
  intros H S. unfold solid, asciiSpace. unfold IsSpace in S.
  destruct (Z.leb_spec (u8 c) 255); [|lia].
  destruct (Z.ltb_spec (u8 c) RuneSelf); [|reflexivity]. cbn [andb].
  destruct ((9 <=? u8 c) && (u8 c <=? 13) || (u8 c =? 32)) eqn:E;
    [reflexivity|].
  cbn [orb] in S. apply orb_prop in S.
  destruct S as [S|S]; apply Z.eqb_eq in S; lia.
Qed.

Lemma isCont_high (b : Z) : isCont b = true -> 128 <= b.
Proof.
  unfold isCont, locb. intros H. apply andb_prop in H. destruct H as [H _].
  now apply Z.leb_le in H.
Qed.

(** A white-space rune at the head of a string is made of bytes that are
    not solid. *)
Lemma DecodeRuneInString_space (s : gostring) (r size : Z) :
  DecodeRuneInString s = (r, size) -> IsSpace r = true ->
  1 <= size <= len s /\ soft (firstn (Z.to_nat size) s).
Proof.
  unfold DecodeRuneInString, soft.
  destruct s as [|c0 s1]; [intros H; injection H as <- <-; discriminate|].
  pose proof (u8_range c0) as R0.
  destruct (Z.ltb_spec (u8 c0) RuneSelf) as [Ha|Ha].
  { intros H S. injection H as <- <-. split.
    - unfold len. cbn [List.length]. lia.
    - cbn. constructor; [|constructor]. now apply solid_space. }
  unfold RuneSelf in Ha.
  destruct (leading (u8 c0)) as [[[sz lo] hi]|] eqn:L;
    [|intros H; injection H as <- <-; discriminate].
  destruct (leading_range _ _ _ _ L) as (Hsz & Hlo).
  destruct (Z.ltb_spec (len (c0 :: s1)) sz) as [Hl|Hl];
    [intros H; injection H as <- <-; discriminate|].
  destruct s1 as [|c1 s2]; [unfold len in Hl; cbn in Hl; lia|].
  change (at_ (c0 :: c1 :: s2) 1) with c1.
  destruct ((u8 c1 <? lo) || (hi <? u8 c1)) eqn:E1;
    [intros H; injection H as <- <-; discriminate|].
  apply orb_false_elim in E1. destruct E1 as [E1 _].
  apply Z.ltb_ge in E1.
  assert (H0 : solid c0 = false) by (apply solid_high; lia).
  assert (H1 : solid c1 = false) by (apply solid_high; lia).
  destruct (Z.leb_spec sz 2) as [H2|H2].
  { intros H _. injection H as _ <-. split.
    - unfold len in *. cbn [List.length] in *. lia.
    - cbn. repeat constructor; assumption. }
  destruct s2 as [|c2 s3]; [unfold len in Hl; cbn in Hl; lia|].
  change (at_ (c0 :: c1 :: c2 :: s3) 2) with c2.
  destruct (isCont (u8 c2)) eqn:E2;
    [|intros H; injection H as <- <-; discriminate].
  cbn [negb].
  assert (H2' : solid c2 = false)
    by (apply solid_high; now apply isCont_high).
  destruct (Z.leb_spec sz 3) as [H3|H3].
  { intros H _. injection H as _ <-. split.
    - unfold len in *. cbn [List.length] in *. lia.
    - cbn. repeat constructor; assumption. }
  destruct s3 as [|c3 s4]; [unfold len in Hl; cbn in Hl; lia|].
  change (at_ (c0 :: c1 :: c2 :: c3 :: s4) 3) with c3.
  destruct (isCont (u8 c3)) eqn:E3;
    [|intros H; injection H as <- <-; discriminate].
  cbn [negb].
  assert (H3' : solid c3 = false)
    by (apply solid_high; now apply isCont_high).
  intros H _. injection H as _ <-. split.
  - unfold len in *. cbn [List.length] in *. lia.
  - cbn. repeat constructor; assumption.
Qed.

Lemma skipn_last_one (s : gostring) :
  s <> [] ->
  skipn (List.length s - 1) s = [nth (List.length s - 1) s x00].
Proof.
  intros Hne. destruct (exists_last Hne) as (l & a & ->).
  rewrite length_app. cbn [List.length].
  replace (List.length l + 1 - 1)%nat with (List.length l) by lia.
  rewrite skipn_app, skipn_all, Nat.sub_diag. cbn [skipn app].
  now rewrite nth_middle.
Qed.

(** The same for a white-space rune at the end. *)
Lemma DecodeLastRuneInString_space (s : gostring) (r size : Z) :
  DecodeLastRuneInString s = (r, size) -> IsSpace r = true ->
  1 <= size <= len s
  /\ soft (skipn (List.length s - Z.to_nat size) s).
Proof.
  unfold DecodeLastRuneInString.
  destruct (Z.eqb_spec (len s) 0) as [H0|H0];
    [intros H; injection H as <- <-; discriminate|].
  assert (Hne : s <> []) by (intros ->; apply H0; reflexivity).
  assert (Hlen : 1 <= len s) by (unfold len in *; lia).
  destruct (Z.ltb_spec (u8 (at_ s (len s - 1))) RuneSelf) as [Ha|Ha].
  { intros H S. injection H as <- <-. split; [lia|].
    change (Z.to_nat 1) with 1%nat. rewrite (skipn_last_one s Hne).
    unfold at_, len in *.
    replace (Z.to_nat (Z.of_nat (List.length s) - 1))
      with (List.length s - 1)%nat in * by lia.
    constructor; [|constructor]. now apply solid_space. }
  set (start := Z.max 0 (scanBack 4 s (len s - 2) (Z.max 0 (len s - 4)))).
  destruct (DecodeRuneInString (slice s start (len s))) as [r' size'] eqn:D.
  destruct (Z.eqb_spec (start + size') (len s)) as [He|He]; cbn [negb];
    [|intros H; injection H as <- <-; discriminate].
  intros H S. injection H as <- <-.
  destruct (DecodeRuneInString_space _ _ _ D S) as (Hs & Hf).
  assert (Hst : 0 <= start) by (unfold start; lia).
  split; [lia|].
  unfold slice in Hf.
  replace (Z.to_nat (len s - start)) with (Z.to_nat size') in Hf by lia.
  assert (Hsk : len (skipn (Z.to_nat start) s) = size').
  { unfold len in *. rewrite length_skipn. lia. }
  rewrite firstn_firstn, Nat.min_id in Hf.
  rewrite firstn_all2 in Hf by (unfold len in Hsk; lia).
  replace (List.length s - Z.to_nat size')%nat with (Z.to_nat start)
    by (unfold len in *; lia).
  exact Hf.
Qed.

Lemma trimLeftSpace_cut (turns : nat) :
  forall s : gostring,
    exists k,
      trimLeftSpace turns s = skipn k s /\ soft (firstn k s).
Proof.
  induction turns as [|turns IH]; intros s; cbn [trimLeftSpace].
  - exists O. split; [reflexivity|constructor].
  - destruct s as [|c s']; [exists O; split; [reflexivity|constructor]|].
    destruct (DecodeRuneInString (c :: s')) as [r size] eqn:D.
    destruct (IsSpace r) eqn:S.
    + destruct (DecodeRuneInString_space _ _ _ D S) as (Hs & Hf).
      destruct (IH (slice_from (c :: s') size)) as (k & E & Hk).
      exists (Z.to_nat size + k)%nat. unfold slice_from in *.
      rewrite E, skipn_skipn. split; [f_equal; lia|].
      rewrite (firstn_split_at (Z.to_nat size)) by lia.
      replace (Z.to_nat size + k - Z.to_nat size)%nat with k by lia.
      apply Forall_app. split; assumption.
    + exists O. split; [reflexivity|constructor].
Qed.

Lemma trimRightSpace_cut (turns : nat) :
  forall s : gostring,
    exists k,
      (k <= List.length s)%nat
      /\ trimRightSpace turns s = firstn k s /\ soft (skipn k s).
Proof.
  induction turns as [|turns IH]; intros s; cbn [trimRightSpace].
  - exists (List.length s). rewrite firstn_all, skipn_all.
    split; [lia|]. split; [reflexivity|constructor].
  - destruct s as [|c s'].
    { exists O. split; [cbn; lia|]. split; [reflexivity|constructor]. }
    destruct (DecodeLastRuneInString (c :: s')) as [r size] eqn:D.
    destruct (IsSpace r) eqn:S.
    + destruct (DecodeLastRuneInString_space _ _ _ D S) as (Hs & Hf).
      set (s := c :: s') in *.
      destruct (IH (slice_to s (len s - size))) as (k & Hle & E & Hk).
      unfold slice_to in *.
      assert (Hn : Z.to_nat (len s - size)
                   = (List.length s - Z.to_nat size)%nat)
        by (unfold len in *; lia).
      rewrite Hn in *. set (n := (List.length s - Z.to_nat size)%nat) in *.
      rewrite length_firstn in Hle.
      exists k. split; [lia|]. rewrite E.
      rewrite firstn_firstn. replace (Nat.min k n) with k by lia.
      split; [reflexivity|].
      rewrite <- (firstn_skipn n s) at 1.
      rewrite skipn_app. apply Forall_app. split; [exact Hk|].
      rewrite length_firstn.
      replace (k - Nat.min n (List.length s))%nat with O by lia.
      exact Hf.
    + exists (List.length (c :: s')). rewrite firstn_all, skipn_all.
      split; [lia|]. split; [reflexivity|constructor].
Qed.

Lemma solid_asciiSpace (c : byte) : asciiSpace c = true -> solid c = false.
Proof. intros H. unfold solid. rewrite H. apply andb_false_r. Qed.

Lemma trimSpaceStop_cut (rs : list byte) :
  exists k,
    (k <= List.length rs)%nat
    /\ trimSpaceStop rs = firstn k (rev rs) /\ soft (skipn k (rev rs)).
Proof.
  induction rs as [|c r IH]; cbn [trimSpaceStop].
  - exists O. split; [cbn; lia|]. split; [reflexivity|constructor].
  - destruct (Z.leb_spec RuneSelf (u8 c)) as [Hh|Hh].
    + unfold TrimRightSpace.
      destruct (trimRightSpace_cut (List.length (rev (c :: r))) (rev (c :: r)))
        as (k & Hle & E & Hk).
      exists k. rewrite length_rev in Hle. auto.
    + destruct (asciiSpace c) eqn:A.
      * destruct IH as (k & Hle & E & Hk).
        exists k. cbn [List.length rev]. split; [lia|].
        rewrite firstn_app_short by (rewrite length_rev; lia).
        split; [exact E|].
        rewrite skipn_app_short by (rewrite length_rev; lia).
        apply Forall_app. split; [exact Hk|].
        constructor; [now apply solid_asciiSpace|constructor].
      * exists (List.length (c :: r)).
        rewrite <- (length_rev (c :: r)), firstn_all, skipn_all.
        split; [lia|]. split; [reflexivity|constructor].
Qed.

(** [TrimSpace] cuts a string at both ends, and what it cuts has no solid
    byte. *)
Lemma TrimSpace_cut (s : gostring) :
  exists a b, s = a ++ TrimSpace s ++ b /\ soft a /\ soft b.
Proof.
  induction s as [|c r IH]; cbn [TrimSpace].
  - exists [], []. repeat split; constructor.
  - destruct (Z.leb_spec RuneSelf (u8 c)) as [Hh|Hh].
    + unfold TrimRightSpace, TrimLeftSpace.
      destruct (trimLeftSpace_cut (List.length (c :: r)) (c :: r))
        as (k & -> & Hk).
      destruct (trimRightSpace_cut (List.length (skipn k (c :: r)))
                  (skipn k (c :: r))) as (k' & _ & -> & Hk').
      exists (firstn k (c :: r)), (skipn k' (skipn k (c :: r))).
      split; [now rewrite !firstn_skipn|]. split; assumption.
    + destruct (asciiSpace c) eqn:A.
      * destruct IH as (a & b & E & Ha & Hb).
        exists (c :: a), b. split; [cbn; now rewrite <- E|].
        split; [constructor; [now apply solid_asciiSpace|exact Ha]|exact Hb].
      * destruct (trimSpaceStop_cut (rev (c :: r))) as (k & _ & -> & Hk).
        rewrite rev_involutive in *.
        exists [], (skipn k (c :: r)). cbn [app].
        split; [now rewrite firstn_skipn|]. split; [constructor|exact Hk].
Qed.

(** So a solid byte of the string is a byte of the trimmed string. *)
Lemma TrimSpace_keeps (s : gostring) (c : byte) :
  In c s -> solid c = true -> In c (TrimSpace s).
Proof.
  intros Hin Hs. destruct (TrimSpace_cut s) as (a & b & E & Ha & Hb).
  rewrite E in Hin. apply in_app_or in Hin.
  unfold soft in *. rewrite Forall_forall in Ha, Hb.
  destruct Hin as [Hin|Hin]; [specialize (Ha c Hin); congruence|].
  apply in_app_or in Hin.
  destruct Hin as [Hin|Hin]; [exact Hin|specialize (Hb c Hin); congruence].
Qed.

Lemma TrimSpace_sub (s : gostring) (c : byte) : In c (TrimSpace s) -> In c s.
Proof.
  intros Hin. destruct (TrimSpace_cut s) as (a & b & E & _).
  rewrite E. apply in_or_app. right. apply in_or_app. now left.
Qed.

End TrimFacts.

Module SplitCSV.
Import Strings Provider TrimFacts.

Lemma splitAt_pieces (sep : byte) (s : gostring) :
  forall cur, ~ In sep cur ->
    Forall (fun p => ~ In sep p) (splitAt sep s cur).
Proof.
  induction s as [|c s IH]; intros cur Hc; cbn [splitAt].
  - constructor; [exact Hc|constructor].
  - destruct (Byte.eqb c sep) eqn:E.
    + constructor; [exact Hc|]. apply IH. intros [].
    + apply IH. intros Hin. apply in_app_or in Hin.
      destruct Hin as [Hin|[<-|[]]]; [contradiction|].
      rewrite ProxyFacts.eqb_refl in E. discriminate E.
Qed.

Lemma splitAt_whole (sep : byte) (s : gostring) :
  forall cur, ~ In sep s -> splitAt sep s cur = [cur ++ s].
Proof.
  induction s as [|c s IH]; intros cur Hn; cbn [splitAt].
  - now rewrite app_nil_r.
  - rewrite ProxyFacts.eqb_neq by (intros ->; apply Hn; now left).
    rewrite IH by (intros H; apply Hn; now right).
    now rewrite <- app_assoc.
Qed.

Lemma splitAt_sep (sep : byte) (x rest : gostring) :
  forall cur, ~ In sep x ->
    splitAt sep (x ++ sep :: rest) cur = (cur ++ x) :: splitAt sep rest [].
Proof.
  induction x as [|c x IH]; intros cur Hn; cbn [app splitAt].
  - rewrite ProxyFacts.eqb_refl. now rewrite app_nil_r.
  - rewrite ProxyFacts.eqb_neq by (intros ->; apply Hn; now left).
    rewrite IH by (intros H; apply Hn; now right).
    now rewrite <- app_assoc.
Qed.

(** Joining with a separator and splitting at it gives the pieces back. *)
Lemma Split_Join (sep : byte) (xs : list gostring) :
  xs <> [] -> Forall (fun x => ~ In sep x) xs ->
  Split (Join xs [sep]) sep = xs.
Proof.
  unfold Split. intros Hne Hall.
  induction Hall as [|x xs Hx Hall IH]; [contradiction|].
  destruct xs as [|y ys].
  - cbn [Join]. now rewrite splitAt_whole.
  - change (Join (x :: y :: ys) [sep]) with (x ++ sep :: Join (y :: ys) [sep]).
    rewrite splitAt_sep by exact Hx. cbn [app]. f_equal.
    apply IH. discriminate.
Qed.

Lemma splitCSV_loop_filter (parts : list gostring) :
  forall out,
    splitCSV_loop parts out = out ++ filter nonEmpty (map TrimSpace parts).
Proof.
  induction parts as [|p parts IH]; intros out; cbn [splitCSV_loop map filter].
  - now rewrite app_nil_r.
  - destruct (TrimSpace p) as [|b t] eqn:E; cbn [nonEmpty].
    + apply IH.
    + rewrite IH, <- app_assoc. reflexivity.
Qed.

Lemma filter_trimmed (xs : list gostring) :
  Forall (fun x => x <> [] /\ ~ In ","%byte x /\ TrimSpace x = x) xs ->
  filter nonEmpty (map TrimSpace xs) = xs.
Proof.
  induction 1 as [|x xs (Hx & _ & Ht) Hall IH]; [reflexivity|].
  cbn [map filter]. rewrite Ht. destruct x; [contradiction|].
  cbn [nonEmpty]. now rewrite IH.
Qed.

Lemma comma_solid : solid ","%byte = true.
Proof. reflexivity. Qed.

(** X15: [splitCSV] returns the comma-separated parts of its argument,
    trimmed, in order and without the empty ones, and nil when none is
    left: every element of the result is a non-empty string without a
    comma.  On the members of a list joined with commas it returns the
    list, provided the members are non-empty, have no comma and no white
    space around them. *)
Theorem splitCSV_parts (v : gostring) :
  (forall out, splitCSV v = Some out ->
     out <> []
     /\ out = filter nonEmpty (map TrimSpace (Split v ","%byte))
     /\ Forall (fun p => p <> [] /\ ~ In ","%byte p) out)
  /\ (splitCSV v = None <->
      Forall (fun p => TrimSpace p = []) (Split v ","%byte))
  /\ (forall xs,
        xs <> [] ->
        Forall (fun x => x <> [] /\ ~ In ","%byte x /\ TrimSpace x = x) xs ->
        v = Join xs (str ",") ->
        splitCSV v = Some xs).
Proof.
  assert (Hfilter : forall l : list gostring,
            filter nonEmpty (map TrimSpace l) = []
            <-> Forall (fun p => TrimSpace p = []) l).
  { induction l as [|p l IH]; cbn [map filter]; [split; auto|].
    destruct (TrimSpace p) eqn:E; cbn [nonEmpty].
    - rewrite IH. split; [auto|]. intros H. now inversion H.
    - split; [discriminate|]. intros H. inversion H. congruence. }
  assert (Hblank : TrimSpace v = [] ->
                   Forall (fun p => TrimSpace p = []) (Split v ","%byte)).
  { intros Hb. assert (Hn : ~ In ","%byte v).
    { intros Hin. pose proof (TrimSpace_keeps v _ Hin comma_solid) as K.
      rewrite Hb in K. exact K. }
    unfold Split. rewrite splitAt_whole by exact Hn.
    constructor; [exact Hb|constructor]. }
  split; [|split].
  - intros out E. unfold splitCSV in E.
    destruct (TrimSpace v) as [|b t]; [discriminate E|].
    rewrite splitCSV_loop_filter in E. cbn [app] in E.
    destruct (filter nonEmpty (map TrimSpace (Split v ","%byte)))
      as [|o os] eqn:F; [discriminate E|].
    injection E as <-. split; [discriminate|]. split; [reflexivity|].
    rewrite <- F. apply Forall_forall. intros p Hp.
    apply filter_In in Hp. destruct Hp as [Hp Hne].
    apply in_map_iff in Hp. destruct Hp as (q & <- & Hq).
    split; [intros E0; rewrite E0 in Hne; discriminate Hne|].
    intros Hin. apply TrimSpace_sub in Hin.
    pose proof (splitAt_pieces ","%byte v [] (fun H => H)) as Hall.
    rewrite Forall_forall in Hall. exact (Hall q Hq Hin).
  - unfold splitCSV. destruct (TrimSpace v) as [|b t] eqn:Et.
    + split; [intros _; now apply Hblank|reflexivity].
    + rewrite splitCSV_loop_filter. cbn [app].
      destruct (filter nonEmpty (map TrimSpace (Split v ","%byte)))
        as [|o os] eqn:F.
      * split; [intros _; now apply Hfilter|reflexivity].
      * split; [discriminate|]. intros H. apply Hfilter in H. congruence.
  - intros xs Hne Hall ->.
    assert (Hsplit : Split (Join xs (str ",")) ","%byte = xs).
    { apply (Split_Join ","%byte xs Hne).
      apply Forall_forall. intros x Hx. rewrite Forall_forall in Hall.
      now destruct (Hall x Hx) as (_ & H & _). }
    pose proof (filter_trimmed xs Hall) as Hkeep.
    unfold splitCSV.
    destruct (TrimSpace (Join xs (str ","))) as [|b t] eqn:Et.
    + pose proof (Hblank eq_refl) as Hb. rewrite Hsplit in Hb.
      destruct xs as [|x xs]; [contradiction|].
      inversion Hb as [|? ? Hx _]. inversion Hall as [|? ? (Hx' & _ & Ht) _].
      congruence.
    + rewrite splitCSV_loop_filter, Hsplit, Hkeep. cbn [app].
      destruct xs; [contradiction|reflexivity].
Qed.

Lemma splitCSV_parts_witness :
  splitCSV (str "h2,http/1.1") = Some [str "h2"; str "http/1.1"].
Proof.
  destruct (splitCSV_parts (str "h2,http/1.1")) as (_ & _ & H).
  apply H.
  - discriminate.
  - repeat constructor; try discriminate; vm_compute; intuition discriminate.
  - reflexivity.
Defined.

End SplitCSV.

(* ====================================================================== *)
(** * The installer: which member of the archive *)
(* ====================================================================== *)

Module Unzip.
Import IO Core Installer.

(** The first element a test accepts, and what stands before it. *)
Lemma find_first {A : Type} (f : A -> bool) (l : list A) :
  match find f l with
  | Some x =>
      exists pre post,
        l = pre ++ x :: post /\ f x = true
        /\ Forall (fun y => f y = false) pre
  | None => Forall (fun y => f y = false) l
  end.
Proof.
  induction l as [|y l IH]; cbn [find]; [constructor|].
  destruct (f y) eqn:E.
  - exists [], l. auto.
  - destruct (find f l) as [x|].
    + destruct IH as (pre & post & -> & Hx & Hp).
      exists (y :: pre), post. auto.
    + constructor; assumption.
Qed.

Section UnzipFacts.
Variable MapToLower : gostring -> gostring.
Variable filepath_Join : gostring -> gostring -> gostring.
Variables workDir preferredName : gostring.

Lemma loop_fallback_kept (files : list member) :
  forall fb written,
    fb <> [] ->
    Forall (fun g => coreMember MapToLower preferredName g = false) files ->
    extractFromZip_loop MapToLower filepath_Join files workDir preferredName
      fb written = (Ok fb, written).
Proof.
  induction files as [|f files IH]; intros fb written Hfb Hall.
  - destruct fb; [contradiction|reflexivity].
  - inversion Hall as [|? ? Hf Hr]. subst. cbn [extractFromZip_loop].
    unfold coreMember, memberBase in Hf.
    destruct (mIsDir f); [now apply IH|].
    destruct (gostring_eqb _ []); [now apply IH|].
    cbn [negb andb] in Hf. rewrite Hf.
    destruct fb as [|b fb']; [contradiction|].
    change (gostring_eqb (b :: fb') []) with false. cbn [andb].
    now apply IH.
Qed.

Lemma loop_fallback_core (pre : list member) :
  forall f post fb written,
    fb <> [] ->
    Forall (fun g => coreMember MapToLower preferredName g = false) pre ->
    coreMember MapToLower preferredName f = true ->
    extractFromZip_loop MapToLower filepath_Join (pre ++ f :: post) workDir
      preferredName fb written
    = extractMember filepath_Join workDir f written.
Proof.
  induction pre as [|g pre IH]; intros f post fb written Hfb Hall Hf.
  - cbn [app extractFromZip_loop]. unfold coreMember, memberBase in Hf.
    destruct (mIsDir f); [discriminate Hf|].
    destruct (gostring_eqb _ []); [discriminate Hf|].
    cbn [negb andb] in Hf. rewrite Hf. reflexivity.
  - inversion Hall as [|? ? Hg Hr]. subst.
    cbn [app extractFromZip_loop]. unfold coreMember, memberBase in Hg.
    destruct (mIsDir g); [now apply IH|].
    destruct (gostring_eqb _ []); [now apply IH|].
    cbn [negb andb] in Hg. rewrite Hg.
    destruct fb as [|b fb']; [contradiction|].
    change (gostring_eqb (b :: fb') []) with false. cbn [andb].
    now apply IH.
Qed.

Lemma loop_no_core (files : list member) :
  forall written,
    (forall g, memberDst filepath_Join workDir g <> []) ->
    Forall (fun g => coreMember MapToLower preferredName g = false) files ->
    extractFromZip_loop MapToLower filepath_Join files workDir preferredName
      [] written =
      match find (fallbackMember MapToLower) files with
      | None => (Err ErrNoCoreBinary, written)
      | Some g => extractMember filepath_Join workDir g written
      end.
Proof.
  induction files as [|f files IH]; intros written Hd Hall; [reflexivity|].
  inversion Hall as [|? ? Hf Hr]. subst.
  cbn [extractFromZip_loop find].
  unfold coreMember, memberBase in Hf. unfold fallbackMember at 1, memberBase.
  destruct (mIsDir f); [now apply IH|].
  destruct (gostring_eqb _ []); [now apply IH|].
  cbn [negb andb] in Hf |- *. rewrite Hf.
  change (gostring_eqb [] []) with true. cbn [andb].
  destruct (isExecutableName MapToLower _); [|now apply IH].
  unfold extractMember. fold (memberDst filepath_Join workDir f).
  destruct (mExtract f); [reflexivity|].
  exact (loop_fallback_kept files _ _ (Hd f) Hr).
Qed.

Lemma loop_core (pre : list member) :
  forall f post written,
    (forall g, memberDst filepath_Join workDir g <> []) ->
    Forall (fun g => coreMember MapToLower preferredName g = false) pre ->
    coreMember MapToLower preferredName f = true ->
    extractFromZip_loop MapToLower filepath_Join (pre ++ f :: post) workDir
      preferredName [] written =
      match find (fallbackMember MapToLower) pre with
      | None => extractMember filepath_Join workDir f written
      | Some g =>
          match mExtract g with
          | Some e => (Err (ErrExtractMember e), written)
          | None =>
              extractMember filepath_Join workDir f
                (written ++ [memberDst filepath_Join workDir g])
          end
      end.
Proof.
  induction pre as [|g pre IH]; intros f post written Hd Hall Hf.
  - cbn [app find extractFromZip_loop]. unfold coreMember, memberBase in Hf.
    destruct (mIsDir f); [discriminate Hf|].
    destruct (gostring_eqb _ []); [discriminate Hf|].
    cbn [negb andb] in Hf. rewrite Hf. reflexivity.
  - inversion Hall as [|? ? Hg Hr]. subst.
    cbn [app extractFromZip_loop find].
    unfold coreMember, memberBase in Hg. unfold fallbackMember at 1, memberBase.
    destruct (mIsDir g); [now apply IH|].
    destruct (gostring_eqb _ []); [now apply IH|].
    cbn [negb andb] in Hg |- *. rewrite Hg.
    change (gostring_eqb [] []) with true. cbn [andb].
    destruct (isExecutableName MapToLower _); [|now apply IH].
    fold (memberDst filepath_Join workDir g).
    destruct (mExtract g); [reflexivity|].
    exact (loop_fallback_core pre f post _ _ (Hd g) Hr Hf).
Qed.

(** X16: which member [extractFromZip] takes.  The first member that is
    the core binary by its name is the result, wherever it stands; when
    there is none, the result is the first member that has the name of an
    executable, and the call fails when there is none either.  On the way
    to the core binary, the first member with the name of an executable is
    extracted too, and stays in the work directory.  Nothing else is
    written: every file extracted comes from a member that is no directory
    and passed one of the two tests, so the data files (.dat, .json, .txt,
    geoip, geosite) are left in the archive unless one is named like the
    core. *)
Theorem extractFromZip_choice (files : list member) :
  (forall g, memberDst filepath_Join workDir g <> []) ->
  let out := extractFromZip MapToLower filepath_Join files workDir preferredName in
  let core := coreMember MapToLower preferredName in
  let fallback := fallbackMember MapToLower in
  (forall pre f post,
      files = pre ++ f :: post ->
      Forall (fun g => core g = false) pre -> core f = true ->
      out = match find fallback pre with
            | None => extractMember filepath_Join workDir f []
            | Some g =>
                match mExtract g with
                | Some e => (Err (ErrExtractMember e), [])
                | None =>
                    extractMember filepath_Join workDir f
                      [memberDst filepath_Join workDir g]
                end
            end)
  /\ (Forall (fun g => core g = false) files ->
      out = match find fallback files with
            | None => (Err ErrNoCoreBinary, [])
            | Some g => extractMember filepath_Join workDir g []
            end)
  /\ (forall d, In d (snd out) ->
        exists f, In f files /\ d = memberDst filepath_Join workDir f
                  /\ mIsDir f = false /\ mExtract f = None
                  /\ (core f = true \/ fallback f = true)).
Proof.
  intros Hd. cbn zeta. unfold extractFromZip.
  assert (Hdir : forall f, coreMember MapToLower preferredName f = true
                           \/ fallbackMember MapToLower f = true ->
                           mIsDir f = false).
  { intros f [H|H]; unfold coreMember, fallbackMember in H;
      destruct (mIsDir f); [discriminate H|reflexivity|discriminate H|reflexivity]. }
  assert (Htake : forall f w d,
            In d (snd (extractMember filepath_Join workDir f w)) ->
            In d w \/ (d = memberDst filepath_Join workDir f
                       /\ mExtract f = None)).
  { intros f w d. unfold extractMember.
    destruct (mExtract f); cbn [snd]; [auto|].
    intros H. apply in_app_or in H. destruct H as [H|[H|[]]]; auto. }
  split; [|split].
  - intros pre f post -> Hall Hf. exact (loop_core pre f post [] Hd Hall Hf).
  - intros Hall. exact (loop_no_core files [] Hd Hall).
  - intros d Hin.
    pose proof (find_first (coreMember MapToLower preferredName) files) as Hc.
    destruct (find (coreMember MapToLower preferredName) files) as [f|].
    + destruct Hc as (pre & post & -> & Hf & Hall).
      rewrite (loop_core pre f post [] Hd Hall Hf) in Hin.
      pose proof (find_first (fallbackMember MapToLower) pre) as Hfb.
      destruct (find (fallbackMember MapToLower) pre) as [g|].
      * destruct Hfb as (p1 & p2 & -> & Hg & _).
        destruct (mExtract g) eqn:Eg; [contradiction Hin|].
        apply Htake in Hin. destruct Hin as [[<-|[]]|[-> He]].
        -- exists g. split; [apply in_or_app; left; apply in_or_app; right;
                             now left|].
           split; [reflexivity|]. split; [apply Hdir; auto|]. auto.
        -- exists f. split; [apply in_or_app; right; now left|].
           split; [reflexivity|]. split; [apply Hdir; auto|]. auto.
      * apply Htake in Hin. destruct Hin as [[]|[-> He]].
        exists f. split; [apply in_or_app; right; now left|].
        split; [reflexivity|]. split; [apply Hdir; auto|]. auto.
    + rewrite (loop_no_core files [] Hd Hc) in Hin.
      pose proof (find_first (fallbackMember MapToLower) files) as Hfb.
      destruct (find (fallbackMember MapToLower) files) as [g|];
        [|contradiction Hin].
      destruct Hfb as (p1 & p2 & -> & Hg & _).
      apply Htake in Hin. destruct Hin as [[]|[-> He]].
      exists g. split; [apply in_or_app; right; now left|].
      split; [reflexivity|]. split; [apply Hdir; auto|]. auto.
Qed.

End UnzipFacts.

Lemma extractFromZip_choice_witness :
  extractFromZip (fun s => s) Core.Join
    [{| mName := str "geoip.dat"; mIsDir := false; mExtract := None |};
     {| mName := str "README.md"; mIsDir := false; mExtract := None |};
     {| mName := str "bin/"; mIsDir := true; mExtract := None |};
     {| mName := str "bin/Xray.exe"; mIsDir := false; mExtract := None |}]
    (str "/tmp/w") (str "xray")
  = (Ok (str "/tmp/w/Xray.exe"), [str "/tmp/w/README.md"; str "/tmp/w/Xray.exe"]).
Proof.
  destruct (extractFromZip_choice (fun s => s) Core.Join (str "/tmp/w")
              (str "xray")
              [{| mName := str "geoip.dat"; mIsDir := false; mExtract := None |};
               {| mName := str "README.md"; mIsDir := false; mExtract := None |};
               {| mName := str "bin/"; mIsDir := true; mExtract := None |};
               {| mName := str "bin/Xray.exe"; mIsDir := false;
                  mExtract := None |}]) as (H & _).
  - intros g. discriminate.
  - rewrite (H [{| mName := str "geoip.dat"; mIsDir := false; mExtract := None |};
                {| mName := str "README.md"; mIsDir := false; mExtract := None |};
                {| mName := str "bin/"; mIsDir := true; mExtract := None |}]
               {| mName := str "bin/Xray.exe"; mIsDir := false; mExtract := None |}
               []).
    + vm_compute. reflexivity.
    + reflexivity.
    + repeat constructor.
    + vm_compute. reflexivity.
Defined.

End Unzip.
